(** * Audio flashcard image generator: the pronunciation comparator, the
    flashcard store, bulk image generation and deck import/export.

    The development follows the TypeScript sources: [comparePronunciation]
    of the card component, and [handleGenerateImage], [handleGenerateAll],
    [handleExport], [handleImport] and [handleImportFromUrl] of [App].

    JavaScript strings are sequences of UTF-16 code units; a code unit is a
    natural number below 65536, kept in [N]. *)

From Stdlib Require Import NArith ZArith List Ascii String Permutation Lia Bool.
From stdpp Require Import base tactics option list gmap.

Local Open Scope N_scope.

(** ** JavaScript strings *)

Abbreviation jsstring := (list N).

(** A string literal of the sources, as code units. *)
Fixpoint lit (s : string) : jsstring :=
  match s with
  | EmptyString => []
  | String a s' => N_of_ascii a :: lit s'
  end.

#[global] Arguments lit : simpl never.

(** [Boolean(s)] for a string [s]: every string but the empty one is truthy. *)
Definition Boolean (s : jsstring) : Prop := s ≠ [].

#[global] Instance Boolean_dec s : Decision (Boolean s).
Proof. unfold Boolean. apply _. Defined.

(** *** Character classes of regular expressions without the [u] flag *)

(** [\s]: WhiteSpace and LineTerminator of ECMAScript. *)
Definition is_space (c : N) : bool :=
  (c =? 0x09) || (c =? 0x0a) || (c =? 0x0b) || (c =? 0x0c) || (c =? 0x0d)
  || (c =? 0x20) || (c =? 0xa0) || (c =? 0x1680)
  || ((0x2000 <=? c) && (c <=? 0x200a))
  || (c =? 0x2028) || (c =? 0x2029) || (c =? 0x202f) || (c =? 0x205f)
  || (c =? 0x3000) || (c =? 0xfeff).

(** [\w]: [A-Za-z0-9_]. *)
Definition is_word (c : N) : bool :=
  ((0x41 <=? c) && (c <=? 0x5a)) || ((0x61 <=? c) && (c <=? 0x7a))
  || ((0x30 <=? c) && (c <=? 0x39)) || (c =? 0x5f).

Definition apostrophe : N := 0x27.

(** The pattern [/[^\w\s']|'/]: one code unit that is none of a word
    character, white space and an apostrophe, or else an apostrophe. *)
Definition strip_pattern (c : N) : bool :=
  negb (is_word c || is_space c || (c =? apostrophe)) || (c =? apostrophe).

(** [s.replace(/p/g, '')] for a pattern [p] that matches single code units:
    every match is deleted. *)
Definition replace_all_empty (p : N → bool) (s : jsstring) : jsstring :=
  filter (λ c, p c = false) s.

(** [s.split(/\s+/)].  The flag says that the code unit before [s] was
    consumed by the separator, whose [+] is greedy.  The result keeps the
    empty strings JavaScript produces at both ends: [" a"] gives
    [["", "a"]] and the empty string gives [[""]]. *)
Fixpoint split_ws_go (in_run : bool) (s : jsstring) : list jsstring :=
  match s with
  | [] => [[]]
  | c :: s' =>
      if is_space c then
        if in_run then split_ws_go true s' else [] :: split_ws_go true s'
      else
        match split_ws_go false s' with
        | tok :: rest => (c :: tok) :: rest
        | [] => [[c]]
        end
  end.

Definition split_ws (s : jsstring) : list jsstring := split_ws_go false s.

(** [s.split(/\s+/).filter(Boolean)]: the non-empty white-space separated
    words of [s]. *)
Definition words (s : jsstring) : list jsstring := filter Boolean (split_ws s).

(** The display words in the words of the specification: the text is
    split at each white-space code unit, and the empty tokens are
    discarded. *)
Fixpoint split_each_space (s : jsstring) : list jsstring :=
  match s with
  | [] => [[]]
  | c :: s' =>
      if is_space c then [] :: split_each_space s'
      else match split_each_space s' with
           | w :: rest => (c :: w) :: rest
           | [] => [[c]]
           end
  end.

Definition display_words_spec (originalText : jsstring) : list jsstring :=
  filter Boolean (split_each_space originalText).

(** *** [Set] of strings *)

(** [new Set(xs)]; membership is by string value. *)
Definition new_Set (xs : list jsstring) : gset jsstring := list_to_set xs.

(** [set.has(x)], where [x] is the result of an array read: an index out of
    range reads [undefined], which no set of strings has. *)
Definition Set_has (s : gset jsstring) (x : option jsstring) : bool :=
  match x with
  | Some v => bool_decide (v ∈ s)
  | None => false
  end.

(** ** The pronunciation comparator *)

Record ComparisonResult := { word : jsstring; isCorrect : bool }.

(** ASCII lower-casing, the part of [toLowerCase] on Basic Latin. *)
Definition ascii_lower (c : N) : N :=
  if (0x41 <=? c) && (c <=? 0x5a) then c + 0x20 else c.

Section Comparator.

(** [String.prototype.toLowerCase] follows the Unicode case mapping
    tables, which are not reproduced here: the comparator is stated for
    any lower-casing function, and the facts about it that a result
    depends on are named as hypotheses where they are used. *)
Variable toLowerCase : jsstring → jsstring.

(** [w.toLowerCase().replace(/[^\w\s']|'/g, '')] *)
Definition normalize (w : jsstring) : jsstring :=
  replace_all_empty strip_pattern (toLowerCase w).

Definition comparePronunciation (originalText spokenText : jsstring)
  : list ComparisonResult :=
  let originalDisplayWords := filter Boolean (split_ws originalText) in
  let originalComparisonWords :=
    (λ w, replace_all_empty strip_pattern (toLowerCase w))
      <$> originalDisplayWords in
  let spokenComparisonWords :=
    filter Boolean
      (split_ws (replace_all_empty strip_pattern (toLowerCase spokenText))) in
  let spokenWordSet := new_Set spokenComparisonWords in
  imap (λ index word,
          {| word := word;
             isCorrect := Set_has spokenWordSet
                            (originalComparisonWords !! index) |})
       originalDisplayWords.

(** The normal form in the words of the specification: lower-case, drop
    every code unit that is no word character, white space or apostrophe,
    then drop the apostrophes too. *)
Definition normalize_spec (w : jsstring) : jsstring :=
  filter (λ c, c ≠ apostrophe)
    (filter (λ c, is_word c = true ∨ is_space c = true ∨ c = apostrophe)
       (toLowerCase w)).

(** The spoken tokens in the words of the specification: the transcript
    in normal form, split on white space, without the empty tokens. *)
Definition spoken_tokens_spec (spokenText : jsstring) : list jsstring :=
  display_words_spec (normalize_spec spokenText).

End Comparator.

(** A lower-casing function to run the comparator on Basic Latin text. *)
Definition asciiLowerCase (s : jsstring) : jsstring := ascii_lower <$> s.

(** ** JSON values and objects

    The values [JSON.parse] produces.  An object is the list of its own
    properties in the order JavaScript enumerates them; a number is kept as
    the decimal [m * 10^e] its literal denotes: nothing below depends on
    the binary64 value of a number other than whether it is zero. *)

#[local] Unset Elimination Schemes.

Inductive json :=
| JNull
| JBool (b : bool)
| JNumber (m e : Z)
| JString (s : jsstring)
| JArray (items : list json)
| JObject (fields : list (jsstring * json)).

#[local] Set Elimination Schemes.

Abbreviation obj := (list (jsstring * json)).

(** [o.k] for an own property; [None] is [undefined]. *)
Fixpoint get (o : obj) (k : jsstring) : option json :=
  match o with
  | [] => None
  | (k', v) :: o' => if decide (k' = k) then Some v else get o' k
  end.

Definition is_digit (c : N) : bool := (0x30 <=? c) && (c <=? 0x39).

Fixpoint digits_value (acc : N) (s : jsstring) : option N :=
  match s with
  | [] => Some acc
  | c :: s' => if is_digit c then digits_value (10 * acc + (c - 0x30)) s' else None
  end.

(** An array index is a canonical numeric string below [2^32 - 1]. *)
Definition array_index (k : jsstring) : option N :=
  match k with
  | [] => None
  | c :: k' =>
      if (c =? 0x30) && bool_decide (k' ≠ []) then None
      else if (10 <? N.of_nat (length k)) then None
      else match digits_value 0 k with
           | Some n => if n <? 4294967295 then Some n else None
           | None => None
           end
  end.

(** Own properties are enumerated with the array indices first, in
    ascending order, then the other keys in the order of their creation. *)
Fixpoint obj_insert_index (n : N) (k : jsstring) (v : json) (o : obj) : obj :=
  match o with
  | [] => [(k, v)]
  | (k', v') :: o' =>
      match array_index k' with
      | Some n' =>
          if n' <? n then (k', v') :: obj_insert_index n k v o' else (k, v) :: o
      | None => (k, v) :: o
      end
  end.

(** Defining the property [k] of [o]: an existing property keeps its place
    and takes the new value, a new one is created. *)
Definition obj_set (o : obj) (k : jsstring) (v : json) : obj :=
  match get o k with
  | Some _ => (λ kv, if decide (kv.1 = k) then (k, v) else kv) <$> o
  | None =>
      match array_index k with
      | Some n => obj_insert_index n k v o
      | None => o ++ [(k, v)]
      end
  end.

(** The binary64 value of the literal [m * 10^e] is zero: [m] is zero, or
    the decimal is at most [2^-1075], half of the least positive value, and
    rounds to zero, a tie going to the even significand. *)
Definition rounds_to_zero (m e : Z) : bool :=
  ((m =? 0) || ((e <? 0) && (Z.abs m * 2 ^ 1075 <=? 10 ^ (- e))))%Z.

(** [!v] for a property read: [undefined], [null], [false], zero and the
    empty string are falsy. *)
Definition falsy (v : option json) : bool :=
  match v with
  | None | Some JNull | Some (JBool false) => true
  | Some (JNumber m e) => rounds_to_zero m e
  | Some (JString s) => bool_decide (s = [])
  | _ => false
  end.

(** [v === s] for a string [s]. *)
Definition strict_eq_string (v : option json) (s : jsstring) : bool :=
  match v with
  | Some (JString s') => bool_decide (s' = s)
  | _ => false
  end.

(** ** Flashcards and the state of the application *)

Record FlashcardItem := {
  id : jsstring;
  text : jsstring;
  audioUrl : jsstring;
  imageUrl : option jsstring;
  isLoading : bool
}.

Definition json_of_option_string (s : option jsstring) : json :=
  match s with Some u => JString u | None => JNull end.

(** A flashcard as the object the program holds. *)
Definition obj_of_FlashcardItem (c : FlashcardItem) : obj :=
  [ (lit "id", JString (id c));
    (lit "text", JString (text c));
    (lit "audioUrl", JString (audioUrl c));
    (lit "imageUrl", json_of_option_string (imageUrl c));
    (lit "isLoading", JBool (isLoading c)) ].

(** The state hooks of [App]. [setFlashcards(importedData)] stores what was
    imported as it is, so the collection is a list of objects with JSON
    values in their properties, not of [FlashcardItem] records. *)
Record AppState := {
  flashcards : list obj;
  error : option jsstring;
  importUrl : jsstring;
  isImportingUrl : bool
}.

Definition setFlashcards (f : list obj → list obj) (st : AppState) : AppState :=
  {| flashcards := f (flashcards st); error := error st;
     importUrl := importUrl st; isImportingUrl := isImportingUrl st |}.

Definition setError (e : option jsstring) (st : AppState) : AppState :=
  {| flashcards := flashcards st; error := e;
     importUrl := importUrl st; isImportingUrl := isImportingUrl st |}.

Definition setImportUrl (u : jsstring) (st : AppState) : AppState :=
  {| flashcards := flashcards st; error := error st;
     importUrl := u; isImportingUrl := isImportingUrl st |}.

Definition setIsImportingUrl (b : bool) (st : AppState) : AppState :=
  {| flashcards := flashcards st; error := error st;
     importUrl := importUrl st; isImportingUrl := b |}.

(** *** The three mutations of [handleGenerateImage] *)

(** [prev.map(card => card.id === id ? { ...card, isLoading: true } : card)] *)
Definition mark_loading (id : jsstring) (prev : list obj) : list obj :=
  (λ card, if strict_eq_string (get card (lit "id")) id
           then obj_set card (lit "isLoading") (JBool true) else card) <$> prev.

(** [prev.map(card => card.id === id ? { ...card, imageUrl, isLoading: false } : card)] *)
Definition store_image (id imageUrl : jsstring) (prev : list obj) : list obj :=
  (λ card, if strict_eq_string (get card (lit "id")) id
           then obj_set (obj_set card (lit "imageUrl") (JString imageUrl))
                        (lit "isLoading") (JBool false)
           else card) <$> prev.

(** [prev.map(card => card.id === id ? { ...card, isLoading: false } : card)] *)
Definition clear_loading (id : jsstring) (prev : list obj) : list obj :=
  (λ card, if strict_eq_string (get card (lit "id")) id
           then obj_set card (lit "isLoading") (JBool false) else card) <$> prev.

(** ** Image generation *)

(** What was thrown: an [Error] with its message, or another value. *)
Inductive thrown :=
| ErrorObject (message : jsstring)
| OtherValue.

(** How the promise of the image service settles. *)
Inductive outcome :=
| Resolved (imageUrl : jsstring)
| Rejected (e : thrown).

(** What is observed of the image service. *)
Inductive event :=
| CallStarted (prompt : jsstring)
| CallSettled (o : outcome).

Definition quote : N := 0x22.

(** [err instanceof Error ? err.message : 'An unknown error occurred.'] *)
Definition errorMessage (e : thrown) : jsstring :=
  match e with
  | ErrorObject m => m
  | OtherValue => lit "An unknown error occurred."
  end.

Definition fullPrompt (prompt : jsstring) : jsstring :=
  lit "A simple, cute, cartoon-style illustration for a children's flashcard, with a clean, solid light-colored background. The image should clearly and simply depict: "
  ++ prompt.

Section Generation.

(** The image service is outside the program: its state is a [World], and a
    call with a prompt settles one way or the other and moves the world. *)
Variable World : Type.
Variable generateImageFromPrompt : jsstring → World → outcome * World.

(** The application, the world and the calls of the image service so far. *)
Record System := {
  app : AppState;
  world : World;
  trace : list event
}.

Definition update_app (f : AppState → AppState) (sys : System) : System :=
  {| app := f (app sys); world := world sys; trace := trace sys |}.

(** [await generateImageFromPrompt(p)]: the call starts, and the caller
    goes on when it has settled. *)
Definition await_generateImageFromPrompt (p : jsstring) (sys : System)
  : outcome * System :=
  let (o, w) := generateImageFromPrompt p (world sys) in
  (o, {| app := app sys; world := w;
         trace := trace sys ++ [CallStarted p; CallSettled o] |}).

Definition handleGenerateImage (id prompt : jsstring) (sys : System) : System :=
  let sys := update_app (setFlashcards (mark_loading id)) sys in
  let sys := update_app (setError None) sys in
  let (o, sys) := await_generateImageFromPrompt (fullPrompt prompt) sys in
  match o with
  | Resolved imageUrl =>
      update_app (setFlashcards (store_image id imageUrl)) sys
  | Rejected err =>
      let sys :=
        update_app (setError (Some (lit "Failed to generate image for "
                                     ++ [quote] ++ prompt ++ [quote] ++ lit ". "
                                     ++ errorMessage err))) sys in
      update_app (setFlashcards (clear_loading id)) sys
  end.

(** An argument that the signature of [handleGenerateImage] declares a
    string. *)
Definition string_argument (v : option json) : option jsstring :=
  match v with
  | Some (JString s) => Some s
  | _ => None
  end.

(** The loop of [handleGenerateAll] over the cards of the render that made
    the handler.  [FlashcardItem] declares [id] and [text] strings; a card
    of an imported deck that holds something else there is not modelled,
    and the loop gives [None]. *)
Fixpoint handleGenerateAll_loop (cards : list obj) (sys : System)
  : option System :=
  match cards with
  | [] => Some sys
  | card :: rest =>
      if falsy (get card (lit "imageUrl")) && falsy (get card (lit "isLoading"))
      then
        match string_argument (get card (lit "id")),
              string_argument (get card (lit "text")) with
        | Some id, Some text =>
            handleGenerateAll_loop rest (handleGenerateImage id text sys)
        | _, _ => None
        end
      else handleGenerateAll_loop rest sys
  end.

Definition handleGenerateAll (sys : System) : option System :=
  handleGenerateAll_loop (flashcards (app sys)) sys.

End Generation.

Arguments app {World} _.
Arguments world {World} _.
Arguments trace {World} _.

(** The calls that have started and not settled. *)
Fixpoint outstanding (n : nat) (evs : list event) : option nat :=
  match evs with
  | [] => Some n
  | CallStarted _ :: evs' => outstanding (S n) evs'
  | CallSettled _ :: evs' =>
      match n with
      | O => None
      | S n' => outstanding n' evs'
      end
  end.

(** ** [JSON.stringify(value, null, 2)] *)

Definition backslash : N := 0x5c.
Definition LF : N := 0x0a.

Definition hex_digit (n : N) : N := if n <? 10 then 0x30 + n else 0x61 + (n - 10).

(** [\uXXXX] with lower-case hexadecimal digits. *)
Definition unicode_escape (c : N) : jsstring :=
  [backslash; 0x75; hex_digit (c / 4096 mod 16); hex_digit (c / 256 mod 16);
   hex_digit (c / 16 mod 16); hex_digit (c mod 16)].

Definition is_high_surrogate (c : N) : bool := (0xd800 <=? c) && (c <=? 0xdbff).
Definition is_low_surrogate (c : N) : bool := (0xdc00 <=? c) && (c <=? 0xdfff).

(** One code point that is no surrogate pair, inside a JSON string. *)
Definition quote_unit (c : N) : jsstring :=
  if c =? 0x08 then [backslash; 0x62]
  else if c =? 0x09 then [backslash; 0x74]
  else if c =? 0x0a then [backslash; 0x6e]
  else if c =? 0x0c then [backslash; 0x66]
  else if c =? 0x0d then [backslash; 0x72]
  else if c =? quote then [backslash; quote]
  else if c =? backslash then [backslash; backslash]
  else if (c <? 0x20) || is_high_surrogate c || is_low_surrogate c
       then unicode_escape c
  else [c].

(** The code points of the string, one after the other: a high surrogate
    with the low surrogate after it is one code point and is copied, a lone
    surrogate is escaped. *)
Fixpoint quote_body (s : jsstring) : jsstring :=
  match s with
  | [] => []
  | c :: s' =>
      if is_high_surrogate c then
        match s' with
        | d :: s'' =>
            if is_low_surrogate d then c :: d :: quote_body s''
            else unicode_escape c ++ quote_body s'
        | [] => unicode_escape c
        end
      else quote_unit c ++ quote_body s'
  end.

Definition QuoteJSONString (s : jsstring) : jsstring :=
  [quote] ++ quote_body s ++ [quote].

Fixpoint uint_digits (d : Decimal.uint) : jsstring :=
  match d with
  | Decimal.Nil => []
  | Decimal.D0 d => 0x30 :: uint_digits d
  | Decimal.D1 d => 0x31 :: uint_digits d
  | Decimal.D2 d => 0x32 :: uint_digits d
  | Decimal.D3 d => 0x33 :: uint_digits d
  | Decimal.D4 d => 0x34 :: uint_digits d
  | Decimal.D5 d => 0x35 :: uint_digits d
  | Decimal.D6 d => 0x36 :: uint_digits d
  | Decimal.D7 d => 0x37 :: uint_digits d
  | Decimal.D8 d => 0x38 :: uint_digits d
  | Decimal.D9 d => 0x39 :: uint_digits d
  end.

Definition Z_to_string (z : Z) : jsstring :=
  (if (z <? 0)%Z then [0x2d] else []) ++ uint_digits (N.to_uint (Z.abs_N z)).

(** A numeral for the decimal [m * 10^e].  JavaScript prints the shortest
    numeral that reads back as the same binary64 number, which is not
    modelled. *)
Definition number_to_string (m e : Z) : jsstring :=
  Z_to_string m ++ (if (e =? 0)%Z then [] else 0x65 :: Z_to_string e).

(** [parts.join(sep)] *)
Fixpoint join (sep : jsstring) (parts : list jsstring) : jsstring :=
  match parts with
  | [] => []
  | [p] => p
  | p :: rest => p ++ sep ++ join sep rest
  end.

Definition gap : jsstring := lit "  ".

(** SerializeJSONProperty with a gap of two spaces; [indent] is the
    indentation of the line the value starts on. *)
Fixpoint stringify_value (indent : jsstring) (v : json) : jsstring :=
  match v with
  | JNull => lit "null"
  | JBool true => lit "true"
  | JBool false => lit "false"
  | JNumber m e => number_to_string m e
  | JString s => QuoteJSONString s
  | JArray items =>
      match items with
      | [] => lit "[]"
      | _ =>
          lit "[" ++ [LF] ++ (indent ++ gap)
          ++ join (lit "," ++ [LF] ++ (indent ++ gap))
                  (stringify_value (indent ++ gap) <$> items)
          ++ [LF] ++ indent ++ lit "]"
      end
  | JObject fields =>
      match fields with
      | [] => lit "{}"
      | _ =>
          lit "{" ++ [LF] ++ (indent ++ gap)
          ++ join (lit "," ++ [LF] ++ (indent ++ gap))
                  ((λ kv, match kv with
                          | (k, v) => QuoteJSONString k ++ lit ": "
                                      ++ stringify_value (indent ++ gap) v
                          end) <$> fields)
          ++ [LF] ++ indent ++ lit "}"
      end
  end.

Definition JSON_stringify (v : json) : jsstring := stringify_value [] v.

(** ** [JSON.parse(text)] *)

Definition is_json_ws (c : N) : bool :=
  (c =? 0x09) || (c =? 0x0a) || (c =? 0x0d) || (c =? 0x20).

Fixpoint skip_ws (s : jsstring) : jsstring :=
  match s with
  | c :: s' => if is_json_ws c then skip_ws s' else s
  | [] => []
  end.

Definition hex_value (c : N) : option N :=
  if is_digit c then Some (c - 0x30)
  else if (0x61 <=? c) && (c <=? 0x66) then Some (c - 0x61 + 10)
  else if (0x41 <=? c) && (c <=? 0x46) then Some (c - 0x41 + 10)
  else None.

Definition hex4 (h1 h2 h3 h4 : N) : option N :=
  match hex_value h1, hex_value h2, hex_value h3, hex_value h4 with
  | Some a, Some b, Some c, Some d => Some (((a * 16 + b) * 16 + c) * 16 + d)
  | _, _, _, _ => None
  end.

(** The code unit a one-letter escape stands for. *)
Definition unescape (e : N) : option N :=
  if e =? quote then Some quote
  else if e =? backslash then Some backslash
  else if e =? 0x2f then Some 0x2f
  else if e =? 0x62 then Some 0x08
  else if e =? 0x66 then Some 0x0c
  else if e =? 0x6e then Some 0x0a
  else if e =? 0x72 then Some 0x0d
  else if e =? 0x74 then Some 0x09
  else None.

Definition prepend (c : N) (r : option (jsstring * jsstring))
  : option (jsstring * jsstring) :=
  match r with
  | Some (s, rest) => Some (c :: s, rest)
  | None => None
  end.

(** The characters of a string after its opening quote, up to the closing
    quote; the result is the string and the text after it. *)
Fixpoint parse_string_chars (s : jsstring) : option (jsstring * jsstring) :=
  match s with
  | [] => None
  | c :: s' =>
      if c =? quote then Some ([], s')
      else if c =? backslash then
        match s' with
        | [] => None
        | e :: s'' =>
            match unescape e with
            | Some d => prepend d (parse_string_chars s'')
            | None =>
                if e =? 0x75 then
                  match s'' with
                  | h1 :: h2 :: h3 :: h4 :: s4 =>
                      match hex4 h1 h2 h3 h4 with
                      | Some d => prepend d (parse_string_chars s4)
                      | None => None
                      end
                  | _ => None
                  end
                else None
            end
        end
      else if c <? 0x20 then None
      else prepend c (parse_string_chars s')
  end.

(** The longest prefix of digits, as their number and how many they are. *)
Fixpoint span_digits (acc : N) (n : nat) (s : jsstring) : N * nat * jsstring :=
  match s with
  | c :: s' => if is_digit c then span_digits (10 * acc + (c - 0x30)) (S n) s'
               else (acc, n, s)
  | [] => (acc, n, [])
  end.

(** [int frac? exp?] after an optional minus sign. *)
Definition parse_number_unsigned (s : jsstring) : option (Z * Z * jsstring) :=
  match s with
  | [] => None
  | c :: s' =>
      if negb (is_digit c) then None else
      let '(i, _, r) := if c =? 0x30 then (0, 1%nat, s') else span_digits 0 0 s in
      let frac :=
        match r with
        | d :: r' =>
            if d =? 0x2e then
              let '(m, n, r2) := span_digits i 0 r' in
              match n with O => None | _ => Some (m, n, r2) end
            else Some (i, 0%nat, r)
        | [] => Some (i, 0%nat, r)
        end in
      match frac with
      | None => None
      | Some (m, n, r2) =>
          match r2 with
          | x :: r3 =>
              if (x =? 0x65) || (x =? 0x45) then
                let '(neg, r4) :=
                  match r3 with
                  | sg :: r4 => if sg =? 0x2d then (true, r4)
                                else if sg =? 0x2b then (false, r4)
                                else (false, r3)
                  | [] => (false, r3)
                  end in
                let '(ex, k, r5) := span_digits 0 0 r4 in
                match k with
                | O => None
                | _ => Some (Z.of_N m,
                             ((if neg then - Z.of_N ex else Z.of_N ex)
                              - Z.of_nat n)%Z, r5)
                end
              else Some (Z.of_N m, (- Z.of_nat n)%Z, r2)
          | [] => Some (Z.of_N m, (- Z.of_nat n)%Z, r2)
          end
      end
  end.

Definition parse_number (s : jsstring) : option (json * jsstring) :=
  match s with
  | c :: s' =>
      if c =? 0x2d then
        match parse_number_unsigned s' with
        | Some (m, e, r) => Some (JNumber (- m) e, r)
        | None => None
        end
      else
        match parse_number_unsigned s with
        | Some (m, e, r) => Some (JNumber m e, r)
        | None => None
        end
  | [] => None
  end.

(** The text starts with the given word. *)
Fixpoint strip_prefix (word s : jsstring) : option jsstring :=
  match word, s with
  | [], _ => Some s
  | w :: word', c :: s' => if w =? c then strip_prefix word' s' else None
  | _ :: _, [] => None
  end.

(** The object whose members were read in this order: a later member with
    the key of an earlier one takes its place. *)
Definition object_of_members (members : list (jsstring * json)) : obj :=
  foldl (λ o kv, obj_set o kv.1 kv.2) [] members.

(** A value, the elements of an array after its opening bracket, and the
    members of an object after its opening brace.  Each gives what it read
    and the text after it.  The recursion is on [fuel], an upper bound on
    the depth of the calls. *)
Fixpoint parse_value (fuel : nat) (s : jsstring) : option (json * jsstring) :=
  match fuel with
  | O => None
  | S fuel' =>
      match skip_ws s with
      | [] => None
      | c :: s' =>
          if c =? 0x7b then
            match skip_ws s' with
            | d :: s'' =>
                if d =? 0x7d then Some (JObject [], s'')
                else match parse_members fuel' s' with
                     | Some (members, r) =>
                         Some (JObject (object_of_members members), r)
                     | None => None
                     end
            | [] => None
            end
          else if c =? 0x5b then
            match skip_ws s' with
            | d :: s'' =>
                if d =? 0x5d then Some (JArray [], s'')
                else match parse_elements fuel' s' with
                     | Some (items, r) => Some (JArray items, r)
                     | None => None
                     end
            | [] => None
            end
          else if c =? quote then
            match parse_string_chars s' with
            | Some (str, r) => Some (JString str, r)
            | None => None
            end
          else if c =? 0x74 then
            match strip_prefix (lit "rue") s' with
            | Some r => Some (JBool true, r)
            | None => None
            end
          else if c =? 0x66 then
            match strip_prefix (lit "alse") s' with
            | Some r => Some (JBool false, r)
            | None => None
            end
          else if c =? 0x6e then
            match strip_prefix (lit "ull") s' with
            | Some r => Some (JNull, r)
            | None => None
            end
          else parse_number (c :: s')
      end
  end
with parse_elements (fuel : nat) (s : jsstring)
  : option (list json * jsstring) :=
  match fuel with
  | O => None
  | S fuel' =>
      match parse_value fuel' s with
      | Some (v, r) =>
          match skip_ws r with
          | c :: r' =>
              if c =? 0x2c then
                match parse_elements fuel' r' with
                | Some (vs, r'') => Some (v :: vs, r'')
                | None => None
                end
              else if c =? 0x5d then Some ([v], r')
              else None
          | [] => None
          end
      | None => None
      end
  end
with parse_members (fuel : nat) (s : jsstring)
  : option (list (jsstring * json) * jsstring) :=
  match fuel with
  | O => None
  | S fuel' =>
      match skip_ws s with
      | c :: s' =>
          if c =? quote then
            match parse_string_chars s' with
            | Some (k, r) =>
                match skip_ws r with
                | d :: r' =>
                    if d =? 0x3a then
                      match parse_value fuel' r' with
                      | Some (v, r2) =>
                          match skip_ws r2 with
                          | e :: r3 =>
                              if e =? 0x2c then
                                match parse_members fuel' r3 with
                                | Some (kvs, r4) => Some ((k, v) :: kvs, r4)
                                | None => None
                                end
                              else if e =? 0x7d then Some ([(k, v)], r3)
                              else None
                          | [] => None
                          end
                      | None => None
                      end
                    else None
                | [] => None
                end
            | None => None
            end
          else None
      | [] => None
      end
  end.

(** [JSON.parse(text)]: one value with white space around it; [None] is the
    [SyntaxError]. *)
Definition JSON_parse (text : jsstring) : option json :=
  match parse_value (2 * length text + 1) text with
  | Some (v, r) => match skip_ws r with [] => Some v | _ => None end
  | None => None
  end.

(** A JSON text of the examples, written with apostrophes for the double
    quotes. *)
Definition json_text (s : string) : jsstring :=
  (λ c, if c =? apostrophe then quote else c) <$> lit s.

(** ** Deck import and export *)

(** Errors the engine throws, with messages of its own wording. *)
Inductive engine_error :=
| JSON_SyntaxError (text : jsstring)
| TypeError_property_of_null (k : jsstring).

(** What a [try] block ends with: the value thrown, or a result. *)
Notation "'let!' x ':=' e 'in' k" :=
  (match e with inl err => inl err | inr x => k end)
  (at level 10, x pattern, e at level 100, k at level 200,
   format "'[v' 'let!'  x  ':='  e  'in' '/' k ']'").

(** What the file input reports: no file chosen, the reader failed, or the
    reader loaded; [result] is the text read, or [None] when the result is
    no string. *)
Inductive file_event :=
| NoFileSelected
| FileReadFailed
| FileLoaded (result : option jsstring).

(** How [fetch] settles. *)
Inductive fetch_result :=
| FetchRejected (e : thrown)
| FetchResponse (ok : bool) (statusText body : jsstring).

Definition Array_isArray (v : json) : bool :=
  match v with JArray _ => true | _ => false end.

Definition elements (v : json) : list json :=
  match v with JArray items => items | _ => [] end.

(** [typeof v === 'undefined'] *)
Definition is_undefined (v : option json) : bool :=
  match v with None => true | Some _ => false end.

(** The objects among the values.  The handlers store an imported array
    only after they have checked that each element has an [id] and a
    [text], which only objects have: nothing is dropped there. *)
Definition objects_of (items : list json) : list obj :=
  omap (λ v, match v with JObject o => Some o | _ => None end) items.

Section Deck.

Variable engine_message : engine_error → jsstring.

Definition JSON_parse_or_throw (text : jsstring) : thrown + json :=
  match JSON_parse text with
  | Some v => inr v
  | None => inl (ErrorObject (engine_message (JSON_SyntaxError text)))
  end.

(** [item.k] for a key [k] that no prototype defines and that is no index
    or length, as are [id] and [text]: an own property of an object,
    [undefined] on an array, a string, a number and a boolean, and a
    [TypeError] on [null]. *)
Definition get_property (item : json) (k : jsstring) : thrown + option json :=
  match item with
  | JNull => inl (ErrorObject (engine_message (TypeError_property_of_null k)))
  | JObject fields => inr (get fields k)
  | _ => inr None
  end.

(** [items.some(item => typeof item.id === 'undefined' ||
    typeof item.text === 'undefined')] *)
Fixpoint some_id_or_text_undefined (items : list json) : thrown + bool :=
  match items with
  | [] => inr false
  | item :: rest =>
      let! id := get_property item (lit "id") in
      if is_undefined id then inr true else
      let! text := get_property item (lit "text") in
      if is_undefined text then inr true else
      some_id_or_text_undefined rest
  end.

(** The check both handlers make before they store what was imported. *)
Definition check_imported (message : jsstring) (importedData : json)
  : thrown + json :=
  let! invalid :=
    (if negb (Array_isArray importedData) then inr true
     else some_id_or_text_undefined (elements importedData)) in
  if (invalid : bool) then inl (ErrorObject message) else inr importedData.

Definition handleExport (st : AppState) : AppState * option jsstring :=
  match flashcards st with
  | [] => (setError (Some (lit "There are no flashcards to export.")) st, None)
  | _ => (st, Some (JSON_stringify (JArray (JObject <$> flashcards st))))
  end.

(** The [onload] callback of the reader. *)
Definition handleImport_onload (result : option jsstring) (st : AppState)
  : AppState :=
  let attempt : thrown + json :=
    match result with
    | None => inl (ErrorObject (lit "File could not be read properly."))
    | Some text =>
        let! importedData := JSON_parse_or_throw text in
        check_imported
          (lit "Invalid JSON structure. Expected an array of flashcard items.")
          importedData
    end in
  match attempt with
  | inr importedData =>
      setError None
        (setFlashcards (λ _, objects_of (elements importedData)) st)
  | inl err =>
      setError
        (Some (lit "Failed to import file. Please ensure it's a valid JSON. Error: "
               ++ errorMessage err)) st
  end.

Definition handleImport (ev : file_event) (st : AppState) : AppState :=
  match ev with
  | NoFileSelected => st
  | FileReadFailed => setError (Some (lit "Failed to read the selected file.")) st
  | FileLoaded result => handleImport_onload result st
  end.

Definition handleImportFromUrl (fetch : jsstring → fetch_result)
    (st : AppState) : AppState :=
  if bool_decide (importUrl st = []) then
    setError (Some (lit "Please enter a URL to import.")) st
  else
    let st := setIsImportingUrl true st in
    let st := setError None st in
    let attempt : thrown + json :=
      match fetch (importUrl st) with
      | FetchRejected e => inl e
      | FetchResponse ok statusText body =>
          if negb ok then
            inl (ErrorObject (lit "Failed to fetch from URL: " ++ statusText))
          else
            let! importedData := JSON_parse_or_throw body in
            check_imported
              (lit "Invalid JSON structure from URL. Expected an array of flashcard items.")
              importedData
      end in
    let st :=
      match attempt with
      | inr importedData =>
          setImportUrl []
            (setFlashcards (λ _, objects_of (elements importedData)) st)
      | inl err =>
          setError
            (Some (lit "Failed to import from URL. Please ensure it's a valid JSON link. Error: "
                   ++ errorMessage err)) st
      end in
    setIsImportingUrl false st.

End Deck.

(** Messages in the wording of one engine, to run the handlers. *)
Definition v8_message (e : engine_error) : jsstring :=
  match e with
  | JSON_SyntaxError _ => lit "Unexpected token in JSON"
  | TypeError_property_of_null k =>
      lit "Cannot read properties of null (reading '" ++ k ++ lit "')"
  end.

(** *** What the specification says of an import *)

(** The element carries the field. *)
Definition has_field (k : jsstring) (item : json) : Prop :=
  ∃ fields v, item = JObject fields ∧ get fields k = Some v.

(** The element carries the field, and it is a string. *)
Definition has_string_field (k : jsstring) (item : json) : Prop :=
  ∃ fields s, item = JObject fields ∧ get fields k = Some (JString s).

(** The element has defined [id] and [text] fields. *)
Definition fields_defined (item : json) : Prop :=
  has_field (lit "id") item ∧ has_field (lit "text") item.

(** An array where every element has defined [id] and [text] fields. *)
Definition valid_deck (v : json) : Prop :=
  ∃ items, v = JArray items ∧ Forall fields_defined items.

(** The import replaced the collection by [items] and shows no error. *)
Definition replaced_by (items : list json) (st' : AppState) : Prop :=
  JObject <$> flashcards st' = items ∧ error st' = None.

(** The import left the collection of [st] and shows an error. *)
Definition rejected (st st' : AppState) : Prop :=
  flashcards st' = flashcards st ∧ is_Some (error st').

(** What importing the text must do to the state [st], giving [st']. *)
Definition import_effect (text : jsstring) (st st' : AppState) : Prop :=
  (∀ items, JSON_parse text = Some (JArray items) →
            valid_deck (JArray items) → replaced_by items st') ∧
  ((∀ v, JSON_parse text = Some v → ¬ valid_deck v) → rejected st st').

Definition empty_state : AppState :=
  {| flashcards := []; error := None; importUrl := []; isImportingUrl := false |}.

Definition state_of (cards : list FlashcardItem) : AppState :=
  {| flashcards := obj_of_FlashcardItem <$> cards; error := None;
     importUrl := []; isImportingUrl := false |}.

(** *** Values that are printed and read back as they are *)

(** No number, and objects whose keys are distinct and no array indices:
    such are the values of a [FlashcardItem]. *)
#[local] Unset Elimination Schemes.

Inductive plain : json → Prop :=
| plain_null : plain JNull
| plain_bool b : plain (JBool b)
| plain_string s : plain (JString s)
| plain_array items : Forall plain items → plain (JArray items)
| plain_object fields :
    NoDup fields.*1 →
    Forall (λ k, array_index k = None) fields.*1 →
    Forall (λ kv, plain kv.2) fields →
    plain (JObject fields).

#[local] Set Elimination Schemes.

(** A deck with an element that lacks [text], and a deck whose [id] and
    [text] are no strings. *)
Definition deck_without_text : jsstring := json_text "[{'id':'a'}]".

Definition deck_without_strings : jsstring :=
  json_text "[{'id': 7, 'text': null}]".

Definition url_state (cards : list FlashcardItem) : AppState :=
  setImportUrl (lit "https://example.org/deck.json") (state_of cards).

Definition fetch_ok (body : jsstring) (url : jsstring) : fetch_result :=
  FetchResponse true (lit "OK") body.

(** *** What the specification says of a store mutation *)

(** The card is the one a mutation for [id] is aimed at. *)
Definition targeted (id : jsstring) (card : obj) : Prop :=
  get card (lit "id") = Some (JString id).

(** Only the targeted items change: the collection keeps its length, an
    item that is not targeted is the same value, and a targeted item takes
    the properties [sets] and keeps all its others. *)
Definition only_target_changes (id : jsstring)
    (mutation : list obj → list obj) (sets : list (jsstring * json)) : Prop :=
  ∀ prev,
    length (mutation prev) = length prev ∧
    ∀ i card, prev !! i = Some card →
      ∃ card', mutation prev !! i = Some card' ∧
        (¬ targeted id card → card' = card) ∧
        (targeted id card →
           (∀ k v, (k, v) ∈ sets → get card' k = Some v) ∧
           (∀ k, k ∉ sets.*1 → get card' k = get card k)).

(** The prompts of the calls that started. *)
Definition started (evs : list event) : list jsstring :=
  omap (λ ev, match ev with CallStarted p => Some p | CallSettled _ => None end) evs.

(** A card that [handleGenerateAll] generates an image for. *)
Definition lacks_image_and_not_loading (card : obj) : bool :=
  falsy (get card (lit "imageUrl")) && falsy (get card (lit "isLoading")).

Definition loading (card : obj) : Prop :=
  get card (lit "isLoading") = Some (JBool true).

(** The card has the strings [FlashcardItem] declares for [id] and [text]. *)
Definition has_string_id_and_text (card : obj) : Prop :=
  ∃ i t, get card (lit "id") = Some (JString i) ∧
         get card (lit "text") = Some (JString t).

(** The text of a card, where it is a string. *)
Definition card_text (card : obj) : jsstring :=
  default [] (string_argument (get card (lit "text"))).

(** Calls made one after the other: each has settled when the next
    starts. *)
Inductive sequential : list event → Prop :=
| sequential_nil : sequential []
| sequential_call p o evs :
    sequential evs → sequential (CallStarted p :: CallSettled o :: evs).

(** An image service that resolves every call, and a deck of one card that
    is loading. *)
Definition always_resolves (p : jsstring) (w : unit) : outcome * unit :=
  (Resolved (lit "data:image/png;base64,AAAA"), w).

Definition always_rejects (p : jsstring) (w : unit) : outcome * unit :=
  (Rejected (ErrorObject (lit "quota exceeded")), w).

Definition card_cat_loading : FlashcardItem :=
  {| id := lit "audio/cat.mp3"; text := lit "Cat"; audioUrl := lit "audio/cat.mp3";
     imageUrl := None; isLoading := true |}.

Definition card_dog : FlashcardItem :=
  {| id := lit "audio/dog.mp3"; text := lit "Dog"; audioUrl := lit "audio/dog.mp3";
     imageUrl := None; isLoading := false |}.

Definition system_of (cards : list FlashcardItem) : System unit :=
  {| app := {| flashcards := obj_of_FlashcardItem <$> cards; error := None;
               importUrl := []; isImportingUrl := false |};
     world := (); trace := [] |}.

(** ** Practice: the speech capture of a card *)

(** The state hooks of [Card] and its reference to the recognition object.
    Recognition objects are numbered in the order they are made;
    [sessions] counts them. *)
Record PracticeState := {
  isRecording : bool;
  userTranscript : option jsstring;
  comparisonResult : option (list ComparisonResult);
  practiceError : option jsstring;
  recognitionRef : option nat;
  sessions : nat
}.

(** What the card asks of the platform: [recognition.start()] on a new
    object with its settings, and [recognition.stop()]. *)
Inductive recognition_command :=
| RecognitionStart (session : nat) (lang : jsstring)
                   (continuous interimResults : bool)
| RecognitionStop (session : nat).

(** What happens to the card: a click on the practice button, and the
    callbacks of a recognition object.  A callback closes over the [item]
    of the render that made it: [text] is that [item.text], and
    [transcript] is [event.results[0][0].transcript]. *)
Inductive practice_event :=
| PracticeClick (text : jsstring)
| RecognitionOnStart
| RecognitionOnResult (text transcript : jsstring)
| RecognitionOnError (error : jsstring)
| RecognitionOnEnd.

Definition idle_practice : PracticeState :=
  {| isRecording := false; userTranscript := None; comparisonResult := None;
     practiceError := None; recognitionRef := None; sessions := 0 |}.

Section Practice.

Variable toLowerCase : jsstring → jsstring.

(** [window.SpeechRecognition || window.webkitSpeechRecognition] is there. *)
Variable isSpeechRecognitionSupported : bool.

Definition handlePracticeClick (text : jsstring) (st : PracticeState)
  : PracticeState * list recognition_command :=
  if negb isSpeechRecognitionSupported then
    ({| isRecording := isRecording st; userTranscript := userTranscript st;
        comparisonResult := comparisonResult st;
        practiceError :=
          Some (lit "Speech recognition is not supported in this browser.");
        recognitionRef := recognitionRef st; sessions := sessions st |}, [])
  else if isRecording st then
    (st, match recognitionRef st with
         | Some session => [RecognitionStop session]
         | None => []
         end)
  else
    ({| isRecording := isRecording st; userTranscript := None;
        comparisonResult := None; practiceError := None;
        recognitionRef := Some (sessions st); sessions := S (sessions st) |},
     [RecognitionStart (sessions st) (lit "en-US") false false]).

(** [recognition.onstart] *)
Definition recognition_onstart (st : PracticeState) : PracticeState :=
  {| isRecording := true; userTranscript := userTranscript st;
     comparisonResult := comparisonResult st; practiceError := practiceError st;
     recognitionRef := recognitionRef st; sessions := sessions st |}.

(** [recognition.onresult] *)
Definition recognition_onresult (text transcript : jsstring)
    (st : PracticeState) : PracticeState :=
  {| isRecording := isRecording st; userTranscript := Some transcript;
     comparisonResult :=
       Some (comparePronunciation toLowerCase text transcript);
     practiceError := practiceError st;
     recognitionRef := recognitionRef st; sessions := sessions st |}.

(** The message [recognition.onerror] shows for an error code. *)
Definition practice_error_message (error : jsstring) : jsstring :=
  if bool_decide (error = lit "not-allowed")
     || bool_decide (error = lit "permission-denied")
  then lit "Microphone access denied. Please enable it in browser settings."
  else if bool_decide (error = lit "no-speech")
  then lit "No speech was detected. Please try again."
  else lit "Error: " ++ error.

(** [recognition.onerror] *)
Definition recognition_onerror (error : jsstring) (st : PracticeState)
  : PracticeState :=
  {| isRecording := isRecording st; userTranscript := userTranscript st;
     comparisonResult := comparisonResult st;
     practiceError := Some (practice_error_message error);
     recognitionRef := recognitionRef st; sessions := sessions st |}.

(** [recognition.onend] *)
Definition recognition_onend (st : PracticeState) : PracticeState :=
  {| isRecording := false; userTranscript := userTranscript st;
     comparisonResult := comparisonResult st; practiceError := practiceError st;
     recognitionRef := None; sessions := sessions st |}.

Definition practice_step (ev : practice_event) (st : PracticeState)
  : PracticeState * list recognition_command :=
  match ev with
  | PracticeClick text => handlePracticeClick text st
  | RecognitionOnStart => (recognition_onstart st, [])
  | RecognitionOnResult text transcript =>
      (recognition_onresult text transcript st, [])
  | RecognitionOnError error => (recognition_onerror error st, [])
  | RecognitionOnEnd => (recognition_onend st, [])
  end.

(** The events one after the other; the commands are gathered in order. *)
Fixpoint practice_run (evs : list practice_event) (st : PracticeState)
  : PracticeState * list recognition_command :=
  match evs with
  | [] => (st, [])
  | ev :: evs' =>
      let (st1, cmds1) := practice_step ev st in
      let (st2, cmds2) := practice_run evs' st1 in
      (st2, cmds1 ++ cmds2)
  end.

End Practice.

(** What the card shows under its buttons. *)
Inductive practice_panel :=
| PanelHidden
| PanelEmpty
| PanelError (message : jsstring)
| PanelAttempt (transcript : option jsstring) (result : list ComparisonResult).

Definition truthy_string (s : option jsstring) : bool :=
  match s with
  | Some (_ :: _) => true
  | _ => false
  end.

(** [(userTranscript || practiceError || comparisonResult) && ...] with
    [practiceError ? ... : comparisonResult && ...] inside: an empty string
    is falsy, an array is truthy even when empty. *)
Definition render_practice_panel (st : PracticeState) : practice_panel :=
  if truthy_string (userTranscript st) || truthy_string (practiceError st)
     || bool_decide (is_Some (comparisonResult st))
  then
    match practiceError st with
    | Some (c :: m) => PanelError (c :: m)
    | _ =>
        match comparisonResult st with
        | Some result => PanelAttempt (userTranscript st) result
        | None => PanelEmpty
        end
    end
  else PanelHidden.

(** [disabled={item.isLoading || !isSpeechRecognitionSupported}] of the
    practice button. *)
Definition practice_button_disabled (supported : bool) (item : obj) : bool :=
  negb (falsy (get item (lit "isLoading"))) || negb supported.

(** The transcript and the result go together: both absent, or the result
    is the comparison of some card text with the transcript. *)
Definition transcript_and_result (toLowerCase : jsstring → jsstring)
    (st : PracticeState) : Prop :=
  (userTranscript st = None ∧ comparisonResult st = None) ∨
  ∃ text transcript,
    userTranscript st = Some transcript ∧
    comparisonResult st
    = Some (comparePronunciation toLowerCase text transcript).

Definition is_click (ev : practice_event) : Prop :=
  match ev with PracticeClick _ => True | _ => False end.

(** ** The generate button of a card *)

Section GenerateClick.

Variable World : Type.
Variable generateImageFromPrompt : jsstring → World → outcome * World.

(** [handleGenerateClick] of [Card], with [onGenerateImage] the
    [handleGenerateImage] of [App].  As for the loop of
    [handleGenerateAll], an [id] or [text] that is no string is not
    modelled. *)
Definition handleGenerateClick (item : obj) (sys : System World)
  : option (System World) :=
  if falsy (get item (lit "isLoading")) && falsy (get item (lit "imageUrl"))
  then
    match string_argument (get item (lit "id")),
          string_argument (get item (lit "text")) with
    | Some id, Some text =>
        Some (handleGenerateImage World generateImageFromPrompt id text sys)
    | _, _ => None
    end
  else Some sys.

End GenerateClick.



(** A click on the generate button of the card at [k]: the button is
    rendered with the item the collection holds there when it is clicked. *)
Definition click_button (World : Type)
    (generateImageFromPrompt : jsstring → World → outcome * World)
    (k : nat) (sys : System World) : option (System World) :=
  match flashcards (app sys) !! k with
  | Some item => handleGenerateClick World generateImageFromPrompt item sys
  | None => Some sys
  end.

(** Clicking the buttons of [n] cards from the one at [k] on, one after the
    other, each when the generation of the click before has settled. *)
Fixpoint click_from (World : Type)
    (generateImageFromPrompt : jsstring → World → outcome * World)
    (k n : nat) (sys : System World) : option (System World) :=
  match n with
  | O => Some sys
  | S n' =>
      match click_button World generateImageFromPrompt k sys with
      | Some sys' => click_from World generateImageFromPrompt (S k) n' sys'
      | None => None
      end
  end.

Definition click_each (World : Type)
    (generateImageFromPrompt : jsstring → World → outcome * World)
    (sys : System World) : option (System World) :=
  click_from World generateImageFromPrompt 0 (length (flashcards (app sys))) sys.


(** The image service resolves every call, with a URL that is not empty. *)
Definition always_resolving {World : Type}
    (generateImageFromPrompt : jsstring → World → outcome * World) : Prop :=
  ∀ p w, ∃ url w', generateImageFromPrompt p w = (Resolved url, w') ∧ url ≠ [].

(** The image service rejects every call. *)
Definition always_rejecting {World : Type}
    (generateImageFromPrompt : jsstring → World → outcome * World) : Prop :=
  ∀ p w, ∃ e w', generateImageFromPrompt p w = (Rejected e, w').

(** A card bulk generation passes over. *)
Definition has_image_or_loads (card : obj) : Prop :=
  lacks_image_and_not_loading card = false.

(** Every card of the collection is an object with [id] and [text]. *)
Definition deck_invariant (st : AppState) : Prop :=
  Forall (λ card, fields_defined (JObject card)) (flashcards st).

(** A response that is not ok, with a deck as its body. *)
Definition fetch_not_found (url : jsstring) : fetch_result :=
  FetchResponse false (lit "Not Found") (json_text "[{'id':'a','text':'A'}]").

(** ** The first deck *)

(** [s.split('/')], and [.pop() || ''] of it: what follows the last
    slash. *)
Fixpoint split_slash (s : jsstring) : list jsstring :=
  match s with
  | [] => [[]]
  | c :: s' =>
      if c =? 0x2f then [] :: split_slash s'
      else match split_slash s' with
           | w :: rest => (c :: w) :: rest
           | [] => [[c]]
           end
  end.

Definition pop_or_empty (parts : list jsstring) : jsstring :=
  default [] (last parts).

(** [s.replace(/\.mp3$/, '')] *)
Definition strip_mp3 (s : jsstring) : jsstring :=
  let n := (length s - 4)%nat in
  if bool_decide (drop n s = lit ".mp3") then take n s else s.

(** [s.replace(/%20/g, ' ')] *)
Fixpoint replace_percent20 (s : jsstring) : jsstring :=
  match s with
  | [] => []
  | c :: s1 =>
      match s1 with
      | c2 :: c3 :: s3 =>
          if (c =? 0x25) && (c2 =? 0x32) && (c3 =? 0x30)
          then 0x20 :: replace_percent20 s3
          else c :: replace_percent20 s1
      | _ => c :: replace_percent20 s1
      end
  end.

(** [s.trim()]: the white space of [trim] is that of [\s]. *)
Fixpoint trimStart (s : jsstring) : jsstring :=
  match s with
  | c :: s' => if is_space c then trimStart s' else s
  | [] => []
  end.

Definition trim (s : jsstring) : jsstring :=
  reverse (trimStart (reverse (trimStart s))).

(** The effect [App] runs when it is mounted. [AUDIO_URLS] is a constant of
    a module of its own; [decodeURIComponent] throws on a malformed escape,
    and [toUpperCase] is the engine's. *)
Section FirstDeck.

Variable AUDIO_URLS : list jsstring.
Variable decodeURIComponent : jsstring → thrown + jsstring.
Variable toUpperCase : jsstring → jsstring.

Definition capitalize (text : jsstring) : jsstring :=
  toUpperCase (take 1 text) ++ drop 1 text.

Definition parse_url (url : jsstring) : thrown + FlashcardItem :=
  let filename := pop_or_empty (split_slash url) in
  let! decoded := decodeURIComponent filename in
  let text := trim (replace_percent20 (strip_mp3 decoded)) in
  inr {| id := url; text := capitalize text; audioUrl := url;
         imageUrl := None; isLoading := false |}.

Fixpoint map_parse_url (urls : list jsstring) : thrown + list FlashcardItem :=
  match urls with
  | [] => inr []
  | url :: rest =>
      let! card := parse_url url in
      let! cards := map_parse_url rest in
      inr (card :: cards)
  end.

Definition useEffect_mount (st : AppState) : thrown + AppState :=
  let! parsedFlashcards := map_parse_url AUDIO_URLS in
  inr (setFlashcards (λ _, obj_of_FlashcardItem <$> parsedFlashcards) st).

End FirstDeck.

(** Neither the first nor the last code unit is white space. *)
Definition trimmed (s : jsstring) : Prop :=
  (∀ c, head s = Some c → is_space c = false) ∧
  (∀ c, last s = Some c → is_space c = false).

(** A decoder for names without escapes, and an upper case for ASCII. *)
Definition decode_plain (s : jsstring) : thrown + jsstring :=
  if bool_decide (0x25 ∈ s) then inl (ErrorObject (lit "URI malformed"))
  else inr s.

Definition asciiUpperCase (s : jsstring) : jsstring :=
  (λ c, if (0x61 <=? c) && (c <=? 0x7a) then c - 0x20 else c) <$> s.

(** ** The event loop

    [handleGenerateImage] and [handleGenerateAll] are [async] functions: a
    call runs until it awaits a promise that has not settled, and goes on
    when it has; in between the loop is free for other handlers and for
    other calls of the image service.  The functions above give what a
    generation does from its start to its end; here a call of the image
    service starts at one time and settles at another. *)

(** What an [async] function does until it returns: it sets state, awaits
    the image service, awaits a call of another [async] function, or calls
    one and drops its promise, as the click handler of a card does. *)
Inductive async :=
| Return
| Set_state (setter : AppState → AppState) (next : async)
| Await_generateImageFromPrompt (prompt : jsstring) (next : outcome → async)
| Await_async (callee next : async)
| Call_async (callee next : async).

(** [handleGenerateImage] from the end of its [await]: the rest of the
    [try] block, or the [catch] block. *)
Definition handleGenerateImage_resume (id prompt : jsstring) (o : outcome)
  : async :=
  match o with
  | Resolved imageUrl =>
      Set_state (setFlashcards (store_image id imageUrl)) Return
  | Rejected err =>
      Set_state (setError (Some (lit "Failed to generate image for "
                                 ++ [quote] ++ prompt ++ [quote] ++ lit ". "
                                 ++ errorMessage err)))
        (Set_state (setFlashcards (clear_loading id)) Return)
  end.

Definition handleGenerateImage_async (id prompt : jsstring) : async :=
  Set_state (setFlashcards (mark_loading id))
    (Set_state (setError None)
       (Await_generateImageFromPrompt (fullPrompt prompt)
          (handleGenerateImage_resume id prompt))).

(** The loop of [handleGenerateAll] over the cards of the render that made
    the handler, each generation awaited; as above, [None] for a card to
    generate for whose [id] or [text] is no string. *)
Fixpoint handleGenerateAll_async_loop (cards : list obj) : option async :=
  match cards with
  | [] => Some Return
  | card :: rest =>
      match handleGenerateAll_async_loop rest with
      | Some next =>
          if falsy (get card (lit "imageUrl")) && falsy (get card (lit "isLoading"))
          then
            match string_argument (get card (lit "id")),
                  string_argument (get card (lit "text")) with
            | Some id, Some text =>
                Some (Await_async (handleGenerateImage_async id text) next)
            | _, _ => None
            end
          else Some next
      | None => None
      end
  end.

Definition handleGenerateAll_async (st : AppState) : option async :=
  handleGenerateAll_async_loop (flashcards st).

(** [handleGenerateClick] of [Card]: [onGenerateImage] is called and its
    promise dropped. *)
Definition handleGenerateClick_async (item : obj) : option async :=
  if falsy (get item (lit "isLoading")) && falsy (get item (lit "imageUrl"))
  then
    match string_argument (get item (lit "id")),
          string_argument (get item (lit "text")) with
    | Some id, Some text =>
        Some (Call_async (handleGenerateImage_async id text) Return)
    | _, _ => None
    end
  else Some Return.

(** The state of the application, the tasks that await a call of the image
    service, one for each call that has not settled and in the order the
    calls started, and what has been observed of the service. *)
Record EventLoop := {
  state : AppState;
  awaiting : list (outcome → async);
  calls : list event
}.

Definition idle (st : AppState) : EventLoop :=
  {| state := st; awaiting := []; calls := [] |}.

Definition park (next : outcome → async) (loop : EventLoop) : EventLoop :=
  {| state := state loop; awaiting := awaiting loop ++ [next];
     calls := calls loop |}.

(** A task runs until it returns or awaits the image service; what it then
    goes on with is handed back.  An [await] of a call that returned
    without awaiting the service goes on at once: no other handler runs
    before it does. *)
Fixpoint run_task (task : async) (loop : EventLoop)
  : EventLoop * option (outcome → async) :=
  match task with
  | Return => (loop, None)
  | Set_state setter next =>
      run_task next {| state := setter (state loop);
                       awaiting := awaiting loop; calls := calls loop |}
  | Await_generateImageFromPrompt prompt next =>
      ({| state := state loop; awaiting := awaiting loop;
          calls := calls loop ++ [CallStarted prompt] |}, Some next)
  | Await_async callee next =>
      match run_task callee loop with
      | (loop', Some resume) => (loop', Some (λ o, Await_async (resume o) next))
      | (loop', None) => run_task next loop'
      end
  | Call_async callee next =>
      match run_task callee loop with
      | (loop', Some resume) => run_task next (park resume loop')
      | (loop', None) => run_task next loop'
      end
  end.

(** A handler is called by the loop. *)
Definition launch (task : async) (loop : EventLoop) : EventLoop :=
  match run_task task loop with
  | (loop', Some resume) => park resume loop'
  | (loop', None) => loop'
  end.

(** The image service settles the call at [i] of those outstanding, and
    the task that awaits it goes on. *)
Definition settle (i : nat) (o : outcome) (loop : EventLoop)
  : option EventLoop :=
  match awaiting loop !! i with
  | Some resume =>
      Some (launch (resume o)
              {| state := state loop; awaiting := delete i (awaiting loop);
                 calls := calls loop ++ [CallSettled o] |})
  | None => None
  end.

Fixpoint settle_each (schedule : list (nat * outcome)) (loop : EventLoop)
  : option EventLoop :=
  match schedule with
  | [] => Some loop
  | (i, o) :: rest =>
      match settle i o loop with
      | Some loop' => settle_each rest loop'
      | None => None
      end
  end.

(** The first of the outstanding calls settles, time after time. *)
Definition in_turn (outcomes : list outcome) : list (nat * outcome) :=
  (λ o, (0%nat, o)) <$> outcomes.

(** A click on the generate button of the card at [k] of the collection as
    it is rendered. *)
Definition click_generate (k : nat) (loop : EventLoop) : option EventLoop :=
  match flashcards (state loop) !! k with
  | Some item =>
      match handleGenerateClick_async item with
      | Some task => Some (launch task loop)
      | None => None
      end
  | None => None
  end.

(** The prompts of the calls bulk generation is to make for a collection. *)
Definition prompts_due (cards : list obj) : list jsstring :=
  (λ card, fullPrompt (card_text card))
    <$> filter (λ card, lacks_image_and_not_loading card = true) cards.

(** An image service that settles its calls as a list says, and the
    system in which it is to settle the calls of a loop. *)
Definition scripted (p : jsstring) (w : list outcome)
  : outcome * list outcome :=
  match w with
  | o :: w' => (o, w')
  | [] => (Rejected OtherValue, [])
  end.

Definition system_at (loop : EventLoop) (w : list outcome)
  : System (list outcome) :=
  {| app := state loop; world := w; trace := calls loop |}.

Definition card_sun : FlashcardItem :=
  {| id := lit "audio/sun.mp3"; text := lit "Sun"; audioUrl := lit "audio/sun.mp3";
     imageUrl := None; isLoading := false |}.

(** ** Notions the proofs use *)

(** A code unit that is no white space of [\s]. *)
Definition nonspace (c : N) : Prop := is_space c = false.

#[global] Instance nonspace_dec c : Decision (nonspace c).
Proof. unfold nonspace. apply _. Defined.

(** White space of JSON texts. *)
Definition json_ws (w : jsstring) : Prop := Forall (λ c, is_json_ws c = true) w.

(** The first code unit of a printed value is no white space and opens
    the value. *)
Definition opens_value (s : jsstring) : Prop :=
  ∃ c tl, s = c :: tl ∧ is_json_ws c = false ∧ c ≠ 0x5d ∧ c ≠ 0x7d.

(** The value is read back from its text, with any text after it, by a
    parser that has enough fuel. *)
Definition reads_back (v : json) : Prop :=
  ∀ indent rest, json_ws indent →
    ∃ n, ∀ fuel, (n ≤ fuel)%nat →
      parse_value fuel (stringify_value indent v ++ rest) = Some (v, rest).

(** [test] holds of the [n] code units from [c] on. *)
Fixpoint all_below (test : N → bool) (n : nat) (c : N) : bool :=
  match n with
  | O => true
  | S n' => test c && all_below test n' (c + 1)
  end.

(** The escape written for [c] is read back as [c]. *)
Definition escape_reads_back (c : N) : bool :=
  match unicode_escape c with
  | [_; _; h1; h2; h3; h4] => bool_decide (hex4 h1 h2 h3 h4 = Some c)
  | _ => false
  end.



(** * Facts about the string primitives *)

Lemma filter_nonspace_id s : Forall nonspace s → filter nonspace s = s.
Proof.
  induction 1 as [|x s Hx _ IH]; [done|].
  rewrite filter_cons_True by done. by f_equal.
Qed.

(** What the separator consumed before does not show once the empty
    strings are filtered out. *)
Lemma filter_split_ws_go b s :
  filter Boolean (split_ws_go b s) = filter Boolean (split_ws_go false s).
Proof.
  destruct s as [|c s]; simpl; [done|].
  destruct (is_space c); [|done].
  destruct b; [|done].
  rewrite filter_cons_False; [done | unfold Boolean; tauto].
Qed.

Lemma words_nil : words [] = [].
Proof. reflexivity. Qed.

(** Splitting on runs of white space and splitting at each white-space
    code unit differ in empty tokens only. *)
Lemma split_ws_go_each s :
  (∃ h t t', split_ws_go false s = h :: t ∧ split_each_space s = h :: t' ∧
             filter Boolean t = filter Boolean t') ∧
  filter Boolean (split_ws_go true s) = filter Boolean (split_each_space s).
Proof.
  induction s as [|c s [(h & t & t' & Hgo & Heach & Hfilter) IHtrue]].
  { split; [by exists [], [], [] | done]. }
  assert (Hall : filter Boolean (split_ws_go false s)
                 = filter Boolean (split_each_space s)).
  { rewrite Hgo, Heach. destruct (decide (h = [])) as [->|Hne].
    - by rewrite !filter_cons_False by (unfold Boolean; tauto).
    - rewrite !filter_cons_True by done. by f_equal. }
  simpl. destruct (is_space c).
  - split.
    + exists [], (split_ws_go true s), (split_each_space s). done.
    + rewrite IHtrue. by rewrite filter_cons_False by (unfold Boolean; tauto).
  - rewrite Hgo, Heach. split.
    + by exists (c :: h), t, t'.
    + rewrite !filter_cons_True by done. by f_equal.
Qed.

Lemma words_display_words_spec s : words s = display_words_spec s.
Proof.
  unfold words, display_words_spec, split_ws.
  destruct (split_ws_go_each s) as [(h & t & t' & -> & -> & Hfilter) _].
  destruct (decide (h = [])) as [->|Hne].
  - by rewrite !filter_cons_False by (unfold Boolean; tauto).
  - rewrite !filter_cons_True by done. by f_equal.
Qed.

(** A run of code units that are no white space is one word. *)
Lemma split_ws_nonspace s : Forall nonspace s → split_ws s = [s].
Proof.
  unfold split_ws. induction 1 as [|c s Hc _ IH]; simpl; [done|].
  rewrite Hc, IH. done.
Qed.

Lemma words_nonspace s :
  Forall nonspace s → words s = if decide (s = []) then [] else [s].
Proof.
  intros H. unfold words. rewrite split_ws_nonspace by done.
  destruct (decide (s = [])) as [->|Hne]; [done|].
  rewrite filter_cons_True by done. done.
Qed.

(** A white-space code unit after a run without white space ends a word. *)
Lemma split_ws_cut a c b :
  Forall nonspace a → is_space c = true →
  split_ws (a ++ c :: b) = a :: split_ws_go true b.
Proof.
  intros Ha Hc. unfold split_ws.
  induction Ha as [|x a Hx _ IH]; simpl.
  - rewrite Hc. done.
  - rewrite Hx, IH. done.
Qed.

Lemma words_cut a c b :
  Forall nonspace a → is_space c = true →
  words (a ++ c :: b) = words a ++ words b.
Proof.
  intros Ha Hc. unfold words at 1. rewrite split_ws_cut by done.
  rewrite words_nonspace by done.
  destruct (decide (a = [])) as [->|Hne].
  - rewrite filter_cons_False by (unfold Boolean; tauto).
    simpl. apply filter_split_ws_go.
  - rewrite filter_cons_True by done. simpl. f_equal. apply filter_split_ws_go.
Qed.

(** Every string is a run without white space, or such a run followed by a
    white-space code unit and a rest. *)
Lemma span_nonspace s :
  Forall nonspace s ∨
  ∃ a c b, s = a ++ c :: b ∧ Forall nonspace a ∧ is_space c = true.
Proof.
  induction s as [|x s IH]; [left; constructor|].
  destruct (is_space x) eqn:Hx.
  - right. exists [], x, s. repeat split; [constructor | done].
  - destruct IH as [IH | (a & c & b & -> & Ha & Hc)].
    + left. constructor; done.
    + right. exists (x :: a), c, b. repeat split; [constructor; done | done].
Qed.

(** The words of a text are non-empty, hold no white space, and together are
    the text without its white space. *)
Lemma words_spec s :
  Forall (λ w, w ≠ [] ∧ Forall nonspace w) (words s) ∧
  concat (words s) = filter nonspace s.
Proof.
  induction s as [s IH] using (induction_ltof1 _ (@length N)).
  unfold ltof in IH.
  destruct (span_nonspace s) as [Hs | (a & c & b & -> & Ha & Hc)].
  - rewrite words_nonspace by done. destruct (decide (s = [])) as [->|Hne].
    + split; [constructor | done].
    + split; [repeat constructor; done|]. simpl. rewrite app_nil_r.
      by rewrite filter_nonspace_id.
  - rewrite words_cut by done.
    destruct (IH b) as [IH1 IH2]; [rewrite length_app; simpl; lia|].
    split.
    + apply Forall_app. split; [|done].
      rewrite words_nonspace by done. destruct (decide (a = [])); repeat constructor; done.
    + rewrite concat_app, IH2, filter_app.
      rewrite filter_cons_False by (unfold nonspace; rewrite Hc; done).
      f_equal. rewrite words_nonspace by done.
      rewrite filter_nonspace_id by done.
      destruct (decide (a = [])) as [->|Hne]; [done|]. simpl. by rewrite app_nil_r.
Qed.

Lemma Forall_filter_keep {A} (P Q : A → Prop) `{∀ x, Decision (Q x)} l :
  Forall P l → Forall P (filter Q l).
Proof.
  rewrite !Forall_forall. intros HP x Hx.
  apply list_elem_of_filter in Hx. apply HP, Hx.
Qed.

(** * Objects *)

Lemma get_app o1 o2 k :
  get (o1 ++ o2) k = match get o1 k with Some v => Some v | None => get o2 k end.
Proof.
  induction o1 as [|[k0 v0] o1 IH]; simpl; [done|].
  destruct (decide (k0 = k)); done.
Qed.

Lemma get_replace o k v k' :
  get ((λ kv, if decide (kv.1 = k) then (k, v) else kv) <$> o) k'
  = if decide (k = k') then (λ _, v) <$> get o k else get o k'.
Proof.
  induction o as [|[k0 v0] o IH].
  - simpl. destruct (decide (k = k')); done.
  - rewrite fmap_cons. cbn [fst].
    destruct (decide (k0 = k)) as [->|Hne]; cbn [get]; rewrite IH;
      repeat case_decide; simplify_eq; done.
Qed.

Lemma get_insert_index n o k v k' :
  get o k = None →
  get (obj_insert_index n k v o) k' = if decide (k = k') then Some v else get o k'.
Proof.
  induction o as [|[k0 v0] o IH]; simpl; intros Hk.
  - destruct (decide (k = k')); done.
  - destruct (decide (k0 = k)) as [|Hne]; [done|].
    destruct (array_index k0) as [n'|]; [destruct (n' <? n)|]; simpl;
      try rewrite IH by done;
      destruct (decide (k0 = k')), (decide (k = k')); congruence.
Qed.

(** Reading a property after it, or another one, was defined. *)
Lemma get_obj_set o k v k' :
  get (obj_set o k v) k' = if decide (k = k') then Some v else get o k'.
Proof.
  unfold obj_set. destruct (get o k) as [v0|] eqn:Hk.
  - rewrite get_replace, Hk. done.
  - destruct (array_index k) as [n|].
    + by apply get_insert_index.
    + rewrite get_app. simpl. destruct (decide (k = k')) as [<-|Hne].
      * by rewrite Hk.
      * destruct (get o k'); done.
Qed.

(** * The flashcard store *)

Lemma map_update_only_target id (update : obj → obj) sets :
  (∀ card, (∀ k v, (k, v) ∈ sets → get (update card) k = Some v) ∧
           (∀ k, k ∉ sets.*1 → get (update card) k = get card k)) →
  only_target_changes id
    (fmap (λ card, if strict_eq_string (get card (lit "id")) id
                   then update card else card)) sets.
Proof.
  intros Hupd prev. split; [apply length_fmap|].
  intros i card Hi. rewrite list_lookup_fmap, Hi. simpl.
  eexists. split; [reflexivity|]. unfold targeted.
  destruct (get card (lit "id")) as [[|b|m e|s|items|fields]|] eqn:Hid; simpl;
    try (split; [done | intros; congruence]).
  destruct (bool_decide_reflect (s = id)) as [->|Hne].
  - split; [done|]. intros _. apply Hupd.
  - split; [done|]. intros; congruence.
Qed.

(** C9: each of the three mutations of the store gives a collection of the
    same length in which the items that are not targeted are the same
    values; a targeted item takes the new [isLoading] (and [imageUrl]) and
    keeps its other properties. *)
Theorem store_mutations_frame id imageUrl :
  only_target_changes id (mark_loading id) [(lit "isLoading", JBool true)] ∧
  only_target_changes id (store_image id imageUrl)
    [(lit "imageUrl", JString imageUrl); (lit "isLoading", JBool false)] ∧
  only_target_changes id (clear_loading id) [(lit "isLoading", JBool false)].
Proof.
  split; [|split]; apply map_update_only_target; intros card; split.
  - intros k v Hkv. apply list_elem_of_singleton in Hkv as [= -> ->].
    rewrite get_obj_set. by rewrite decide_True.
  - intros k Hk. rewrite get_obj_set. rewrite decide_False; [done|].
    intros <-. apply Hk. simpl. apply elem_of_cons. by left.
  - intros k v Hkv. rewrite !get_obj_set.
    apply elem_of_cons in Hkv as [[= -> ->]|Hkv].
    + rewrite decide_False by done. by rewrite decide_True.
    + apply list_elem_of_singleton in Hkv as [= -> ->]. by rewrite decide_True.
  - intros k Hk. rewrite !get_obj_set. simpl in Hk.
    rewrite !decide_False; [done| |]; intros <-; apply Hk;
      rewrite !elem_of_cons; auto.
  - intros k v Hkv. apply list_elem_of_singleton in Hkv as [= -> ->].
    rewrite get_obj_set. by rewrite decide_True.
  - intros k Hk. rewrite get_obj_set. rewrite decide_False; [done|].
    intros <-. apply Hk. simpl. apply elem_of_cons. by left.
Qed.

(** * Image generation *)

(** While calls are made one after the other, at most one is outstanding,
    and none when the last has settled. *)
Lemma sequential_outstanding evs :
  sequential evs →
  outstanding 0 evs = Some 0%nat ∧
  ∀ pre, pre `prefix_of` evs →
         ∃ n, outstanding 0 pre = Some n ∧ (n ≤ 1)%nat.
Proof.
  induction 1 as [|p o evs _ [IH0 IH]]; (split; [done|]).
  - intros pre [k Hk]. symmetry in Hk. apply app_eq_nil in Hk as [-> _].
    exists 0%nat. split; [done | lia].
  - intros pre [k Hk].
    destruct pre as [|e1 [|e2 pre]]; simplify_eq/=.
    + exists 0%nat. split; [done | lia].
    + exists 1%nat. split; [done | lia].
    + apply IH. by exists k.
Qed.

Lemma started_app evs1 evs2 : started (evs1 ++ evs2) = started evs1 ++ started evs2.
Proof. apply omap_app. Qed.

Section GenerationFacts.

Variable World : Type.
Variable generateImageFromPrompt : jsstring → World → outcome * World.

Local Abbreviation generateImage := (handleGenerateImage World generateImageFromPrompt).
Local Abbreviation generateAll_loop := (handleGenerateAll_loop World generateImageFromPrompt).
Local Abbreviation generateAll := (handleGenerateAll World generateImageFromPrompt).

(** One generation makes one call, and leaves loading only cards that were
    loading and are not the ones it was for. *)
Lemma handleGenerateImage_spec id prompt sys :
  ∃ o,
    trace (generateImage id prompt sys)
    = trace sys ++ [CallStarted (fullPrompt prompt); CallSettled o] ∧
    length (flashcards (app (generateImage id prompt sys)))
    = length (flashcards (app sys)) ∧
    ∀ k card', flashcards (app (generateImage id prompt sys)) !! k = Some card' →
      loading card' →
      ∃ card, flashcards (app sys) !! k = Some card ∧ loading card.
Proof.
  unfold handleGenerateImage, await_generateImageFromPrompt. simpl.
  destruct (generateImageFromPrompt (fullPrompt prompt) (world sys)) as [o w].
  exists o. unfold loading.
  destruct o as [url|err]; simpl; (split; [done|]);
    unfold store_image, clear_loading, mark_loading;
    (split; [by rewrite !length_fmap|]);
    intros k card'; rewrite !list_lookup_fmap;
    destruct (flashcards (app sys) !! k) as [card|]; simpl; [|done| |done];
    intros [= <-]; destruct (strict_eq_string (get card (lit "id")) id) eqn:Hid;
    rewrite ?get_obj_set, ?decide_False, ?Hid, ?get_obj_set by done;
    rewrite ?decide_True by done; try done; eauto.
Qed.

Lemma handleGenerateAll_loop_spec cards : ∀ sys,
  Forall has_string_id_and_text cards →
  ∃ sys' evs,
    generateAll_loop cards sys = Some sys' ∧
    trace sys' = trace sys ++ evs ∧
    sequential evs ∧
    started evs
    = (λ card, fullPrompt (card_text card))
        <$> filter (λ card, lacks_image_and_not_loading card = true) cards ∧
    length (flashcards (app sys')) = length (flashcards (app sys)) ∧
    ∀ k card', flashcards (app sys') !! k = Some card' → loading card' →
      ∃ card, flashcards (app sys) !! k = Some card ∧ loading card.
Proof.
  induction cards as [|card rest IH]; intros sys Htyped.
  - exists sys, []. simpl. rewrite app_nil_r.
    repeat split; [constructor | eauto].
  - apply Forall_cons in Htyped as [(i & t & Hi & Ht) Hrest]. simpl.
    fold (lacks_image_and_not_loading card).
    destruct (lacks_image_and_not_loading card) eqn:Hel.
    + rewrite Hi, Ht. simpl.
      destruct (handleGenerateImage_spec i t sys) as (o & Htr & Hlen & Hload).
      destruct (IH (generateImage i t sys) Hrest)
        as (sys' & evs & Hrun & Htr' & Hseq & Hst & Hlen' & Hload').
      exists sys', ([CallStarted (fullPrompt t); CallSettled o] ++ evs).
      split; [done|]. split; [by rewrite Htr', Htr, <- app_assoc|].
      split; [by constructor|].
      split.
      { rewrite started_app, Hst, filter_cons_True, fmap_cons by done.
        cbn beta.
        assert (card_text card = t) as -> by (unfold card_text; by rewrite Ht).
        reflexivity. }
      split; [congruence|].
      intros k card' Hk Hl. destruct (Hload' k card' Hk Hl) as (c1 & Hk1 & Hl1).
      eauto.
    + destruct (IH sys Hrest)
        as (sys' & evs & Hrun & Htr' & Hseq & Hst & Hlen' & Hload').
      exists sys', evs. rewrite filter_cons_False by (rewrite Hel; done).
      done.
Qed.

End GenerationFacts.

(** * JSON texts *)

(** Induction on a value, with the hypothesis for every element of an array
    and every member of an object. *)
Lemma json_ind (P : json → Prop) :
  P JNull →
  (∀ b, P (JBool b)) →
  (∀ m e, P (JNumber m e)) →
  (∀ s, P (JString s)) →
  (∀ items, Forall P items → P (JArray items)) →
  (∀ fields, Forall (λ kv, P kv.2) fields → P (JObject fields)) →
  ∀ v, P v.
Proof.
  intros Hnull Hbool Hnum Hstr Harr Hobj.
  fix IH 1. intros [|b|m e|s|items|fields].
  - exact Hnull.
  - apply Hbool.
  - apply Hnum.
  - apply Hstr.
  - apply Harr. induction items as [|x items IHitems]; constructor.
    + apply IH.
    + exact IHitems.
  - apply Hobj. induction fields as [|[k x] fields IHfields]; constructor.
    + apply IH.
    + exact IHfields.
Qed.

(** ** Strings *)

Lemma all_below_spec test n : ∀ c x,
  all_below test n c = true → c ≤ x → x < c + N.of_nat n → test x = true.
Proof.
  induction n as [|n IH]; intros c x H Hle Hlt; [lia|].
  simpl in H. apply andb_true_iff in H as [Hc Hn].
  destruct (decide (x = c)) as [->|Hne]; [done|].
  apply (IH (c + 1)); [done | lia | lia].
Qed.

Lemma control_escape_reads_back c : c < 0x20 → escape_reads_back c = true.
Proof.
  intros Hc. apply (all_below_spec escape_reads_back 32 0); [|lia|lia].
  vm_compute. reflexivity.
Qed.

Lemma surrogate_escape_reads_back c :
  is_high_surrogate c || is_low_surrogate c = true → escape_reads_back c = true.
Proof.
  intros Hc. apply (all_below_spec escape_reads_back 2048 0xd800).
  - vm_compute. reflexivity.
  - revert Hc. unfold is_high_surrogate, is_low_surrogate.
    rewrite orb_true_iff, !andb_true_iff, !N.leb_le. lia.
  - revert Hc. unfold is_high_surrogate, is_low_surrogate.
    rewrite orb_true_iff, !andb_true_iff, !N.leb_le. lia.
Qed.

(** What follows a backslash and [u] written by [unicode_escape]. *)
Lemma parse_unicode_escape c tail :
  escape_reads_back c = true →
  parse_string_chars (unicode_escape c ++ tail)
  = prepend c (parse_string_chars tail).
Proof.
  intros H. unfold escape_reads_back in H. unfold unicode_escape in *.
  apply bool_decide_eq_true in H. simpl. by rewrite H.
Qed.

Lemma parse_literal_unit c tail :
  (c =? quote) = false → (c =? backslash) = false → (c <? 0x20) = false →
  parse_string_chars (c :: tail) = prepend c (parse_string_chars tail).
Proof. intros H1 H2 H3. simpl. by rewrite H1, H2, H3. Qed.

Lemma parse_quote_unit c tail :
  is_high_surrogate c = false →
  parse_string_chars (quote_unit c ++ tail)
  = prepend c (parse_string_chars tail).
Proof.
  intros Hh. unfold quote_unit.
  destruct (N.eqb_spec c 0x08) as [->|_]; [reflexivity|].
  destruct (N.eqb_spec c 0x09) as [->|_]; [reflexivity|].
  destruct (N.eqb_spec c 0x0a) as [->|_]; [reflexivity|].
  destruct (N.eqb_spec c 0x0c) as [->|_]; [reflexivity|].
  destruct (N.eqb_spec c 0x0d) as [->|_]; [reflexivity|].
  destruct (c =? quote) eqn:Hq; [apply N.eqb_eq in Hq as ->; reflexivity|].
  destruct (c =? backslash) eqn:Hb; [apply N.eqb_eq in Hb as ->; reflexivity|].
  rewrite Hh, orb_false_r.
  destruct (c <? 32) eqn:Hlt.
  { apply parse_unicode_escape, control_escape_reads_back.
    by apply N.ltb_lt in Hlt. }
  destruct (is_low_surrogate c) eqn:Hl; cbn [orb].
  { apply parse_unicode_escape, surrogate_escape_reads_back.
    by rewrite Hl, orb_true_r. }
  by apply parse_literal_unit.
Qed.

Lemma surrogate_literal c :
  is_high_surrogate c || is_low_surrogate c = true →
  (c =? quote) = false ∧ (c =? backslash) = false ∧ (c <? 0x20) = false.
Proof.
  unfold is_high_surrogate, is_low_surrogate, quote, backslash.
  rewrite orb_true_iff, !andb_true_iff, !N.leb_le, !N.eqb_neq, N.ltb_ge. lia.
Qed.

Lemma quote_body_cons c s :
  quote_body (c :: s) =
  if is_high_surrogate c then
    match s with
    | d :: s'' =>
        if is_low_surrogate d then c :: d :: quote_body s''
        else unicode_escape c ++ quote_body s
    | [] => unicode_escape c
    end
  else quote_unit c ++ quote_body s.
Proof. reflexivity. Qed.

(** A quoted string is read back as the string it quotes. *)
Lemma parse_quote_body s : ∀ rest,
  parse_string_chars (quote_body s ++ quote :: rest) = Some (s, rest).
Proof.
  induction s as [s IH] using (induction_ltof1 _ (@length N)).
  unfold ltof in IH. intros rest.
  destruct s as [|c s]; [reflexivity|]. rewrite quote_body_cons.
  destruct (is_high_surrogate c) eqn:Hh.
  - destruct (surrogate_literal c) as (Hq & Hb & Hl); [by rewrite Hh|].
    destruct s as [|d s].
    + rewrite parse_unicode_escape
        by (apply surrogate_escape_reads_back; by rewrite Hh).
      reflexivity.
    + destruct (is_low_surrogate d) eqn:Hd.
      * destruct (surrogate_literal d) as (Hq' & Hb' & Hl');
          [by rewrite Hd, orb_true_r|].
        rewrite <- !app_comm_cons.
        rewrite parse_literal_unit, parse_literal_unit by done.
        rewrite IH by (simpl; lia). reflexivity.
      * rewrite <- app_assoc, parse_unicode_escape
          by (apply surrogate_escape_reads_back; by rewrite Hh).
        rewrite IH by (simpl; lia). reflexivity.
  - rewrite <- app_assoc, parse_quote_unit by done.
    rewrite IH by (simpl; lia). reflexivity.
Qed.

(** ** White space *)

Lemma skip_ws_app w s : json_ws w → skip_ws (w ++ s) = skip_ws s.
Proof. induction 1 as [|c w Hc _ IH]; simpl; [done|]. by rewrite Hc. Qed.

Lemma skip_ws_head c s : is_json_ws c = false → skip_ws (c :: s) = c :: s.
Proof. intros H. simpl. by rewrite H. Qed.

Lemma parse_value_ws fuel w s :
  json_ws w → parse_value fuel (w ++ s) = parse_value fuel s.
Proof. intros H. destruct fuel; simpl; [done|]. by rewrite skip_ws_app. Qed.

Lemma parse_elements_ws fuel w s :
  json_ws w → parse_elements fuel (w ++ s) = parse_elements fuel s.
Proof. intros H. destruct fuel; simpl; [done|]. by rewrite parse_value_ws. Qed.

Lemma parse_members_ws fuel w s :
  json_ws w → parse_members fuel (w ++ s) = parse_members fuel s.
Proof. intros H. destruct fuel; simpl; [done|]. by rewrite skip_ws_app. Qed.

Lemma json_ws_gap : json_ws gap.
Proof. repeat constructor. Qed.

(** ** Objects read in the order they are printed *)

Lemma get_None o k : get o k = None ↔ k ∉ o.*1.
Proof.
  induction o as [|[k0 v0] o IH]; simpl.
  - split; [intros _; apply not_elem_of_nil | done].
  - rewrite not_elem_of_cons. destruct (decide (k0 = k)) as [->|Hne].
    + split; [done | tauto].
    + rewrite IH. split; [auto | tauto].
Qed.

Lemma object_of_members_app acc fields :
  NoDup (acc ++ fields).*1 →
  Forall (λ k, array_index k = None) fields.*1 →
  foldl (λ o kv, obj_set o kv.1 kv.2) acc fields = acc ++ fields.
Proof.
  revert acc. induction fields as [|[k v] fields IH]; intros acc Hnd Hix; simpl.
  - by rewrite app_nil_r.
  - apply Forall_cons in Hix as [Hk Hix]. simpl in Hk.
    assert (Hset : obj_set acc k v = acc ++ [(k, v)]).
    { unfold obj_set. rewrite Hk.
      assert (Hget : get acc k = None); [|by rewrite Hget].
      apply get_None. rewrite fmap_app, fmap_cons in Hnd.
      apply NoDup_app in Hnd as (_ & Hdisj & _). intros Hin.
      apply (Hdisj k Hin). apply elem_of_cons. by left. }
    rewrite Hset, IH; [by rewrite <- app_assoc | by rewrite <- app_assoc | done].
Qed.

Lemma object_of_members_plain fields :
  NoDup fields.*1 → Forall (λ k, array_index k = None) fields.*1 →
  object_of_members fields = fields.
Proof. intros. by apply (object_of_members_app []). Qed.

(** ** Values printed and read back *)

Lemma lit_comma : lit "," = [0x2c].
Proof. reflexivity. Qed.

Lemma app_unit (c : N) (s : jsstring) : [c] ++ s = c :: s.
Proof. reflexivity. Qed.

Lemma join_cons_ne sep p parts :
  parts ≠ [] → join sep (p :: parts) = p ++ sep ++ join sep parts.
Proof. by destruct parts. Qed.

Lemma join_cons2 sep p q parts :
  join sep (p :: q :: parts) = p ++ sep ++ join sep (q :: parts).
Proof. reflexivity. Qed.

Lemma stringify_value_opens indent v : plain v → opens_value (stringify_value indent v).
Proof.
  unfold opens_value.
  destruct 1 as [|[|]|s|items _|fields _ _ _]; simpl;
    try (eexists _, _; split; [reflexivity|done]).
  - destruct items; eexists _, _; (split; [reflexivity|done]).
  - destruct fields; eexists _, _; (split; [reflexivity|done]).
Qed.

Lemma opens_value_app s t : opens_value s → opens_value (s ++ t).
Proof. intros (c & tl & -> & ?). by exists c, (tl ++ t). Qed.

Lemma join_opens sep p parts : opens_value p → opens_value (join sep (p :: parts)).
Proof.
  intros H. destruct parts; [done|]. rewrite join_cons2. by apply opens_value_app.
Qed.

Lemma parse_elements_S fuel s :
  parse_elements (S fuel) s =
  match parse_value fuel s with
  | Some (v, r) =>
      match skip_ws r with
      | c :: r' =>
          if c =? 0x2c then
            match parse_elements fuel r' with
            | Some (vs, r'') => Some (v :: vs, r'')
            | None => None
            end
          else if c =? 0x5d then Some ([v], r')
          else None
      | [] => None
      end
  | None => None
  end.
Proof. reflexivity. Qed.

Lemma parse_members_S fuel s :
  parse_members (S fuel) s =
  match skip_ws s with
  | c :: s' =>
      if c =? quote then
        match parse_string_chars s' with
        | Some (k, r) =>
            match skip_ws r with
            | d :: r' =>
                if d =? 0x3a then
                  match parse_value fuel r' with
                  | Some (v, r2) =>
                      match skip_ws r2 with
                      | e :: r3 =>
                          if e =? 0x2c then
                            match parse_members fuel r3 with
                            | Some (kvs, r4) => Some ((k, v) :: kvs, r4)
                            | None => None
                            end
                          else if e =? 0x7d then Some ([(k, v)], r3)
                          else None
                      | [] => None
                      end
                  | None => None
                  end
                else None
            | [] => None
            end
        | None => None
        end
      else None
  | [] => None
  end.
Proof. reflexivity. Qed.

Lemma elements_read_back items :
  items ≠ [] → Forall reads_back items →
  ∀ ind indent rest, json_ws ind → json_ws indent →
    ∃ n, ∀ fuel, (n ≤ fuel)%nat →
      parse_elements fuel
        (join (lit "," ++ [LF] ++ ind) (stringify_value ind <$> items)
         ++ [LF] ++ indent ++ lit "]" ++ rest)
      = Some (items, rest).
Proof.
  intros Hne HF ind indent rest Hind Hindent.
  induction HF as [|v items Hv HF IH]; [done|]. clear Hne.
  destruct items as [|v2 items].
  - destruct (Hv ind ([LF] ++ indent ++ lit "]" ++ rest) Hind) as [n Hn].
    exists (S n). intros [|fuel] Hf; [lia|]. rewrite parse_elements_S.
    rewrite fmap_cons. cbn [fmap list_fmap join]. rewrite Hn by lia.
    rewrite (skip_ws_app [LF]), (skip_ws_app indent) by by repeat constructor.
    reflexivity.
  - destruct IH as [n2 Hn2]; [done|].
    rewrite !fmap_cons, join_cons2, <- !fmap_cons, <- !app_assoc, lit_comma.
    destruct (Hv ind ([0x2c] ++ [LF] ++ ind ++
                join ([0x2c] ++ [LF] ++ ind) (stringify_value ind <$> v2 :: items)
                ++ [LF] ++ indent ++ lit "]" ++ rest) Hind) as [n Hn].
    exists (S (n `max` n2)). intros [|fuel] Hf; [lia|]. rewrite parse_elements_S.
    rewrite Hn by lia. rewrite app_unit, skip_ws_head by done.
    change (0x2c =? 0x2c) with true. cbv iota.
    rewrite (parse_elements_ws fuel [LF] (ind ++ _)), (parse_elements_ws fuel ind)
      by by repeat constructor.
    rewrite lit_comma in Hn2. rewrite Hn2 by lia. reflexivity.
Qed.

Lemma parse_value_array fuel w s :
  json_ws w → opens_value s →
  parse_value (S fuel) (0x5b :: w ++ s) =
  match parse_elements fuel s with
  | Some (items, r) => Some (JArray items, r)
  | None => None
  end.
Proof.
  intros Hw (c & tl & -> & Hc & Hc1 & _). cbn [parse_value].
  rewrite skip_ws_head by done.
  change (0x5b =? 0x7b) with false. change (0x5b =? 0x5b) with true. cbv iota.
  rewrite skip_ws_app, skip_ws_head by done.
  apply N.eqb_neq in Hc1. rewrite Hc1. by rewrite parse_elements_ws.
Qed.

Lemma parse_value_object fuel w s :
  json_ws w → opens_value s →
  parse_value (S fuel) (0x7b :: w ++ s) =
  match parse_members fuel s with
  | Some (members, r) => Some (JObject (object_of_members members), r)
  | None => None
  end.
Proof.
  intros Hw (c & tl & -> & Hc & _ & Hc2). cbn [parse_value].
  rewrite skip_ws_head by done.
  change (0x7b =? 0x7b) with true. cbv iota.
  rewrite skip_ws_app, skip_ws_head by done.
  apply N.eqb_neq in Hc2. rewrite Hc2. by rewrite parse_members_ws.
Qed.

Lemma members_read_back fields :
  fields ≠ [] → Forall (λ kv, reads_back kv.2) fields →
  ∀ ind indent rest, json_ws ind → json_ws indent →
    ∃ n, ∀ fuel, (n ≤ fuel)%nat →
      parse_members fuel
        (join (lit "," ++ [LF] ++ ind)
              ((λ kv, match kv with
                      | (k, v) => QuoteJSONString k ++ lit ": "
                                  ++ stringify_value ind v
                      end) <$> fields)
         ++ [LF] ++ indent ++ lit "}" ++ rest)
      = Some (fields, rest).
Proof.
  intros Hne HF ind indent rest Hind Hindent.
  induction HF as [|[k v] fields Hv HF IH]; [done|]. clear Hne. simpl in Hv.
  destruct fields as [|kv2 fields].
  - destruct (Hv ind ([LF] ++ indent ++ lit "}" ++ rest) Hind) as [n Hn].
    exists (S n). intros [|fuel] Hf; [lia|]. rewrite parse_members_S.
    rewrite fmap_cons. cbn [fmap list_fmap join]. unfold QuoteJSONString.
    rewrite <- !app_assoc, app_unit, skip_ws_head by done.
    change (quote =? quote) with true. cbv iota.
    rewrite app_unit, parse_quote_body.
    change (lit ": ") with ([0x3a] ++ [0x20]).
    rewrite <- !app_assoc, app_unit, skip_ws_head by done.
    change (0x3a =? 0x3a) with true. cbv iota.
    rewrite (parse_value_ws fuel [0x20]) by by repeat constructor.
    rewrite Hn by lia.
    rewrite (skip_ws_app [LF]), (skip_ws_app indent) by by repeat constructor.
    reflexivity.
  - destruct IH as [n2 Hn2]; [done|].
    rewrite (fmap_cons _ (k, v)), join_cons_ne by done.
    cbv beta iota. rewrite <- !app_assoc, lit_comma.
    rewrite lit_comma in Hn2.
    destruct (Hv ind ([0x2c] ++ [LF] ++ ind ++
                join ([0x2c] ++ [LF] ++ ind)
                  ((λ kv, match kv with
                          | (k, v) => QuoteJSONString k ++ lit ": "
                                      ++ stringify_value ind v
                          end) <$> kv2 :: fields)
                ++ [LF] ++ indent ++ lit "}" ++ rest) Hind) as [n Hn].
    exists (S (n `max` n2)). intros [|fuel] Hf; [lia|]. rewrite parse_members_S.
    unfold QuoteJSONString at 1.
    rewrite <- !app_assoc, app_unit, skip_ws_head by done.
    change (quote =? quote) with true. cbv iota.
    rewrite app_unit, parse_quote_body.
    change (lit ": ") with ([0x3a] ++ [0x20]).
    rewrite <- !app_assoc, app_unit, skip_ws_head by done.
    change (0x3a =? 0x3a) with true. cbv iota.
    rewrite (parse_value_ws fuel [0x20]) by by repeat constructor.
    rewrite Hn by lia. rewrite app_unit, skip_ws_head by done.
    change (0x2c =? 0x2c) with true. cbv iota.
    rewrite (parse_members_ws fuel [LF] (ind ++ _)), (parse_members_ws fuel ind)
      by by repeat constructor.
    rewrite Hn2 by lia. reflexivity.
Qed.

Lemma Forall_reads_back (items : list json) :
  Forall (λ v, plain v → reads_back v) items → Forall plain items →
  Forall reads_back items.
Proof.
  intros H1 H2. induction H1 as [|v items Hv _ IH]; [constructor|].
  apply Forall_cons in H2 as [? ?]. constructor; auto.
Qed.

(** A plain value is read back from its text. *)
Lemma plain_reads_back v : plain v → reads_back v.
Proof.
  induction v as [|b|m e|s|items IH|fields IH] using json_ind;
    intros Hplain indent rest Hindent.
  - exists 1%nat. intros [|fuel] Hf; [lia|]. reflexivity.
  - exists 1%nat. intros [|fuel] Hf; [lia|]. by destruct b.
  - inversion Hplain.
  - exists 1%nat. intros [|fuel] Hf; [lia|].
    cbn [stringify_value]. unfold QuoteJSONString.
    rewrite <- !app_assoc, app_unit. cbn [parse_value].
    rewrite skip_ws_head by done.
    change (quote =? 0x7b) with false. change (quote =? 0x5b) with false.
    change (quote =? quote) with true. cbv iota.
    by rewrite app_unit, parse_quote_body.
  - inversion Hplain as [| | |items' Hplains|]; subst.
    destruct items as [|v items].
    { exists 1%nat. intros [|fuel] Hf; [lia|]. reflexivity. }
    assert (Hopen : opens_value
                      (join (lit "," ++ [LF] ++ (indent ++ gap))
                            (stringify_value (indent ++ gap) <$> v :: items))).
    { rewrite fmap_cons. apply join_opens, stringify_value_opens.
      by apply Forall_cons in Hplains as [? _]. }
    destruct (elements_read_back (v :: items)) with
      (ind := indent ++ gap) (indent := indent) (rest := rest) as [n Hn];
      [done | by apply Forall_reads_back | | done |].
    { apply Forall_app. split; [done | apply json_ws_gap]. }
    exists (S n). intros [|fuel] Hf; [lia|].
    cbn [stringify_value].
    change (lit "[") with [0x5b]. rewrite <- !app_assoc, app_unit.
    rewrite (app_assoc [LF]), (app_assoc ([LF] ++ indent)).
    rewrite parse_value_array.
    + rewrite Hn by lia. reflexivity.
    + rewrite <- app_assoc. apply Forall_app. split; [by repeat constructor|].
      apply Forall_app. split; [done | apply json_ws_gap].
    + by apply opens_value_app.
  - inversion Hplain as [| | | |fields' Hnd Hix Hplains]; subst.
    destruct fields as [|[k v] fields].
    { exists 1%nat. intros [|fuel] Hf; [lia|]. reflexivity. }
    destruct (members_read_back ((k, v) :: fields)) with
      (ind := indent ++ gap) (indent := indent) (rest := rest) as [n Hn];
      [done | | | done |].
    { clear -IH Hplains. induction IH as [|kv fs Hkv _ IHfs]; [constructor|].
      apply Forall_cons in Hplains as [? ?]. constructor; auto. }
    { apply Forall_app. split; [done | apply json_ws_gap]. }
    exists (S n). intros [|fuel] Hf; [lia|].
    cbn [stringify_value].
    change (lit "{") with [0x7b]. rewrite <- !app_assoc, app_unit.
    rewrite (app_assoc [LF]), (app_assoc ([LF] ++ indent)).
    rewrite parse_value_object.
    + rewrite Hn by lia. by rewrite object_of_members_plain.
    + rewrite <- app_assoc. apply Forall_app. split; [by repeat constructor|].
      apply Forall_app. split; [done | apply json_ws_gap].
    + apply opens_value_app. rewrite fmap_cons. apply join_opens.
      unfold QuoteJSONString. by eexists _, _.
Qed.

(** ** The fuel of the parser *)

Lemma skip_ws_length s : (length (skip_ws s) ≤ length s)%nat.
Proof.
  induction s as [|c s IH]; simpl; [lia|].
  destruct (is_json_ws c); simpl; lia.
Qed.

Lemma prepend_length c r k rest (bound : nat) :
  (∀ k' rest', r = Some (k', rest') → (length rest' < bound)%nat) →
  prepend c r = Some (k, rest) → (length rest < bound)%nat.
Proof. destruct r as [[k' rest']|]; simpl; [|done]. intros H [= <- <-]. eauto. Qed.

Lemma parse_string_chars_length s : ∀ k r,
  parse_string_chars s = Some (k, r) → (length r < length s)%nat.
Proof.
  induction s as [s IH] using (induction_ltof1 _ (@length N)).
  unfold ltof in IH. intros k r.
  destruct s as [|c s]; [done|]. cbn [parse_string_chars].
  repeat case_match; try done; simplify_eq; simpl.
  - intros [= <- <-]. lia.
  - apply prepend_length. intros k' r' Hr. apply IH in Hr; simpl in *; lia.
  - apply prepend_length. intros k' r' Hr. apply IH in Hr; simpl in *; lia.
  - apply prepend_length. intros k' r' Hr. apply IH in Hr; simpl in *; lia.
Qed.

Lemma strip_prefix_length word : ∀ s r,
  strip_prefix word s = Some r → (length r ≤ length s)%nat.
Proof.
  induction word as [|w word IH]; intros [|c s] r; simpl; try done.
  - intros [= <-]. done.
  - intros [= <-]. done.
  - destruct (w =? c); [|done]. intros H%IH. lia.
Qed.

Lemma span_digits_length s : ∀ acc n m k r,
  span_digits acc n s = (m, k, r) → (length r ≤ length s)%nat.
Proof.
  induction s as [|c s IH]; intros acc n m k r; simpl.
  - intros [= <- <- <-]. done.
  - destruct (is_digit c).
    + intros H%IH. lia.
    + intros [= <- <- <-]. done.
Qed.

Lemma parse_number_unsigned_length s m e r :
  parse_number_unsigned s = Some (m, e, r) → (length r < length s)%nat.
Proof.
  unfold parse_number_unsigned. destruct s as [|c s]; [done|].
  destruct (is_digit c) eqn:Hd; [|done]. cbn [negb span_digits]. rewrite Hd.
  intros H.
  repeat (case_match; try done; simplify_eq);
    repeat match goal with
           | H : span_digits _ _ _ = _ |- _ => apply span_digits_length in H
           end; simpl in *; lia.
Qed.

Lemma parse_number_length s v r :
  parse_number s = Some (v, r) → (length r < length s)%nat.
Proof.
  unfold parse_number. destruct s as [|c s]; [done|].
  intros H.
  repeat (case_match; try done; simplify_eq);
    repeat match goal with
           | H : parse_number_unsigned _ = _ |- _ =>
               apply parse_number_unsigned_length in H
           end; simpl in *; lia.
Qed.

Lemma parse_value_S fuel s :
  parse_value (S fuel) s =
      match skip_ws s with
      | [] => None
      | c :: s' =>
          if c =? 0x7b then
            match skip_ws s' with
            | d :: s'' =>
                if d =? 0x7d then Some (JObject [], s'')
                else match parse_members fuel s' with
                     | Some (members, r) =>
                         Some (JObject (object_of_members members), r)
                     | None => None
                     end
            | [] => None
            end
          else if c =? 0x5b then
            match skip_ws s' with
            | d :: s'' =>
                if d =? 0x5d then Some (JArray [], s'')
                else match parse_elements fuel s' with
                     | Some (items, r) => Some (JArray items, r)
                     | None => None
                     end
            | [] => None
            end
          else if c =? quote then
            match parse_string_chars s' with
            | Some (str, r) => Some (JString str, r)
            | None => None
            end
          else if c =? 0x74 then
            match strip_prefix (lit "rue") s' with
            | Some r => Some (JBool true, r)
            | None => None
            end
          else if c =? 0x66 then
            match strip_prefix (lit "alse") s' with
            | Some r => Some (JBool false, r)
            | None => None
            end
          else if c =? 0x6e then
            match strip_prefix (lit "ull") s' with
            | Some r => Some (JNull, r)
            | None => None
            end
          else parse_number (c :: s')
      end.
Proof. reflexivity. Qed.

Ltac length_facts :=
  repeat match goal with
         | H : skip_ws ?s = _ |- _ =>
             let H' := fresh in
             pose proof (skip_ws_length s) as H'; rewrite H in H'; clear H
         | H : parse_string_chars _ = Some _ |- _ =>
             apply parse_string_chars_length in H
         | H : strip_prefix _ _ = Some _ |- _ => apply strip_prefix_length in H
         | H : parse_number _ = Some _ |- _ => apply parse_number_length in H
         end.

(** Whatever is read takes at least one code unit of the text. *)
Lemma parse_length fuel :
  (∀ s v r, parse_value fuel s = Some (v, r) → (length r < length s)%nat) ∧
  (∀ s vs r, parse_elements fuel s = Some (vs, r) → (length r < length s)%nat) ∧
  (∀ s kvs r, parse_members fuel s = Some (kvs, r) → (length r < length s)%nat).
Proof.
  induction fuel as [|fuel (IHv & IHe & IHm)]; [done|].
  split; [|split].
  - intros s v r. rewrite parse_value_S. intros H.
    repeat (case_match; try done; simplify_eq);
      repeat match goal with
             | H : parse_elements _ _ = Some _ |- _ => apply IHe in H
             | H : parse_members _ _ = Some _ |- _ => apply IHm in H
             end; length_facts; simpl in *; lia.
  - intros s vs r. rewrite parse_elements_S. intros H.
    repeat (case_match; try done; simplify_eq);
      repeat match goal with
             | H : parse_elements _ _ = Some _ |- _ => apply IHe in H
             | H : parse_value _ _ = Some _ |- _ => apply IHv in H
             end; length_facts; simpl in *; lia.
  - intros s kvs r. rewrite parse_members_S. intros H.
    repeat (case_match; try done; simplify_eq);
      repeat match goal with
             | H : parse_members _ _ = Some _ |- _ => apply IHm in H
             | H : parse_value _ _ = Some _ |- _ => apply IHv in H
             end; length_facts; simpl in *; lia.
Qed.

(** With fuel above twice the length of the text, more fuel changes
    nothing: the parser never fails for lack of fuel. *)
Lemma parse_fuel_step fuel :
  (∀ s, (2 * length s < fuel)%nat → parse_value (S fuel) s = parse_value fuel s) ∧
  (∀ s, (2 * length s + 1 < fuel)%nat →
        parse_elements (S fuel) s = parse_elements fuel s) ∧
  (∀ s, (2 * length s + 1 < fuel)%nat →
        parse_members (S fuel) s = parse_members fuel s).
Proof.
  induction fuel as [|fuel (IHv & IHe & IHm)].
  { repeat split; intros; lia. }
  split; [|split].
  - intros s Hs. rewrite (parse_value_S (S fuel)), (parse_value_S fuel).
    destruct (skip_ws s) as [|c s'] eqn:Hws; [done|].
    pose proof (skip_ws_length s) as Hlen. rewrite Hws in Hlen. simpl in Hlen.
    rewrite IHe, IHm by lia. reflexivity.
  - intros s Hs. rewrite (parse_elements_S (S fuel)), (parse_elements_S fuel).
    rewrite IHv by lia.
    destruct (parse_value fuel s) as [[v r]|] eqn:Hv; [|done].
    apply parse_length in Hv.
    destruct (skip_ws r) as [|c r'] eqn:Hr; [done|].
    pose proof (skip_ws_length r) as Hlen. rewrite Hr in Hlen. simpl in Hlen.
    rewrite IHe by lia. reflexivity.
  - intros s Hs. rewrite (parse_members_S (S fuel)), (parse_members_S fuel).
    destruct (skip_ws s) as [|c s'] eqn:Hws; [done|].
    pose proof (skip_ws_length s) as Hlen. rewrite Hws in Hlen. simpl in Hlen.
    destruct (c =? quote); [|done].
    destruct (parse_string_chars s') as [[k r]|] eqn:Hk; [|done].
    apply parse_string_chars_length in Hk.
    destruct (skip_ws r) as [|d r'] eqn:Hr; [done|].
    pose proof (skip_ws_length r) as Hlen'. rewrite Hr in Hlen'. simpl in Hlen'.
    destruct (d =? 0x3a); [|done].
    rewrite IHv by lia.
    destruct (parse_value fuel r') as [[v r2]|] eqn:Hv; [|done].
    apply parse_length in Hv.
    destruct (skip_ws r2) as [|e r3] eqn:Hr2; [done|].
    pose proof (skip_ws_length r2) as Hlen2. rewrite Hr2 in Hlen2. simpl in Hlen2.
    rewrite IHm by lia. reflexivity.
Qed.

Lemma parse_value_fuel s fuel :
  (2 * length s + 1 ≤ fuel)%nat →
  parse_value fuel s = parse_value (2 * length s + 1) s.
Proof.
  induction 1 as [|fuel Hle IH]; [done|].
  rewrite <- IH. apply parse_fuel_step. lia.
Qed.

(** [JSON.parse] gives what the parser gives with any fuel above its own. *)
Lemma JSON_parse_fuel text fuel :
  (2 * length text + 1 ≤ fuel)%nat →
  JSON_parse text =
  match parse_value fuel text with
  | Some (v, r) => match skip_ws r with [] => Some v | _ => None end
  | None => None
  end.
Proof. intros H. unfold JSON_parse. by rewrite (parse_value_fuel text fuel). Qed.

(** A plain value is what [JSON.parse] reads from its [JSON.stringify]. *)
Lemma JSON_parse_stringify v : plain v → JSON_parse (JSON_stringify v) = Some v.
Proof.
  intros Hv. destruct (plain_reads_back v Hv [] []) as [n Hn]; [constructor|].
  rewrite app_nil_r in Hn. unfold JSON_stringify.
  set (s := stringify_value [] v) in *.
  rewrite (JSON_parse_fuel s (n `max` (2 * length s + 1))) by lia.
  rewrite Hn by lia. reflexivity.
Qed.

(** * Deck import *)

Section DeckFacts.

Variable engine_message : engine_error → jsstring.

Local Abbreviation import := (handleImport engine_message).
Local Abbreviation importFromUrl := (handleImportFromUrl engine_message).

(** [some] finds an element without [id] or [text], or throws on [null],
    exactly when not every element carries both fields. *)
Lemma some_id_or_text_undefined_spec items :
  match some_id_or_text_undefined engine_message items with
  | inr false => Forall fields_defined items
  | _ => ¬ Forall fields_defined items
  end.
Proof.
  induction items as [|item items IH]; simpl; [constructor|].
  assert (Hno : ∀ k, (∀ fields, item ≠ JObject fields) → ¬ has_field k item).
  { intros k Hn (fields & v & -> & _). by eapply Hn. }
  assert (Hbad : (¬ has_field (lit "id") item ∨ ¬ has_field (lit "text") item) →
                 ¬ Forall fields_defined (item :: items)).
  { intros Hor HF. apply Forall_cons in HF as [[H1 H2] _]. tauto. }
  destruct item as [|b|m e|s|its|fields]; simpl;
    try (apply Hbad; left; by apply Hno).
  destruct (get fields (lit "id")) as [i|] eqn:Hi; simpl.
  2:{ apply Hbad. left. intros (fields' & v & [= <-] & Hv). congruence. }
  destruct (get fields (lit "text")) as [t|] eqn:Ht; simpl.
  2:{ apply Hbad. right. intros (fields' & v & [= <-] & Hv). congruence. }
  assert (Hitem : fields_defined (JObject fields)).
  { split; eexists _, _; eauto. }
  destruct (some_id_or_text_undefined engine_message items) as [err|[|]];
    try (by apply Forall_cons); intros HF; apply Forall_cons in HF; tauto.
Qed.

Lemma objects_of_fields_defined items :
  Forall fields_defined items → JObject <$> objects_of items = items.
Proof.
  induction 1 as [|item items [(fields & v & -> & _) _] _ IH]; [done|].
  change (objects_of (JObject fields :: items)) with (fields :: objects_of items).
  rewrite fmap_cons. by f_equal.
Qed.

(** The check lets a value through as it is, and only a valid deck. *)
Lemma check_imported_spec message v :
  match check_imported engine_message message v with
  | inr v' => v' = v ∧ valid_deck v
  | inl _ => ¬ valid_deck v
  end.
Proof.
  unfold check_imported.
  destruct v as [|b|m e|s|items|fields]; simpl;
    try (intros (items' & [=] & _)).
  pose proof (some_id_or_text_undefined_spec items) as H.
  destruct (some_id_or_text_undefined engine_message items) as [err|[|]].
  - intros (items' & [= <-] & HF). done.
  - intros (items' & [= <-] & HF). done.
  - split; [done|]. by exists items.
Qed.

Lemma valid_deck_or_not text :
  (∃ v, JSON_parse text = Some v ∧ valid_deck v) ∨
  (∀ v, JSON_parse text = Some v → ¬ valid_deck v).
Proof.
  destruct (JSON_parse text) as [v|]; [|by right].
  pose proof (check_imported_spec [] v) as H.
  destruct (check_imported engine_message [] v) as [err|v'].
  - right. by intros ? [= <-].
  - left. exists v. tauto.
Qed.

Lemma handleImport_onload_effect text st :
  import_effect text st (import (FileLoaded (Some text)) st).
Proof.
  unfold handleImport, handleImport_onload, JSON_parse_or_throw, import_effect.
  destruct (JSON_parse text) as [v|]; simpl.
  - pose proof (check_imported_spec
      (lit "Invalid JSON structure. Expected an array of flashcard items.") v) as H.
    destruct (check_imported _ _ v) as [err|v']; simpl.
    + split; [intros items [= ->] Hv; done|]. intros _. split; [done | eauto].
    + destruct H as [-> Hv]. split.
      * intros items [= ->] (items' & [= <-] & HF).
        split; [|done]. simpl. by apply objects_of_fields_defined.
      * intros Hn. by destruct (Hn v).
  - split; [done|]. intros _. split; [done | eauto].
Qed.

Lemma handleImportFromUrl_effect text st fetch statusText :
  importUrl st ≠ [] →
  fetch (importUrl st) = FetchResponse true statusText text →
  import_effect text st (importFromUrl fetch st).
Proof.
  intros Hurl Hfetch.
  unfold handleImportFromUrl, JSON_parse_or_throw, import_effect.
  rewrite bool_decide_eq_false_2 by done. simpl. rewrite Hfetch. simpl.
  destruct (JSON_parse text) as [v|]; simpl.
  - pose proof (check_imported_spec
      (lit "Invalid JSON structure from URL. Expected an array of flashcard items.") v) as H.
    destruct (check_imported _ _ v) as [err|v']; simpl.
    + split; [intros items [= ->] Hv; done|]. intros _. split; [done | eauto].
    + destruct H as [-> Hv]. split.
      * intros items [= ->] (items' & [= <-] & HF).
        split; [|done]. simpl. by apply objects_of_fields_defined.
      * intros Hn. by destruct (Hn v).
  - split; [done|]. intros _. split; [done | eauto].
Qed.

(** C5: an import from a file or from a URL replaces the collection by the
    imported array as it is, showing no error, when the text parses to an
    array whose elements all carry [id] and [text]; when the text does not
    parse, is no array, or has an element without [id] or [text], it leaves
    the collection as it was and shows an error. *)
Theorem import_replaces_or_keeps text st :
  import_effect text st (import (FileLoaded (Some text)) st) ∧
  ∀ fetch statusText,
    importUrl st ≠ [] →
    fetch (importUrl st) = FetchResponse true statusText text →
    import_effect text st (importFromUrl fetch st).
Proof.
  split; [apply handleImport_onload_effect|].
  intros. by eapply handleImportFromUrl_effect.
Qed.

(** C6, as the program has it: an import is accepted, that is, ends without
    an error, iff the text parses to an array in which every element is an
    object that carries an [id] and a [text]; these may be any JSON value,
    no string is asked for. *)
Theorem import_accepted_iff_fields_defined text st :
  (error (import (FileLoaded (Some text)) st) = None ↔
   ∃ v, JSON_parse text = Some v ∧ valid_deck v) ∧
  ∀ fetch statusText,
    importUrl st ≠ [] →
    fetch (importUrl st) = FetchResponse true statusText text →
    (error (importFromUrl fetch st) = None ↔
     ∃ v, JSON_parse text = Some v ∧ valid_deck v).
Proof.
  assert (Hiff : ∀ st', import_effect text st st' →
            (error st' = None ↔ ∃ v, JSON_parse text = Some v ∧ valid_deck v)).
  { intros st' [Hacc Hrej]. split.
    - intros Herr. destruct (valid_deck_or_not text) as [H|H]; [done|].
      destruct (Hrej H) as [_ [e He]]. congruence.
    - intros (v & Hp & (items & -> & HF)).
      destruct (Hacc items Hp) as [_ ?]; [by exists items | done]. }
  split; [apply Hiff, handleImport_onload_effect|].
  intros. by eapply Hiff, handleImportFromUrl_effect.
Qed.

(** ** Export, then import *)

Lemma fmap_JObject_inj (l1 l2 : list obj) :
  JObject <$> l1 = JObject <$> l2 → l1 = l2.
Proof.
  revert l2. induction l1 as [|x l1 IH]; intros [|y l2] H; try done.
  rewrite !fmap_cons in H. injection H as Hx Hl. subst. f_equal. by apply IH.
Qed.

Lemma plain_FlashcardItem c : plain (JObject (obj_of_FlashcardItem c)).
Proof.
  constructor.
  - change (NoDup [lit "id"; lit "text"; lit "audioUrl"; lit "imageUrl";
                    lit "isLoading"]).
    apply (bool_decide_unpack _). vm_compute. exact I.
  - repeat constructor.
  - repeat constructor; simpl; try constructor.
    destruct (imageUrl c); constructor.
Qed.

Lemma fields_defined_FlashcardItem c :
  fields_defined (JObject (obj_of_FlashcardItem c)).
Proof. split; eexists _, _; (split; [reflexivity|]); reflexivity. Qed.

(** A collection of plain objects with [id] and [text] is exported to a
    document, and importing the document gives the collection back. *)
Lemma export_import_plain st st0 :
  flashcards st ≠ [] →
  Forall (λ card, plain (JObject card) ∧ fields_defined (JObject card))
         (flashcards st) →
  ∃ doc, handleExport st = (st, Some doc) ∧
         flashcards (import (FileLoaded (Some doc)) st0) = flashcards st ∧
         error (import (FileLoaded (Some doc)) st0) = None.
Proof.
  intros Hne HF. unfold handleExport.
  destruct (flashcards st) as [|card cards] eqn:Hcards; [done|].
  rewrite <- Hcards in *. clear Hne.
  eexists. split; [reflexivity|].
  set (items := JObject <$> flashcards st).
  assert (Hparse : JSON_parse (JSON_stringify (JArray items)) = Some (JArray items)).
  { apply JSON_parse_stringify. constructor. unfold items.
    rewrite Forall_fmap. eapply Forall_impl; [exact HF|]. by intros ? [? _]. }
  destruct (handleImport_onload_effect (JSON_stringify (JArray items)) st0)
    as [Hacc _].
  destruct (Hacc items Hparse) as [Hfl Herr].
  { exists items. split; [done|]. unfold items.
    rewrite Forall_fmap. eapply Forall_impl; [exact HF|]. by intros ? [_ ?]. }
  split; [|done]. unfold items in Hfl.
  by apply fmap_JObject_inj.
Qed.

(** C7: a non-empty collection of flashcards is exported to a document,
    and importing that document succeeds and gives a collection with the
    same items, the same field values and the same order. *)
Theorem export_import_roundtrip (cards : list FlashcardItem) st st0 :
  cards ≠ [] →
  flashcards st = obj_of_FlashcardItem <$> cards →
  ∃ doc, handleExport st = (st, Some doc) ∧
         flashcards (import (FileLoaded (Some doc)) st0)
         = obj_of_FlashcardItem <$> cards ∧
         error (import (FileLoaded (Some doc)) st0) = None.
Proof.
  intros Hne Hst. rewrite <- Hst. apply export_import_plain.
  - rewrite Hst. by destruct cards.
  - rewrite Hst, Forall_fmap. apply Forall_true. intros c. split.
    + apply plain_FlashcardItem.
    + apply fields_defined_FlashcardItem.
Qed.

End DeckFacts.

(** * The pronunciation comparator *)

Section ComparatorFacts.

Variable toLowerCase : jsstring → jsstring.

Local Abbreviation norm := (normalize toLowerCase).
Local Abbreviation norm_spec := (normalize_spec toLowerCase).
Local Abbreviation compare := (comparePronunciation toLowerCase).

(** The comparator maps each display word to its entry. *)
Lemma comparePronunciation_eq R T :
  compare R T =
  (λ w, {| word := w;
           isCorrect := bool_decide (norm w ∈ words (norm T)) |})
    <$> words R.
Proof.
  apply list_eq. intros i. unfold comparePronunciation.
  rewrite list_lookup_imap, !list_lookup_fmap. fold (words R).
  destruct (words R !! i) as [w|]; simpl; [|done].
  do 2 f_equal. unfold new_Set.
  apply bool_decide_ext. apply elem_of_list_to_set.
Qed.

(** The regular expression deletes what the specification's two steps
    delete. *)
Lemma normalize_spec_eq w : norm_spec w = norm w.
Proof.
  unfold normalize_spec, normalize, replace_all_empty.
  induction (toLowerCase w) as [|c l IH]; [done|].
  unfold strip_pattern at 1.
  destruct (decide (c = apostrophe)) as [->|Hne].
  - rewrite (filter_cons_True _ apostrophe) by auto.
    rewrite (filter_cons_False _ apostrophe) by auto.
    rewrite (filter_cons_False _ apostrophe) by (simpl; done).
    exact IH.
  - assert (Hq : (c =? apostrophe) = false) by (by apply N.eqb_neq).
    destruct (is_word c || is_space c) eqn:Hws.
    + rewrite (filter_cons_True (λ c, is_word c = true ∨ _)).
      2:{ apply orb_true_iff in Hws. tauto. }
      rewrite (filter_cons_True _ c) by done.
      rewrite (filter_cons_True (λ c, strip_pattern c = false)).
      2:{ unfold strip_pattern. rewrite Hws, Hq. done. }
      by f_equal.
    + rewrite (filter_cons_False (λ c, is_word c = true ∨ _)).
      2:{ apply orb_false_iff in Hws. destruct Hws as [-> ->].
          intros [?|[?|?]]; done. }
      rewrite (filter_cons_False (λ c, strip_pattern c = false)).
      2:{ unfold strip_pattern. rewrite Hws, Hq. done. }
      exact IH.
Qed.

(** C1: the result has one entry for each non-empty white-space separated
    word of the original text, and the [word] fields are these words
    verbatim and in order, whatever was spoken: none is empty or holds
    white space, and together they are the original text without its white
    space. *)
Theorem comparePronunciation_words R T :
  length (compare R T) = length (display_words_spec R) ∧
  word <$> compare R T = display_words_spec R ∧
  Forall (λ w, w ≠ [] ∧ Forall nonspace w) (word <$> compare R T) ∧
  concat (word <$> compare R T) = filter nonspace R.
Proof.
  assert (H : word <$> compare R T = words R).
  { rewrite comparePronunciation_eq, <- list_fmap_compose. apply list_fmap_id. }
  rewrite <- words_display_words_spec.
  split; [by rewrite <- H, length_fmap|]. split; [exact H|].
  rewrite H. apply words_spec.
Qed.

(** C10: a word whose normal form is the empty string is marked incorrect
    for every transcript: the spoken set holds no empty string. *)
Theorem empty_normal_form_incorrect R T i w :
  display_words_spec R !! i = Some w → norm w = [] →
  compare R T !! i = Some {| word := w; isCorrect := false |}.
Proof.
  rewrite <- words_display_words_spec.
  intros Hw Hn. rewrite comparePronunciation_eq, list_lookup_fmap, Hw.
  simpl. do 2 f_equal. rewrite Hn. apply bool_decide_eq_false.
  unfold words. rewrite list_elem_of_filter. unfold Boolean. tauto.
Qed.

Section LowerCaseFacts.

(** Lower-casing the empty string gives the empty string. *)
Hypothesis toLowerCase_nil : toLowerCase [] = [].

(** On Basic Latin text, lower-casing maps [A-Z] to [a-z] and keeps the
    rest. *)
Hypothesis toLowerCase_ascii :
  ∀ s, Forall (λ c, c < 0x80) s → toLowerCase s = ascii_lower <$> s.

(** Lower-casing turns no code unit into white space. *)
Hypothesis toLowerCase_nonspace :
  ∀ s, Forall nonspace s → Forall nonspace (toLowerCase s).

(** A white-space code unit stays in place, and what is left of the text
    before and after it once the pattern is deleted does not depend on
    the other side. *)
Hypothesis normalize_cut :
  ∀ a c b, Forall nonspace a → is_space c = true →
           norm (a ++ c :: b) = norm a ++ c :: norm b.

Lemma normalize_nonspace s : Forall nonspace s → Forall nonspace (norm s).
Proof.
  intros H. unfold normalize, replace_all_empty.
  apply Forall_filter_keep, toLowerCase_nonspace, H.
Qed.

Lemma normalize_nil : norm [] = [].
Proof. unfold normalize. by rewrite toLowerCase_nil. Qed.

(** Normalizing the transcript and splitting it gives the normal forms
    of its words, without the empty ones. *)
Lemma words_normalize T :
  words (norm T) = filter Boolean (norm <$> words T).
Proof.
  induction T as [T IH] using (induction_ltof1 _ (@length N)).
  unfold ltof in IH.
  assert (Hrun : ∀ a, Forall nonspace a →
            words (norm a) = filter Boolean (norm <$> words a)).
  { intros a Ha. rewrite !words_nonspace by auto using normalize_nonspace.
    destruct (decide (a = [])) as [->|Hne].
    - rewrite normalize_nil. done.
    - simpl. destruct (decide (norm a = [])) as [He|He].
      + by rewrite filter_cons_False by (unfold Boolean; tauto).
      + by rewrite filter_cons_True by done. }
  destruct (span_nonspace T) as [HT | (a & c & b & -> & Ha & Hc)];
    [by apply Hrun|].
  rewrite normalize_cut by done.
  rewrite !words_cut by auto using normalize_nonspace.
  rewrite fmap_app, filter_app, Hrun by done. f_equal.
  apply IH. rewrite length_app. simpl. lia.
Qed.

(** C2: a word is marked correct iff its normal form, in the words of
    the specification, is one of the spoken tokens, in the words of the
    specification; so both words of "Hello, World!" are correct for the
    transcript "hello world". *)
Theorem isCorrect_iff_normal_form_spoken :
  (∀ R T i w, display_words_spec R !! i = Some w →
     ∃ r, compare R T !! i = Some r ∧ word r = w ∧
          (isCorrect r = true ↔ norm_spec w ∈ spoken_tokens_spec toLowerCase T))
  ∧ compare (lit "Hello, World!") (lit "hello world")
    = [ {| word := lit "Hello,"; isCorrect := true |};
        {| word := lit "World!"; isCorrect := true |} ].
Proof.
  split.
  - intros R T i w Hw. rewrite <- words_display_words_spec in Hw.
    eexists. split.
    + rewrite comparePronunciation_eq, list_lookup_fmap, Hw. reflexivity.
    + split; [done|]. simpl. unfold spoken_tokens_spec.
      rewrite <- words_display_words_spec, !normalize_spec_eq.
      apply bool_decide_eq_true.
  - rewrite comparePronunciation_eq.
    unfold normalize.
    change (words (lit "Hello, World!")) with [lit "Hello,"; lit "World!"].
    simpl fmap.
    rewrite !toLowerCase_ascii
      by (repeat constructor).
    vm_compute. reflexivity.
Qed.

(** C3: two transcripts with the same words, in any order and however
    separated, give the same flags. *)
Theorem isCorrect_permutation R T T' :
  display_words_spec T ≡ₚ display_words_spec T' →
  isCorrect <$> compare R T = isCorrect <$> compare R T'.
Proof.
  rewrite <- !words_display_words_spec.
  intros HP. rewrite !comparePronunciation_eq, <- !list_fmap_compose.
  apply list_fmap_ext. intros _ w _. simpl.
  apply bool_decide_ext. rewrite !words_normalize.
  by rewrite HP.
Qed.

(** C4: an empty original text gives the empty result; against an empty
    transcript every word of the original text is marked incorrect,
    as for "cat". *)
Theorem comparePronunciation_empty :
  (∀ T, compare [] T = []) ∧
  (∀ R, R ≠ [] →
        compare R []
        = (λ w, {| word := w; isCorrect := false |}) <$> display_words_spec R) ∧
  compare (lit "cat") [] = [ {| word := lit "cat"; isCorrect := false |} ].
Proof.
  assert (H : ∀ R, compare R []
            = (λ w, {| word := w; isCorrect := false |}) <$> words R).
  { intros R. rewrite comparePronunciation_eq. apply list_fmap_ext.
    intros _ w _. f_equal. apply bool_decide_eq_false.
    rewrite normalize_nil, words_nil. apply not_elem_of_nil. }
  split; [|split].
  - intros T. by rewrite comparePronunciation_eq.
  - intros R _. rewrite <- words_display_words_spec. apply H.
  - rewrite H. reflexivity.
Qed.

End LowerCaseFacts.

End ComparatorFacts.

(** ** The comparator on Basic Latin text *)

Example compare_quick_fox :
  comparePronunciation asciiLowerCase (lit "The quick brown fox")
                       (lit "quick fox the brown")
  = [ {| word := lit "The"; isCorrect := true |};
      {| word := lit "quick"; isCorrect := true |};
      {| word := lit "brown"; isCorrect := true |};
      {| word := lit "fox"; isCorrect := true |} ].
Proof. vm_compute. reflexivity. Qed.

Lemma is_space_not_upper c :
  is_space c = true → (0x41 <=? c) && (c <=? 0x5a) = false.
Proof.
  unfold is_space. rewrite !orb_true_iff, andb_true_iff, andb_false_iff.
  rewrite !N.eqb_eq, !N.leb_le, !N.leb_gt. lia.
Qed.

Lemma ascii_lower_space c : is_space c = true → ascii_lower c = c.
Proof. intros H. unfold ascii_lower. by rewrite is_space_not_upper. Qed.

Lemma ascii_lower_nonspace c : nonspace c → nonspace (ascii_lower c).
Proof.
  unfold nonspace, ascii_lower. intros H.
  destruct ((0x41 <=? c) && (c <=? 0x5a)) eqn:Hu; [|done].
  apply andb_true_iff in Hu. rewrite !N.leb_le in Hu.
  apply not_true_is_false. unfold is_space.
  rewrite !orb_true_iff, andb_true_iff, !N.eqb_eq, !N.leb_le. lia.
Qed.

Lemma strip_pattern_space c : is_space c = true → strip_pattern c = false.
Proof.
  intros H. unfold strip_pattern. rewrite H, orb_true_r. simpl.
  apply N.eqb_neq. intros ->. done.
Qed.

Lemma asciiLowerCase_nil : asciiLowerCase [] = [].
Proof. reflexivity. Qed.

Lemma asciiLowerCase_ascii s :
  Forall (λ c, c < 0x80) s → asciiLowerCase s = ascii_lower <$> s.
Proof. reflexivity. Qed.

Lemma asciiLowerCase_nonspace s :
  Forall nonspace s → Forall nonspace (asciiLowerCase s).
Proof.
  unfold asciiLowerCase. rewrite Forall_fmap. intros H.
  eapply Forall_impl; [exact H|]. apply ascii_lower_nonspace.
Qed.

Lemma asciiLowerCase_cut a c b :
  Forall nonspace a → is_space c = true →
  normalize asciiLowerCase (a ++ c :: b)
  = normalize asciiLowerCase a ++ c :: normalize asciiLowerCase b.
Proof.
  intros _ Hc. unfold normalize, asciiLowerCase, replace_all_empty.
  rewrite fmap_app, filter_app, fmap_cons, ascii_lower_space by done.
  by rewrite filter_cons_True by (by apply strip_pattern_space).
Qed.

Lemma empty_normal_form_incorrect_witness :
  display_words_spec (lit "oh !!! no") !! 1%nat = Some (lit "!!!") ∧
  normalize asciiLowerCase (lit "!!!") = [] ∧
  comparePronunciation asciiLowerCase (lit "oh !!! no") (lit "oh ??? no") !! 1%nat
  = Some {| word := lit "!!!"; isCorrect := false |}.
Proof.
  split; [reflexivity|]. split; [reflexivity|].
  apply (empty_normal_form_incorrect asciiLowerCase
           (lit "oh !!! no") (lit "oh ??? no") 1 (lit "!!!"));
    reflexivity.
Defined.

Lemma isCorrect_iff_normal_form_spoken_witness :
  comparePronunciation asciiLowerCase (lit "Hello, World!") (lit "hello world")
  = [ {| word := lit "Hello,"; isCorrect := true |};
      {| word := lit "World!"; isCorrect := true |} ].
Proof.
  exact (proj2 (isCorrect_iff_normal_form_spoken asciiLowerCase
                  asciiLowerCase_ascii)).
Defined.

Lemma isCorrect_permutation_witness :
  display_words_spec (lit "red ball") ≡ₚ display_words_spec (lit " ball   red") ∧
  isCorrect <$> comparePronunciation asciiLowerCase (lit "red ball") (lit "red ball")
  = isCorrect <$> comparePronunciation asciiLowerCase (lit "red ball") (lit " ball   red").
Proof.
  assert (H : display_words_spec (lit "red ball")
              ≡ₚ display_words_spec (lit " ball   red")).
  { change ([lit "red"; lit "ball"] ≡ₚ [lit "ball"; lit "red"]).
    apply perm_swap. }
  split; [exact H|].
  apply (isCorrect_permutation asciiLowerCase asciiLowerCase_nil
           asciiLowerCase_nonspace asciiLowerCase_cut
           (lit "red ball") (lit "red ball") (lit " ball   red") H).
Defined.

Lemma comparePronunciation_empty_witness :
  comparePronunciation asciiLowerCase (lit "cat") []
  = [ {| word := lit "cat"; isCorrect := false |} ].
Proof.
  exact (proj2 (proj2 (comparePronunciation_empty asciiLowerCase
                         asciiLowerCase_nil))).
Defined.

(** ** Bulk generation on small decks *)

Lemma deck_has_string_id_and_text cards :
  Forall has_string_id_and_text (obj_of_FlashcardItem <$> cards).
Proof.
  rewrite Forall_fmap. apply Forall_true. intros c.
  by exists (id c), (text c).
Qed.

(** ** Import and export on small decks *)

Lemma deck_without_text_invalid v :
  JSON_parse deck_without_text = Some v → ¬ valid_deck v.
Proof.
  intros Hv. vm_compute in Hv. injection Hv as <-.
  intros (items & [= <-] & HF).
  apply Forall_cons in HF as [[_ (fields & v & [= <-] & Hget)] _].
  vm_compute in Hget. discriminate.
Qed.

(** The deck [[{"id":"a"}]] is rejected, from a file and from a URL: the
    collection stays and an error shows. *)
Lemma import_replaces_or_keeps_witness :
  rejected (state_of [card_dog])
    (handleImport v8_message (FileLoaded (Some deck_without_text))
                  (state_of [card_dog])) ∧
  rejected (url_state [card_dog])
    (handleImportFromUrl v8_message (fetch_ok deck_without_text)
                         (url_state [card_dog])).
Proof.
  split.
  - destruct (import_replaces_or_keeps v8_message deck_without_text
                (state_of [card_dog])) as [[_ Hrej] _].
    apply Hrej, deck_without_text_invalid.
  - destruct (import_replaces_or_keeps v8_message deck_without_text
                (url_state [card_dog])) as [_ Hurl].
    destruct (Hurl (fetch_ok deck_without_text) (lit "OK")) as [_ Hrej];
      [done | reflexivity |].
    apply Hrej, deck_without_text_invalid.
Defined.

(** Against C6 as stated: a deck whose [id] is a number and whose [text]
    is [null] is accepted and becomes the collection. *)
Lemma import_accepts_non_string_fields :
  ∃ items,
    JSON_parse deck_without_strings = Some (JArray items) ∧
    replaced_by items
      (handleImport v8_message (FileLoaded (Some deck_without_strings))
                    (state_of [card_dog])) ∧
    ¬ Forall (λ item, has_string_field (lit "id") item ∧
                      has_string_field (lit "text") item) items.
Proof.
  eexists. split; [vm_compute; reflexivity|].
  split; [split; vm_compute; reflexivity|].
  intros HF. apply Forall_cons in HF as [[(fields & s & [= <-] & Hget) _] _].
  vm_compute in Hget. discriminate.
Qed.

Lemma import_accepted_iff_fields_defined_witness :
  error (handleImportFromUrl v8_message (fetch_ok deck_without_strings)
                             (url_state [card_dog])) = None.
Proof.
  destruct (import_accepted_iff_fields_defined v8_message deck_without_strings
              (url_state [card_dog])) as [_ Hurl].
  apply (Hurl (fetch_ok deck_without_strings) (lit "OK")); [done | reflexivity |].
  eexists. split; [vm_compute; reflexivity|].
  eexists. split; [reflexivity|].
  repeat constructor; eexists _, _; (split; [reflexivity|]); reflexivity.
Defined.

Lemma export_import_roundtrip_witness :
  ∃ doc,
    handleExport (state_of [card_dog; card_cat_loading])
    = (state_of [card_dog; card_cat_loading], Some doc) ∧
    flashcards (handleImport v8_message (FileLoaded (Some doc)) empty_state)
    = obj_of_FlashcardItem <$> [card_dog; card_cat_loading] ∧
    error (handleImport v8_message (FileLoaded (Some doc)) empty_state) = None.
Proof.
  apply (export_import_roundtrip v8_message [card_dog; card_cat_loading]
           (state_of [card_dog; card_cat_loading]) empty_state);
    [done | reflexivity].
Defined.

(** An empty collection is not exported: an error shows instead. *)
Example handleExport_empty :
  handleExport empty_state
  = (setError (Some (lit "There are no flashcards to export.")) empty_state, None).
Proof. reflexivity. Qed.

(** * More on the pronunciation comparator *)

Section ComparatorMore.

Variable toLowerCase : jsstring → jsstring.
Hypothesis toLowerCase_nil : toLowerCase [] = [].
Hypothesis toLowerCase_nonspace :
  ∀ s, Forall nonspace s → Forall nonspace (toLowerCase s).
Hypothesis normalize_cut :
  ∀ a c b, Forall nonspace a → is_space c = true →
           normalize toLowerCase (a ++ c :: b)
           = normalize toLowerCase a ++ c :: normalize toLowerCase b.

Local Abbreviation norm := (normalize toLowerCase).
Local Abbreviation compare := (comparePronunciation toLowerCase).

(** The spoken tokens are the non-empty normal forms of the words of the
    transcript. *)
Lemma spoken_tokens_words T w :
  w ∈ words (norm T) ↔ w ≠ [] ∧ ∃ t, t ∈ display_words_spec T ∧ w = norm t.
Proof.
  rewrite (words_normalize toLowerCase toLowerCase_nil toLowerCase_nonspace
             normalize_cut).
  rewrite list_elem_of_filter, list_elem_of_fmap, <- words_display_words_spec.
  unfold Boolean. split.
  - intros [? (t & -> & ?)]. eauto.
  - intros [? (t & ? & ->)]. eauto.
Qed.

(** Saying more never hurts, and saying a word again changes nothing: when
    every word of one transcript is a word of another, every word marked
    correct against the first is marked correct against the second; so two
    transcripts with the same set of words give the same flags. *)
Theorem isCorrect_monotone R T T' :
  (∀ t, t ∈ display_words_spec T → t ∈ display_words_spec T') →
  (∀ i r, compare R T !! i = Some r → isCorrect r = true →
          compare R T' !! i = Some {| word := word r; isCorrect := true |}) ∧
  ((∀ t, t ∈ display_words_spec T' → t ∈ display_words_spec T) →
   compare R T = compare R T').
Proof.
  intros Hsub.
  assert (Hmono : ∀ U U' w,
            (∀ t, t ∈ display_words_spec U → t ∈ display_words_spec U') →
            norm w ∈ words (norm U) → norm w ∈ words (norm U')).
  { intros U U' w HU. rewrite !spoken_tokens_words.
    intros [? (t & ? & ?)]. eauto. }
  split.
  - intros i r. rewrite !comparePronunciation_eq, !list_lookup_fmap.
    destruct (words R !! i) as [w|]; simpl; [|done].
    intros [= <-]. simpl. intros Hc%bool_decide_eq_true.
    do 2 f_equal. apply bool_decide_eq_true. by eapply Hmono.
  - intros Hsup. rewrite !comparePronunciation_eq.
    apply list_fmap_ext. intros _ w _. f_equal.
    apply bool_decide_ext. split; by apply Hmono.
Qed.

(** Reading the text back to itself marks a word correct exactly when its
    normal form is not empty: a word of punctuation alone stays incorrect
    even then. *)
Theorem comparePronunciation_self R :
  compare R R
  = (λ w, {| word := w; isCorrect := bool_decide (norm w ≠ []) |})
      <$> display_words_spec R.
Proof.
  rewrite comparePronunciation_eq, <- words_display_words_spec.
  apply list_fmap_ext. intros i w Hw. f_equal.
  apply bool_decide_ext. rewrite spoken_tokens_words. split; [tauto|].
  intros Hne. split; [done|]. exists w. split; [|done].
  rewrite <- words_display_words_spec. by eapply list_elem_of_lookup_2.
Qed.

End ComparatorMore.

Lemma isCorrect_monotone_witness :
  comparePronunciation asciiLowerCase (lit "red ball") (lit "ball") !! 1%nat
  = Some {| word := lit "ball"; isCorrect := true |} ∧
  comparePronunciation asciiLowerCase (lit "red ball") (lit "a ball, a ball") !! 1%nat
  = Some {| word := lit "ball"; isCorrect := true |}.
Proof.
  split; [reflexivity|].
  apply (proj1 (isCorrect_monotone asciiLowerCase asciiLowerCase_nil
                  asciiLowerCase_nonspace asciiLowerCase_cut
                  (lit "red ball") (lit "ball") (lit "a ball, a ball")
                  ltac:(vm_compute; intros t Ht;
                        apply list_elem_of_singleton in Ht as ->;
                        apply elem_of_cons; right;
                        apply elem_of_cons; right;
                        apply elem_of_cons; right;
                        apply elem_of_cons; by left))
           1%nat {| word := lit "ball"; isCorrect := true |});
    reflexivity.
Defined.

Lemma comparePronunciation_self_witness :
  comparePronunciation asciiLowerCase (lit "Oh !!! no") (lit "Oh !!! no")
  = [ {| word := lit "Oh"; isCorrect := true |};
      {| word := lit "!!!"; isCorrect := false |};
      {| word := lit "no"; isCorrect := true |} ].
Proof.
  rewrite (comparePronunciation_self asciiLowerCase asciiLowerCase_nil
             asciiLowerCase_nonspace asciiLowerCase_cut).
  vm_compute. reflexivity.
Defined.

(** * Practice *)

Section PracticeFacts.

Variable toLowerCase : jsstring → jsstring.
Variable supported : bool.

Local Abbreviation step := (practice_step toLowerCase supported).
Local Abbreviation run := (practice_run toLowerCase supported).
Local Abbreviation click := (handlePracticeClick supported).

Lemma practice_step_transcript_and_result ev st :
  transcript_and_result toLowerCase st →
  transcript_and_result toLowerCase (step ev st).1.
Proof.
  intros H. destruct ev as [text| |text transcript|code|]; simpl; try done.
  - unfold handlePracticeClick.
    destruct supported; simpl; [|done].
    destruct (isRecording st); simpl; [done|]. by left.
  - right. by exists text, transcript.
Qed.

Lemma practice_run_cons ev evs st :
  run (ev :: evs) st
  = ((run evs (step ev st).1).1, (step ev st).2 ++ (run evs (step ev st).1).2).
Proof.
  cbn [practice_run]. destruct (step ev st) as [st1 cmds1]. cbn [fst snd].
  by destruct (run evs st1) as [st2 cmds2].
Qed.

Lemma practice_run_transcript_and_result evs : ∀ st,
  transcript_and_result toLowerCase st →
  transcript_and_result toLowerCase (run evs st).1.
Proof.
  induction evs as [|ev evs IH]; intros st H; [done|].
  rewrite practice_run_cons. simpl.
  by apply IH, practice_step_transcript_and_result.
Qed.

(** Whatever clicks and callbacks a fresh card has seen, in whatever order:
    the panel under its buttons is never shown empty, and an attempt it
    shows is the transcript with the comparison of a card text against
    that transcript. *)
Theorem practice_panel_consistent evs :
  match render_practice_panel (run evs idle_practice).1 with
  | PanelEmpty => False
  | PanelAttempt shown result =>
      ∃ text transcript,
        shown = Some transcript ∧
        result = comparePronunciation toLowerCase text transcript
  | _ => True
  end.
Proof.
  pose proof (practice_run_transcript_and_result evs idle_practice) as H.
  destruct H as [[Ht Hr]|(text & transcript & Ht & Hr)]; [by left| |];
    unfold render_practice_panel; rewrite Ht, Hr; simpl.
  - destruct (practiceError _) as [[|c m]|]; done.
  - rewrite orb_true_r.
    destruct (practiceError _) as [[|c m]|]; simpl; eauto.
Qed.

(** Without speech recognition no command is ever given to the platform,
    and a click changes nothing but the error message, which says so. *)
Theorem practice_unsupported :
  supported = false →
  (∀ evs st, (run evs st).2 = []) ∧
  (∀ text st,
     let st' := (click text st).1 in
     practiceError st'
     = Some (lit "Speech recognition is not supported in this browser.") ∧
     isRecording st' = isRecording st ∧
     userTranscript st' = userTranscript st ∧
     comparisonResult st' = comparisonResult st ∧
     recognitionRef st' = recognitionRef st) ∧
  (∀ item, practice_button_disabled supported item = true).
Proof.
  intros Hs. split; [|split].
  - induction evs as [|ev evs IH]; intros st; [done|].
    rewrite practice_run_cons. simpl. rewrite IH, app_nil_r.
    destruct ev; simpl; try done.
    unfold handlePracticeClick. by rewrite Hs.
  - intros text st. unfold handlePracticeClick. by rewrite Hs.
  - intros item. unfold practice_button_disabled. rewrite Hs.
    apply orb_true_r.
Qed.

(** While the card is recording, clicks start nothing: each asks the
    session at hand to stop, and the state stays as it is. *)
Theorem practice_clicks_while_recording evs st :
  supported = true → isRecording st = true → Forall is_click evs →
  run evs st
  = (st, match recognitionRef st with
         | Some session => replicate (length evs) (RecognitionStop session)
         | None => []
         end).
Proof.
  intros Hs Hrec. induction 1 as [|ev evs Hev _ IH].
  { simpl. by destruct (recognitionRef st). }
  assert (Hstep : step ev st
                  = (st, match recognitionRef st with
                         | Some session => [RecognitionStop session]
                         | None => []
                         end)).
  { destruct ev as [text| | | |]; try done. simpl.
    unfold handlePracticeClick. by rewrite Hs, Hrec. }
  rewrite practice_run_cons, Hstep. cbn [fst snd]. rewrite IH. cbn [fst snd].
  by destruct (recognitionRef st).
Qed.

(** A session from the click to its end: the click clears what the card
    showed and starts a session that is neither continuous nor interim;
    after the result and the end the card is idle again, holds no session,
    and shows the transcript with its comparison. *)
Theorem practice_session_result st text transcript :
  supported = true → isRecording st = false →
  let st' := (run [PracticeClick text; RecognitionOnStart;
                   RecognitionOnResult text transcript; RecognitionOnEnd] st).1 in
  (run [PracticeClick text] st).2
  = [RecognitionStart (sessions st) (lit "en-US") false false] ∧
  render_practice_panel (run [PracticeClick text] st).1 = PanelHidden ∧
  isRecording (run [PracticeClick text; RecognitionOnStart] st).1 = true ∧
  isRecording st' = false ∧ recognitionRef st' = None ∧
  render_practice_panel st'
  = PanelAttempt (Some transcript)
      (comparePronunciation toLowerCase text transcript).
Proof.
  intros Hs Hrec. simpl. unfold handlePracticeClick. rewrite Hs, Hrec. simpl.
  repeat split. unfold render_practice_panel. simpl.
  by rewrite orb_true_r.
Qed.

(** An error takes over the panel, whatever attempt was shown: a refused
    microphone gives one message under both of its codes, silence another,
    and any other code is shown as it is. *)
Theorem practice_error_shown st error :
  render_practice_panel (recognition_onerror error st)
  = PanelError (practice_error_message error) ∧
  practice_error_message (lit "not-allowed")
  = practice_error_message (lit "permission-denied") ∧
  (error ≠ lit "not-allowed" → error ≠ lit "permission-denied" →
   error ≠ lit "no-speech" →
   practice_error_message error = lit "Error: " ++ error) ∧
  userTranscript (recognition_onerror error st) = userTranscript st ∧
  comparisonResult (recognition_onerror error st) = comparisonResult st.
Proof.
  assert (Hne : ∃ c m, practice_error_message error = c :: m).
  { unfold practice_error_message.
    repeat case_match; eexists _, _; reflexivity. }
  destruct Hne as (c & m & Hm).
  split; [|split; [reflexivity|split; [|done]]].
  - unfold render_practice_panel. simpl. rewrite Hm. simpl.
    by rewrite orb_true_r.
  - intros H1 H2 H3. unfold practice_error_message.
    by rewrite !bool_decide_eq_false_2.
Qed.

End PracticeFacts.

Lemma practice_unsupported_witness :
  (practice_run asciiLowerCase false
     [PracticeClick (lit "Cat"); PracticeClick (lit "Cat")] idle_practice).2 = [].
Proof.
  apply (proj1 (practice_unsupported asciiLowerCase false eq_refl)).
Defined.

Lemma practice_clicks_while_recording_witness :
  practice_run asciiLowerCase true [PracticeClick (lit "Cat"); PracticeClick (lit "Cat")]
    (recognition_onstart (handlePracticeClick true (lit "Cat")
                            idle_practice).1)
  = (recognition_onstart (handlePracticeClick true (lit "Cat")
                            idle_practice).1,
     [RecognitionStop 0; RecognitionStop 0]).
Proof.
  apply (practice_clicks_while_recording asciiLowerCase true
           [PracticeClick (lit "Cat"); PracticeClick (lit "Cat")]
           (recognition_onstart (handlePracticeClick true
                                   (lit "Cat") idle_practice).1));
    [reflexivity | reflexivity | repeat constructor].
Defined.

Lemma practice_session_result_witness :
  render_practice_panel
    (practice_run asciiLowerCase true
       [PracticeClick (lit "Red ball"); RecognitionOnStart;
        RecognitionOnResult (lit "Red ball") (lit "ball"); RecognitionOnEnd]
       idle_practice).1
  = PanelAttempt (Some (lit "ball"))
      [ {| word := lit "Red"; isCorrect := false |};
        {| word := lit "ball"; isCorrect := true |} ].
Proof.
  destruct (practice_session_result asciiLowerCase true idle_practice
              (lit "Red ball") (lit "ball") eq_refl eq_refl)
    as (_ & _ & _ & _ & _ & H).
  rewrite H. vm_compute. reflexivity.
Defined.

Lemma practice_error_shown_witness :
  practice_error_message (lit "network") = lit "Error: network".
Proof.
  apply (practice_error_shown idle_practice (lit "network")); done.
Defined.

(** * More on image generation *)

Lemma strict_eq_string_targeted card id :
  strict_eq_string (get card (lit "id")) id = true ↔ targeted id card.
Proof.
  unfold strict_eq_string, targeted.
  destruct (get card (lit "id")) as [[|b|m e|s|items|fields]|]; try done.
  rewrite bool_decide_eq_true. split; congruence.
Qed.

Lemma get_id_set_isLoading card v :
  get (obj_set card (lit "isLoading") v) (lit "id") = get card (lit "id").
Proof. rewrite get_obj_set. by rewrite decide_False. Qed.

Lemma get_id_set_imageUrl card v :
  get (obj_set card (lit "imageUrl") v) (lit "id") = get card (lit "id").
Proof. rewrite get_obj_set. by rewrite decide_False. Qed.

(** The two updates of a generation that resolved, as one. *)
Lemma store_image_mark_loading id url prev :
  store_image id url (mark_loading id prev)
  = (λ card, if strict_eq_string (get card (lit "id")) id
             then obj_set (obj_set (obj_set card (lit "isLoading") (JBool true))
                                   (lit "imageUrl") (JString url))
                          (lit "isLoading") (JBool false)
             else card) <$> prev.
Proof.
  unfold store_image, mark_loading. rewrite <- list_fmap_compose.
  apply list_fmap_ext. intros _ card _. simpl.
  destruct (strict_eq_string (get card (lit "id")) id) eqn:Hid.
  - by rewrite get_id_set_isLoading, Hid.
  - by rewrite Hid.
Qed.

(** The two updates of a generation that was rejected, as one. *)
Lemma clear_loading_mark_loading id prev :
  clear_loading id (mark_loading id prev)
  = (λ card, if strict_eq_string (get card (lit "id")) id
             then obj_set (obj_set card (lit "isLoading") (JBool true))
                          (lit "isLoading") (JBool false)
             else card) <$> prev.
Proof.
  unfold clear_loading, mark_loading. rewrite <- list_fmap_compose.
  apply list_fmap_ext. intros _ card _. simpl.
  destruct (strict_eq_string (get card (lit "id")) id) eqn:Hid.
  - by rewrite get_id_set_isLoading, Hid.
  - by rewrite Hid.
Qed.

Section GenerationMore.

Variable World : Type.
Variable generateImageFromPrompt : jsstring → World → outcome * World.

Local Abbreviation generateImage := (handleGenerateImage World generateImageFromPrompt).
Local Abbreviation generateAll_loop := (handleGenerateAll_loop World generateImageFromPrompt).
Local Abbreviation generateAll := (handleGenerateAll World generateImageFromPrompt).
Local Abbreviation generateClick := (handleGenerateClick World generateImageFromPrompt).

Lemma handleGenerateImage_eq id prompt sys :
  generateImage id prompt sys =
  match generateImageFromPrompt (fullPrompt prompt) (world sys) with
  | (Resolved url, w) =>
      {| app := setFlashcards (store_image id url)
                  (setError None (setFlashcards (mark_loading id) (app sys)));
         world := w;
         trace := trace sys ++ [CallStarted (fullPrompt prompt);
                                CallSettled (Resolved url)] |}
  | (Rejected e, w) =>
      {| app := setFlashcards (clear_loading id)
                  (setError
                     (Some (lit "Failed to generate image for " ++ [quote]
                            ++ prompt ++ [quote] ++ lit ". " ++ errorMessage e))
                     (setError None (setFlashcards (mark_loading id) (app sys))));
         world := w;
         trace := trace sys ++ [CallStarted (fullPrompt prompt);
                                CallSettled (Rejected e)] |}
  end.
Proof.
  unfold handleGenerateImage, await_generateImageFromPrompt.
  cbn [world update_app].
  destruct (generateImageFromPrompt (fullPrompt prompt) (world sys)) as [[url|e] w];
    reflexivity.
Qed.

(** A generation that resolves: one call with the prompt in its template,
    no error shown, and every card with the given id holds the image and
    is not loading, its other properties and all other cards being as
    they were. *)
Theorem handleGenerateImage_resolved id prompt sys url w' :
  generateImageFromPrompt (fullPrompt prompt) (world sys) = (Resolved url, w') →
  let sys' := generateImage id prompt sys in
  world sys' = w' ∧
  trace sys'
  = trace sys ++ [CallStarted (fullPrompt prompt); CallSettled (Resolved url)] ∧
  error (app sys') = None ∧
  length (flashcards (app sys')) = length (flashcards (app sys)) ∧
  ∀ k card, flashcards (app sys) !! k = Some card →
    ∃ card', flashcards (app sys') !! k = Some card' ∧
      (¬ targeted id card → card' = card) ∧
      (targeted id card →
         get card' (lit "imageUrl") = Some (JString url) ∧
         get card' (lit "isLoading") = Some (JBool false) ∧
         ∀ key, key ≠ lit "imageUrl" → key ≠ lit "isLoading" →
                get card' key = get card key).
Proof.
  intros Hgen sys'. unfold sys'. rewrite handleGenerateImage_eq, Hgen.
  cbn [app world trace flashcards error setFlashcards setError].
  repeat split.
  { unfold store_image, mark_loading. by rewrite !length_fmap. }
  intros k card Hk. rewrite store_image_mark_loading, list_lookup_fmap, Hk.
  cbn [fmap option_fmap option_map]. eexists. split; [reflexivity|].
  destruct (strict_eq_string (get card (lit "id")) id) eqn:Hid.
  - split; [intros Hn; by apply strict_eq_string_targeted in Hid|].
    intros _. rewrite !get_obj_set.
    split; [by rewrite decide_False, decide_True|].
    split; [by rewrite decide_True|].
    intros key H1 H2. rewrite !get_obj_set. by rewrite !decide_False.
  - split; [done|]. intros Ht%strict_eq_string_targeted. congruence.
Qed.

(** A generation that is rejected: the error names the prompt and the
    reason, every card with the given id is not loading and keeps its
    image and its other properties, and all other cards are as they
    were. *)
Theorem handleGenerateImage_rejected id prompt sys e w' :
  generateImageFromPrompt (fullPrompt prompt) (world sys) = (Rejected e, w') →
  let sys' := generateImage id prompt sys in
  trace sys'
  = trace sys ++ [CallStarted (fullPrompt prompt); CallSettled (Rejected e)] ∧
  error (app sys')
  = Some (lit "Failed to generate image for " ++ [quote] ++ prompt ++ [quote]
          ++ lit ". " ++ errorMessage e) ∧
  length (flashcards (app sys')) = length (flashcards (app sys)) ∧
  ∀ k card, flashcards (app sys) !! k = Some card →
    ∃ card', flashcards (app sys') !! k = Some card' ∧
      (¬ targeted id card → card' = card) ∧
      (targeted id card →
         get card' (lit "isLoading") = Some (JBool false) ∧
         ∀ key, key ≠ lit "isLoading" → get card' key = get card key).
Proof.
  intros Hgen sys'. unfold sys'. rewrite handleGenerateImage_eq, Hgen.
  cbn [app world trace flashcards error setFlashcards setError].
  repeat split.
  { unfold clear_loading, mark_loading. by rewrite !length_fmap. }
  intros k card Hk. rewrite clear_loading_mark_loading, list_lookup_fmap, Hk.
  cbn [fmap option_fmap option_map]. eexists. split; [reflexivity|].
  destruct (strict_eq_string (get card (lit "id")) id) eqn:Hid.
  - split; [intros Hn; by apply strict_eq_string_targeted in Hid|].
    intros _. rewrite !get_obj_set.
    split; [by rewrite decide_True|].
    intros key H1. rewrite !get_obj_set. by rewrite !decide_False.
  - split; [done|]. intros Ht%strict_eq_string_targeted. congruence.
Qed.

End GenerationMore.

Lemma handleGenerateImage_resolved_witness :
  error (app (handleGenerateImage unit always_resolves (lit "audio/dog.mp3")
                (lit "Dog") (system_of [card_cat_loading; card_dog]))) = None.
Proof.
  apply (handleGenerateImage_resolved unit always_resolves (lit "audio/dog.mp3")
           (lit "Dog") (system_of [card_cat_loading; card_dog])
           (lit "data:image/png;base64,AAAA") () eq_refl).
Defined.

Lemma handleGenerateImage_rejected_witness :
  error (app (handleGenerateImage unit always_rejects (lit "audio/dog.mp3")
                (lit "Dog") (system_of [card_cat_loading; card_dog])))
  = Some (lit "Failed to generate image for " ++ [quote] ++ lit "Dog" ++ [quote]
          ++ lit ". " ++ lit "quota exceeded").
Proof.
  apply (handleGenerateImage_rejected unit always_rejects (lit "audio/dog.mp3")
           (lit "Dog") (system_of [card_cat_loading; card_dog])
           (ErrorObject (lit "quota exceeded")) () eq_refl).
Defined.

(** ** Bulk generation and the generate button *)

Section GenerationBulk.

Variable World : Type.
Variable generateImageFromPrompt : jsstring → World → outcome * World.

Local Abbreviation generateImage := (handleGenerateImage World generateImageFromPrompt).
Local Abbreviation generateAll_loop := (handleGenerateAll_loop World generateImageFromPrompt).
Local Abbreviation generateAll := (handleGenerateAll World generateImageFromPrompt).
Local Abbreviation generateClick := (handleGenerateClick World generateImageFromPrompt).





(** What one generation leaves of a card, whatever the service answers. *)
Lemma handleGenerateImage_keeps id prompt sys :
  length (flashcards (app (generateImage id prompt sys)))
  = length (flashcards (app sys)) ∧
  ∀ k card, flashcards (app sys) !! k = Some card →
    ∃ card', flashcards (app (generateImage id prompt sys)) !! k = Some card' ∧
      ∀ key, key ≠ lit "imageUrl" → key ≠ lit "isLoading" →
             get card' key = get card key.
Proof.
  rewrite handleGenerateImage_eq.
  destruct (generateImageFromPrompt (fullPrompt prompt) (world sys))
    as [[url|e] w];
    cbn [app flashcards setFlashcards setError];
    [rewrite store_image_mark_loading | rewrite clear_loading_mark_loading];
    (split; [by rewrite length_fmap|]);
    intros k card Hk; rewrite list_lookup_fmap, Hk;
    cbn [fmap option_fmap option_map]; (eexists; split; [reflexivity|]);
    intros key H1 H2;
    destruct (strict_eq_string (get card (lit "id")) id); try done;
    rewrite !get_obj_set; by rewrite !decide_False.
Qed.

Lemma handleGenerateAll_loop_keeps cards : ∀ sys sys',
  generateAll_loop cards sys = Some sys' →
  length (flashcards (app sys')) = length (flashcards (app sys)) ∧
  ∀ k card, flashcards (app sys) !! k = Some card →
    ∃ card', flashcards (app sys') !! k = Some card' ∧
      ∀ key, key ≠ lit "imageUrl" → key ≠ lit "isLoading" →
             get card' key = get card key.
Proof.
  induction cards as [|c cards IH]; intros sys sys'; cbn [handleGenerateAll_loop].
  { intros [= <-]. split; [done|]. eauto. }
  destruct (falsy (get c (lit "imageUrl")) && falsy (get c (lit "isLoading")));
    [|apply IH].
  destruct (string_argument (get c (lit "id"))) as [i|]; [|done].
  destruct (string_argument (get c (lit "text"))) as [t|]; [|done].
  intros [Hlen Hcards]%IH.
  destruct (handleGenerateImage_keeps i t sys) as [Hlen1 Hcards1].
  split; [congruence|]. intros k card Hk.
  destruct (Hcards1 k card Hk) as (card1 & Hk1 & Hkeep1).
  destruct (Hcards k card1 Hk1) as (card' & Hk' & Hkeep).
  exists card'. split; [done|]. intros key H1 H2.
  rewrite Hkeep, Hkeep1; done.
Qed.

(** Generation changes images and loading flags only: when bulk
    generation has completed, the collection has the cards it had, in
    their order, and every card has its [id], [text], [audioUrl] and any
    other property but [imageUrl] and [isLoading] as before. *)
Theorem handleGenerateAll_keeps sys sys' :
  generateAll sys = Some sys' →
  length (flashcards (app sys')) = length (flashcards (app sys)) ∧
  ∀ k card, flashcards (app sys) !! k = Some card →
    ∃ card', flashcards (app sys') !! k = Some card' ∧
      ∀ key, key ≠ lit "imageUrl" → key ≠ lit "isLoading" →
             get card' key = get card key.
Proof. apply handleGenerateAll_loop_keeps. Qed.

(** *** Running bulk generation again *)

Lemma falsy_nonempty_string url : url ≠ [] → falsy (Some (JString url)) = false.
Proof. intros H. simpl. by apply bool_decide_eq_false. Qed.

Lemma generateAll_loop_skips cards : ∀ sys,
  Forall has_image_or_loads cards → generateAll_loop cards sys = Some sys.
Proof.
  induction 1 as [|card cards Hc _ IH]; cbn [handleGenerateAll_loop]; [done|].
  fold (lacks_image_and_not_loading card). by rewrite Hc.
Qed.

Lemma generateAll_loop_resolving rest : ∀ pre cur sys sys',
  always_resolving generateImageFromPrompt →
  flashcards (app sys) = pre ++ cur →
  Forall has_image_or_loads pre →
  Forall2 (λ c s, get c (lit "id") = get s (lit "id") ∧
                  (lacks_image_and_not_loading c = true →
                   lacks_image_and_not_loading s = true)) cur rest →
  generateAll_loop rest sys = Some sys' →
  Forall has_image_or_loads (flashcards (app sys')).
Proof.
  induction rest as [|s rest IH]; intros pre cur sys sys' Hres Hfl Hpre Hcur.
  { apply Forall2_nil_inv_r in Hcur as ->. intros [= <-].
    by rewrite Hfl, app_nil_r. }
  apply Forall2_cons_inv_r in Hcur as (c & cur' & [Hid Hel] & Hcur & ->).
  cbn [handleGenerateAll_loop]. fold (lacks_image_and_not_loading s).
  destruct (lacks_image_and_not_loading s) eqn:Hs.
  - destruct (string_argument (get s (lit "id"))) as [i|] eqn:Hi; [|done].
    destruct (string_argument (get s (lit "text"))) as [t|]; [|done].
    destruct (Hres (fullPrompt t) (world sys)) as (url & w' & Hgen & Hurl).
    set (g := λ card : obj,
           if strict_eq_string (get card (lit "id")) i
           then obj_set (obj_set (obj_set card (lit "isLoading") (JBool true))
                                 (lit "imageUrl") (JString url))
                        (lit "isLoading") (JBool false)
           else card).
    assert (Hg : flashcards (app (generateImage i t sys)) = g <$> (pre ++ c :: cur')).
    { rewrite handleGenerateImage_eq, Hgen.
      cbn [app flashcards setFlashcards setError].
      by rewrite store_image_mark_loading, Hfl. }
    assert (Hgid : ∀ card, get (g card) (lit "id") = get card (lit "id")).
    { intros card. unfold g.
      destruct (strict_eq_string (get card (lit "id")) i); [|done].
      by rewrite get_id_set_isLoading, get_id_set_imageUrl, get_id_set_isLoading. }
    assert (Hgel : ∀ card, lacks_image_and_not_loading (g card) = true →
                           g card = card).
    { intros card. unfold g.
      destruct (strict_eq_string (get card (lit "id")) i); [|done].
      unfold lacks_image_and_not_loading. rewrite !get_obj_set.
      rewrite decide_False, decide_True by done.
      by rewrite falsy_nonempty_string. }
    assert (Hgkeep : ∀ card, has_image_or_loads card → has_image_or_loads (g card)).
    { unfold has_image_or_loads. intros card Hc.
      destruct (lacks_image_and_not_loading (g card)) eqn:Hgc; [|done].
      apply Hgel in Hgc as Heq. congruence. }
    apply (IH (g <$> (pre ++ [c])) (g <$> cur')); [done | | | ].
    + rewrite Hg, <- fmap_app, <- app_assoc. done.
    + rewrite fmap_app. apply Forall_app. split.
      * rewrite Forall_fmap. eapply Forall_impl; [exact Hpre|]. apply Hgkeep.
      * repeat constructor.
        assert (Hc : strict_eq_string (get c (lit "id")) i = true).
        { rewrite Hid. destruct (get s (lit "id")) as [[| | |s0| |]|];
            simplify_eq/=. by apply bool_decide_eq_true. }
        unfold has_image_or_loads, lacks_image_and_not_loading, g.
        rewrite Hc, !get_obj_set.
        rewrite decide_False, decide_True by done.
        by rewrite falsy_nonempty_string.
    + rewrite Forall2_fmap_l. eapply Forall2_impl; [exact Hcur|].
      intros x y [Hxy Hxel]. split; [by rewrite Hgid|].
      intros Hgx. apply Hxel. by rewrite <- (Hgel x Hgx).
  - apply (IH (pre ++ [c]) cur'); [done | | | done].
    + by rewrite Hfl, <- app_assoc.
    + apply Forall_app. split; [done|]. repeat constructor.
      unfold has_image_or_loads.
      destruct (lacks_image_and_not_loading c);
        [by specialize (Hel eq_refl) | done].
Qed.

(** When the image service resolves every call with a URL that is not
    empty, bulk generation leaves no card without an image that is not
    loading, and running it again makes no call and changes nothing. *)
Theorem handleGenerateAll_again sys sys' :
  always_resolving generateImageFromPrompt →
  generateAll sys = Some sys' →
  Forall (λ card, lacks_image_and_not_loading card = false)
         (flashcards (app sys')) ∧
  generateAll sys' = Some sys'.
Proof.
  intros Hres Hrun.
  assert (H : Forall has_image_or_loads (flashcards (app sys'))).
  { apply (generateAll_loop_resolving (flashcards (app sys)) []
             (flashcards (app sys)) sys sys'); [done | done | constructor | | done].
    apply Forall2_same_length_lookup. split; [done|].
    intros k x y Hx Hy. by simplify_eq. }
  split; [exact H|]. by apply generateAll_loop_skips.
Qed.

(** *** When every call is rejected *)

Lemma obj_of_FlashcardItem_rollback c :
  isLoading c = false →
  obj_set (obj_set (obj_of_FlashcardItem c) (lit "isLoading") (JBool true))
          (lit "isLoading") (JBool false)
  = obj_of_FlashcardItem c.
Proof. destruct c as [i t a u l]. simpl. intros ->. reflexivity. Qed.

Lemma generateAll_loop_rejecting (deck : list FlashcardItem) rest : ∀ sys,
  always_rejecting generateImageFromPrompt →
  Forall (λ c, isLoading c = false) deck →
  flashcards (app sys) = obj_of_FlashcardItem <$> deck →
  Forall has_string_id_and_text rest →
  ∃ sys', generateAll_loop rest sys = Some sys' ∧
          flashcards (app sys') = obj_of_FlashcardItem <$> deck.
Proof.
  intros sys Hrej Hdeck. revert sys.
  induction rest as [|s rest IH]; intros sys Hfl Hrest; [by exists sys|].
  apply Forall_cons in Hrest as [(i & t & Hi & Ht) Hrest].
  cbn [handleGenerateAll_loop].
  destruct (falsy (get s (lit "imageUrl")) && falsy (get s (lit "isLoading")));
    [|by apply IH].
  rewrite Hi, Ht. cbn [string_argument]. apply IH; [|done].
  destruct (Hrej (fullPrompt t) (world sys)) as (e & w' & Hgen).
  rewrite handleGenerateImage_eq, Hgen.
  cbn [app flashcards setFlashcards setError].
  rewrite clear_loading_mark_loading, Hfl, <- list_fmap_compose.
  apply list_fmap_ext. intros k c Hk. cbn beta. unfold compose.
  destruct (strict_eq_string (get (obj_of_FlashcardItem c) (lit "id")) i);
    [|done].
  apply obj_of_FlashcardItem_rollback.
  eapply Forall_lookup_1 in Hdeck; eauto.
Qed.

(** When the image service rejects every call, bulk generation over a
    collection of flashcards none of which is loading completes and
    leaves the collection exactly as it was. *)
Theorem handleGenerateAll_rejected (deck : list FlashcardItem) sys :
  always_rejecting generateImageFromPrompt →
  Forall (λ c, isLoading c = false) deck →
  flashcards (app sys) = obj_of_FlashcardItem <$> deck →
  ∃ sys', generateAll sys = Some sys' ∧
          flashcards (app sys') = flashcards (app sys).
Proof.
  intros Hrej Hdeck Hfl. unfold handleGenerateAll. rewrite Hfl.
  apply generateAll_loop_rejecting; [done | done | done |].
  rewrite Forall_fmap. apply Forall_true. intros c.
  by exists (id c), (text c).
Qed.

End GenerationBulk.

Lemma always_resolves_resolving : always_resolving always_resolves.
Proof. intros p w. by eexists _, _. Qed.

Lemma always_rejects_rejecting : always_rejecting always_rejects.
Proof. intros p w. by eexists _, _. Qed.



(** Where two cards have the same [id] the clicks do less: the first
    generation gives both cards the image, and the button of the second
    is disabled when its turn comes. *)
Example click_each_repeated_id :
  (λ sys, length (started (trace sys)))
    <$> handleGenerateAll unit always_resolves (system_of [card_dog; card_dog])
  = Some 2%nat ∧
  (λ sys, length (started (trace sys)))
    <$> click_each unit always_resolves (system_of [card_dog; card_dog])
  = Some 1%nat.
Proof. split; vm_compute; reflexivity. Qed.

Lemma handleGenerateAll_keeps_witness :
  match handleGenerateAll unit always_resolves
          (system_of [card_cat_loading; card_dog]) with
  | Some sys' => length (flashcards (app sys')) = 2%nat
  | None => False
  end.
Proof.
  destruct (handleGenerateAll unit always_resolves
              (system_of [card_cat_loading; card_dog])) as [sys'|] eqn:H.
  - apply (proj1 (handleGenerateAll_keeps unit always_resolves _ _ H)).
  - vm_compute in H. discriminate.
Defined.

Lemma handleGenerateAll_again_witness :
  match handleGenerateAll unit always_resolves
          (system_of [card_cat_loading; card_dog]) with
  | Some sys' => handleGenerateAll unit always_resolves sys' = Some sys'
  | None => False
  end.
Proof.
  destruct (handleGenerateAll unit always_resolves
              (system_of [card_cat_loading; card_dog])) as [sys'|] eqn:H.
  - apply (handleGenerateAll_again unit always_resolves _ _
             always_resolves_resolving H).
  - vm_compute in H. discriminate.
Defined.

Lemma handleGenerateAll_rejected_witness :
  ∃ sys', handleGenerateAll unit always_rejects (system_of [card_dog; card_dog])
          = Some sys' ∧
          flashcards (app sys') = flashcards (app (system_of [card_dog; card_dog])).
Proof.
  apply (handleGenerateAll_rejected unit always_rejects [card_dog; card_dog]
           (system_of [card_dog; card_dog]) always_rejects_rejecting).
  - repeat constructor.
  - reflexivity.
Defined.

(** * More on import and export *)

Section DeckMore.

Variable engine_message : engine_error → jsstring.

Local Abbreviation import := (handleImport engine_message).
Local Abbreviation importFromUrl := (handleImportFromUrl engine_message).

Lemma check_imported_objects message v v' :
  check_imported engine_message message v = inr v' →
  Forall (λ card, fields_defined (JObject card)) (objects_of (elements v')) ∧
  JObject <$> objects_of (elements v') = elements v'.
Proof.
  intros Hc. pose proof (check_imported_spec engine_message message v) as H.
  rewrite Hc in H. destruct H as [-> (items & -> & HF)]. simpl.
  pose proof (objects_of_fields_defined items HF) as Hobj.
  split; [|done]. rewrite <- Hobj in HF. by rewrite Forall_fmap in HF.
Qed.

(** What an attempt to import does to the state, by its outcome. *)
Lemma handleImport_onload_cases result st :
  (flashcards (import (FileLoaded result) st) = flashcards st ∧
   is_Some (error (import (FileLoaded result) st))) ∨
  (deck_invariant (import (FileLoaded result) st) ∧
   error (import (FileLoaded result) st) = None).
Proof.
  unfold handleImport, handleImport_onload, JSON_parse_or_throw.
  destruct result as [text|]; [|left; simpl; eauto].
  destruct (JSON_parse text) as [v|]; [|left; simpl; eauto].
  destruct (check_imported _ _ v) as [e|v'] eqn:Hc; [left; simpl; eauto|].
  right. split; [|done]. by apply check_imported_objects in Hc as [? _].
Qed.

Lemma handleImportFromUrl_cases fetch st :
  importUrl st ≠ [] →
  isImportingUrl (importFromUrl fetch st) = false ∧
  ((flashcards (importFromUrl fetch st) = flashcards st ∧
    is_Some (error (importFromUrl fetch st)) ∧
    importUrl (importFromUrl fetch st) = importUrl st) ∨
   (deck_invariant (importFromUrl fetch st) ∧
    error (importFromUrl fetch st) = None ∧
    importUrl (importFromUrl fetch st) = [])).
Proof.
  intros Hurl. unfold handleImportFromUrl, JSON_parse_or_throw.
  rewrite bool_decide_eq_false_2 by done.
  cbn [importUrl setError setIsImportingUrl].
  destruct (fetch (importUrl st)) as [e|ok statusText body];
    [split; [done|]; left; simpl; eauto|].
  destruct ok; cbn [negb]; [|split; [done|]; left; simpl; eauto].
  destruct (JSON_parse body) as [v|]; [|split; [done|]; left; simpl; eauto].
  destruct (check_imported _ _ v) as [e|v'] eqn:Hc;
    [split; [done|]; left; simpl; eauto|].
  split; [done|]. right. split; [|done].
  by apply check_imported_objects in Hc as [? _].
Qed.

(** Whatever is imported, from a file or from a URL, and however the
    attempt ends, a collection in which every card has an [id] and a
    [text] stays such a collection. *)
Theorem import_keeps_deck_invariant st :
  deck_invariant st →
  (∀ ev, deck_invariant (import ev st)) ∧
  (∀ fetch, deck_invariant (importFromUrl fetch st)).
Proof.
  intros Hinv. split.
  - intros [| |result]; [done | done |].
    destruct (handleImport_onload_cases result st) as [[Hfl _]|[H _]]; [|done].
    unfold deck_invariant. by rewrite Hfl.
  - intros fetch. destruct (decide (importUrl st = [])) as [He|Hne].
    + unfold handleImportFromUrl. by rewrite bool_decide_eq_true_2.
    + destruct (handleImportFromUrl_cases fetch st Hne) as [_ [[Hfl _]|[H _]]];
        [|done].
      unfold deck_invariant. by rewrite Hfl.
Qed.

(** An import from a URL: without a URL there is no request, only an
    error; with one, the importing flag is down at the end however the
    request went, and the URL field is emptied exactly when the import was
    accepted, so that a failed import can be tried again. *)
Theorem handleImportFromUrl_flags fetch st :
  (importUrl st = [] →
   importFromUrl fetch st
   = setError (Some (lit "Please enter a URL to import.")) st) ∧
  (importUrl st ≠ [] →
   isImportingUrl (importFromUrl fetch st) = false ∧
   (error (importFromUrl fetch st) = None →
    importUrl (importFromUrl fetch st) = []) ∧
   (error (importFromUrl fetch st) ≠ None →
    importUrl (importFromUrl fetch st) = importUrl st ∧
    flashcards (importFromUrl fetch st) = flashcards st)).
Proof.
  split.
  - intros He. unfold handleImportFromUrl. by rewrite bool_decide_eq_true_2.
  - intros Hne.
    destruct (handleImportFromUrl_cases fetch st Hne)
      as [Hflag [(Hfl & [e He] & Hu)|(_ & He & Hu)]].
    + split; [done|]. split; [congruence | done].
    + split; [done|]. split; [done | congruence].
Qed.

(** A response that is not ok is not read: whatever its body, the
    collection stays and the error carries the status text; a request that
    fails carries the reason it failed with. *)
Theorem handleImportFromUrl_not_ok fetch st :
  importUrl st ≠ [] →
  (∀ statusText body,
     fetch (importUrl st) = FetchResponse false statusText body →
     flashcards (importFromUrl fetch st) = flashcards st ∧
     error (importFromUrl fetch st)
     = Some (lit "Failed to import from URL. Please ensure it's a valid JSON link. Error: "
             ++ lit "Failed to fetch from URL: " ++ statusText)) ∧
  (∀ e,
     fetch (importUrl st) = FetchRejected e →
     flashcards (importFromUrl fetch st) = flashcards st ∧
     error (importFromUrl fetch st)
     = Some (lit "Failed to import from URL. Please ensure it's a valid JSON link. Error: "
             ++ errorMessage e)).
Proof.
  intros Hne. split.
  - intros statusText body Hf. unfold handleImportFromUrl.
    rewrite bool_decide_eq_false_2 by done.
    cbn [importUrl setError setIsImportingUrl]. by rewrite Hf.
  - intros e Hf. unfold handleImportFromUrl.
    rewrite bool_decide_eq_false_2 by done.
    cbn [importUrl setError setIsImportingUrl]. by rewrite Hf.
Qed.

(** Importing the same file a second time changes nothing more, and what
    an accepted file leaves as the collection does not depend on the
    collection before. *)
Theorem handleImport_twice ev st st2 :
  handleImport engine_message ev (handleImport engine_message ev st)
  = handleImport engine_message ev st ∧
  (error (handleImport engine_message ev st) = None → ev ≠ NoFileSelected →
   flashcards (handleImport engine_message ev st2)
   = flashcards (handleImport engine_message ev st)).
Proof.
  destruct ev as [| |result]; [done | split; done |].
  unfold handleImport, handleImport_onload.
  destruct (match result with
            | Some text =>
                let! importedData := JSON_parse_or_throw engine_message text in
                check_imported engine_message
                  (lit "Invalid JSON structure. Expected an array of flashcard items.")
                  importedData
            | None => inl (ErrorObject (lit "File could not be read properly."))
            end) as [e|v]; split; done.
Qed.

(** A collection of plain objects with [id] and [text] that is not empty
    is exported without a change to the state, and an import of the
    document from a URL gives the collection back, shows no error and
    empties the URL field. *)
Theorem export_importFromUrl_roundtrip st st0 :
  flashcards st ≠ [] →
  Forall (λ card, plain (JObject card) ∧ fields_defined (JObject card))
         (flashcards st) →
  ∃ doc, handleExport st = (st, Some doc) ∧
    ∀ fetch statusText,
      importUrl st0 ≠ [] →
      fetch (importUrl st0) = FetchResponse true statusText doc →
      flashcards (importFromUrl fetch st0) = flashcards st ∧
      error (importFromUrl fetch st0) = None ∧
      importUrl (importFromUrl fetch st0) = [] ∧
      isImportingUrl (importFromUrl fetch st0) = false.
Proof.
  intros Hne HF. unfold handleExport.
  destruct (flashcards st) as [|card cards] eqn:Hcards; [done|].
  rewrite <- Hcards in *. clear Hne.
  eexists. split; [reflexivity|]. intros fetch statusText Hurl Hfetch.
  set (items := JObject <$> flashcards st) in *.
  assert (Hparse : JSON_parse (JSON_stringify (JArray items)) = Some (JArray items)).
  { apply JSON_parse_stringify. constructor. unfold items.
    rewrite Forall_fmap. eapply Forall_impl; [exact HF|]. by intros ? [? _]. }
  destruct (handleImportFromUrl_effect engine_message _ st0 fetch statusText
              Hurl Hfetch) as [Hacc _].
  destruct (Hacc items Hparse) as [Hfl Herr].
  { exists items. split; [done|]. unfold items.
    rewrite Forall_fmap. eapply Forall_impl; [exact HF|]. by intros ? [_ ?]. }
  destruct (handleImportFromUrl_cases fetch st0 Hurl)
    as [Hflag [(_ & [e He] & _)|(_ & _ & Hclear)]]; [congruence|].
  split; [by apply fmap_JObject_inj | done].
Qed.

End DeckMore.

Lemma deck_invariant_state_of cards : deck_invariant (state_of cards).
Proof.
  unfold deck_invariant, state_of. cbn [flashcards].
  rewrite Forall_fmap. apply Forall_forall. intros c _.
  apply fields_defined_FlashcardItem.
Qed.

Lemma import_keeps_deck_invariant_witness :
  deck_invariant
    (handleImport v8_message (FileLoaded (Some deck_without_strings))
                  (state_of [card_dog])) ∧
  deck_invariant
    (handleImportFromUrl v8_message (fetch_ok deck_without_text)
                         (url_state [card_dog])).
Proof.
  split.
  - apply (import_keeps_deck_invariant v8_message (state_of [card_dog])).
    apply deck_invariant_state_of.
  - apply (import_keeps_deck_invariant v8_message (url_state [card_dog])).
    apply (deck_invariant_state_of [card_dog]).
Defined.

Lemma handleImportFromUrl_flags_witness :
  isImportingUrl (handleImportFromUrl v8_message (fetch_ok deck_without_text)
                                      (url_state [card_dog])) = false ∧
  importUrl (handleImportFromUrl v8_message (fetch_ok deck_without_text)
                                 (url_state [card_dog]))
  = lit "https://example.org/deck.json".
Proof.
  destruct (handleImportFromUrl_flags v8_message (fetch_ok deck_without_text)
              (url_state [card_dog])) as [_ H].
  destruct H as (Hflag & _ & Hkept); [done|].
  split; [exact Hflag|]. apply Hkept. vm_compute. discriminate.
Defined.

Lemma handleImportFromUrl_not_ok_witness :
  flashcards (handleImportFromUrl v8_message fetch_not_found
                                  (url_state [card_dog]))
  = [obj_of_FlashcardItem card_dog].
Proof.
  destruct (handleImportFromUrl_not_ok v8_message fetch_not_found
              (url_state [card_dog])) as [H _]; [done|].
  destruct (H (lit "Not Found") (json_text "[{'id':'a','text':'A'}]"))
    as [Hfl _]; [reflexivity|].
  exact Hfl.
Defined.

Lemma handleImport_twice_witness :
  flashcards (handleImport v8_message (FileLoaded (Some deck_without_strings))
                           (state_of [card_dog]))
  = flashcards (handleImport v8_message (FileLoaded (Some deck_without_strings))
                             empty_state).
Proof.
  destruct (handleImport_twice v8_message
              (FileLoaded (Some deck_without_strings))
              empty_state (state_of [card_dog])) as [_ H].
  apply H; [vm_compute; reflexivity | discriminate].
Defined.

Lemma export_importFromUrl_roundtrip_witness :
  ∃ doc,
    handleExport (state_of [card_dog; card_cat_loading])
    = (state_of [card_dog; card_cat_loading], Some doc) ∧
    flashcards (handleImportFromUrl v8_message (fetch_ok doc) (url_state []))
    = obj_of_FlashcardItem <$> [card_dog; card_cat_loading].
Proof.
  destruct (export_importFromUrl_roundtrip v8_message
              (state_of [card_dog; card_cat_loading]) (url_state []))
    as (doc & Hdoc & H).
  - done.
  - cbn [flashcards state_of]. rewrite Forall_fmap. apply Forall_forall.
    intros c _. split; [apply plain_FlashcardItem | apply fields_defined_FlashcardItem].
  - exists doc. split; [exact Hdoc|].
    destruct (H (fetch_ok doc) (lit "OK")) as [Hfl _]; [done | reflexivity |].
    exact Hfl.
Defined.

(** * The first deck *)

Lemma split_slash_no_slash s : 0x2f ∉ s → split_slash s = [s].
Proof.
  induction s as [|c s IH]; [done|]. intros Hn.
  apply not_elem_of_cons in Hn as [Hc Hs]. cbn [split_slash].
  destruct (N.eqb_spec c 0x2f); [done|]. by rewrite IH.
Qed.

Lemma split_slash_after dir name :
  ∃ w ws, split_slash (dir ++ 0x2f :: name) = w :: ws ∧ ws ≠ [] ∧
          last ws = last (split_slash name).
Proof.
  assert (Hne : ∀ s, split_slash s ≠ []).
  { intros [|c s]; [done|]. cbn [split_slash].
    destruct (c =? 0x2f); [done|]. by destruct (split_slash s). }
  induction dir as [|c dir (w & ws & Heq & Hws & Hlast)].
  - exists [], (split_slash name). by rewrite app_nil_l.
  - rewrite <- app_comm_cons. cbn [split_slash]. rewrite Heq.
    destruct (c =? 0x2f).
    + exists [], (w :: ws). split; [done|]. split; [done|].
      destruct ws; [done|]. by rewrite last_cons_cons.
    + by exists (c :: w), ws.
Qed.

Lemma pop_split_slash dir name :
  pop_or_empty (split_slash (dir ++ 0x2f :: name))
  = pop_or_empty (split_slash name).
Proof.
  destruct (split_slash_after dir name) as (w & ws & -> & Hws & Hlast).
  unfold pop_or_empty. destruct ws; [done|]. by rewrite last_cons_cons, Hlast.
Qed.

Lemma strip_mp3_suffix s : strip_mp3 (s ++ lit ".mp3") = s.
Proof.
  unfold strip_mp3. rewrite length_app.
  replace (length s + length (lit ".mp3") - 4)%nat with (length s)
    by (change (length (lit ".mp3")) with 4%nat; lia).
  by rewrite drop_app_length, take_app_length, bool_decide_eq_true_2.
Qed.

Lemma replace_percent20_no_percent s :
  0x25 ∉ s → replace_percent20 s = s.
Proof.
  induction s as [|c s IH]; [done|]. intros Hn.
  apply not_elem_of_cons in Hn as [Hc Hs]. cbn [replace_percent20].
  rewrite (IH Hs). destruct (N.eqb_spec c 0x25); [done|].
  by destruct s as [|? [|? ?]].
Qed.

Lemma trimStart_head s c : head (trimStart s) = Some c → is_space c = false.
Proof.
  induction s as [|d s IH]; [done|]. cbn [trimStart].
  destruct (is_space d) eqn:Hd; [done|]. by intros [= <-].
Qed.

Lemma trimStart_suffix s : trimStart s `suffix_of` s.
Proof.
  induction s as [|d s IH]; [done|]. cbn [trimStart].
  destruct (is_space d); [by apply suffix_cons_r | done].
Qed.

Lemma last_suffix (l k : jsstring) c :
  l `suffix_of` k → last l = Some c → last k = Some c.
Proof.
  intros [pre ->] Hl. destruct l as [|x l]; [done|].
  by rewrite last_app_cons.
Qed.

Lemma head_reverse_last (l : jsstring) : head (reverse l) = last l.
Proof.
  induction l as [|x l IH] using rev_ind; [done|].
  by rewrite reverse_app, last_snoc.
Qed.

Lemma last_reverse_head (l : jsstring) : last (reverse l) = head l.
Proof. by rewrite <- head_reverse_last, reverse_involutive. Qed.

Lemma trimStart_id s :
  (∀ c, head s = Some c → is_space c = false) → trimStart s = s.
Proof.
  destruct s as [|c s]; [done|]. intros H. cbn [trimStart].
  by rewrite (H c).
Qed.

Lemma trim_trimmed s : trimmed (trim s).
Proof.
  unfold trim. split; intros c.
  - rewrite head_reverse_last. intros Hl.
    apply (last_suffix _ _ _ (trimStart_suffix _)) in Hl.
    rewrite last_reverse_head in Hl. by apply trimStart_head in Hl.
  - rewrite last_reverse_head. apply trimStart_head.
Qed.

Lemma trim_id s : trimmed s → trim s = s.
Proof.
  intros [Hh Hl]. unfold trim. rewrite (trimStart_id s Hh).
  rewrite trimStart_id; [apply reverse_involutive|].
  intros c. rewrite head_reverse_last. apply Hl.
Qed.

Section FirstDeckFacts.

Variable AUDIO_URLS : list jsstring.
Variable decodeURIComponent : jsstring → thrown + jsstring.
Variable toUpperCase : jsstring → jsstring.

Local Abbreviation parse := (parse_url decodeURIComponent toUpperCase).
Local Abbreviation parse_all := (map_parse_url decodeURIComponent toUpperCase).
Local Abbreviation mount :=
  (useEffect_mount AUDIO_URLS decodeURIComponent toUpperCase).

Lemma map_parse_url_spec urls : ∀ cards,
  parse_all urls = inr cards →
  id <$> cards = urls ∧ audioUrl <$> cards = urls ∧
  Forall (λ c, imageUrl c = None ∧ isLoading c = false) cards.
Proof.
  induction urls as [|url urls IH]; intros cards; cbn [map_parse_url].
  - by intros [= <-].
  - unfold parse_url at 1.
    destruct (decodeURIComponent _) as [e|decoded]; [done|].
    destruct (parse_all urls) as [e|rest]; [done|].
    intros [= <-]. destruct (IH rest eq_refl) as (Hid & Haudio & Hrest).
    rewrite !fmap_cons, Hid, Haudio. cbn [id audioUrl].
    split; [done|]. split; [done|]. by constructor.
Qed.

Lemma map_parse_url_throws urls url :
  url ∈ urls →
  is_Some (match decodeURIComponent (pop_or_empty (split_slash url)) with
           | inl e => Some e | inr _ => None end) →
  ∃ e, parse_all urls = inl e.
Proof.
  intros Hin [e0 Hthrows].
  induction urls as [|u urls IH]; [by apply elem_of_nil in Hin|].
  cbn [map_parse_url]. unfold parse_url at 1.
  destruct (decide (url = u)) as [<-|Hne].
  - destruct (decodeURIComponent (pop_or_empty (split_slash url))) as [e|];
      [by exists e | done].
  - apply elem_of_cons in Hin as [?|Hin]; [done|].
    destruct (decodeURIComponent (pop_or_empty (split_slash u))) as [e|];
      [by exists e|].
    destruct (IH Hin) as [e' ->]. by exists e'.
Qed.

(** The deck the application starts with has one card for each URL of
    [AUDIO_URLS], in their order; the URL is the [id] and the [audioUrl] of
    its card, and no card has an image or is loading. If a file name does
    not decode, no deck is set at all. *)
Theorem useEffect_mount_deck st :
  (∀ st', mount st = inr st' →
     ∃ cards, flashcards st' = obj_of_FlashcardItem <$> cards ∧
       id <$> cards = AUDIO_URLS ∧ audioUrl <$> cards = AUDIO_URLS ∧
       Forall (λ c, imageUrl c = None ∧ isLoading c = false) cards ∧
       error st' = error st ∧ importUrl st' = importUrl st) ∧
  (∀ url, url ∈ AUDIO_URLS →
     is_Some (match decodeURIComponent (pop_or_empty (split_slash url)) with
              | inl e => Some e | inr _ => None end) →
     ∃ e, mount st = inl e).
Proof.
  split.
  - intros st'. unfold useEffect_mount.
    destruct (parse_all AUDIO_URLS) as [e|cards] eqn:Hp; [done|].
    intros [= <-]. exists cards. split; [done|].
    destruct (map_parse_url_spec _ _ Hp) as (? & ? & ?). done.
  - intros url Hin Hthrows. unfold useEffect_mount.
    destruct (map_parse_url_throws _ _ Hin Hthrows) as [e ->]. by exists e.
Qed.

(** The text of a card is made from what follows the last slash of its
    URL only. *)
Theorem parse_url_last_segment dir name :
  0x2f ∉ name →
  pop_or_empty (split_slash (dir ++ 0x2f :: name)) = name ∧
  sum_map (λ e, e) text (parse (dir ++ 0x2f :: name))
  = sum_map (λ e, e) text (parse name).
Proof.
  intros Hn.
  assert (Hname : pop_or_empty (split_slash name) = name)
    by (by rewrite split_slash_no_slash).
  rewrite <- Hname at 2. split; [apply pop_split_slash|].
  unfold parse_url. rewrite pop_split_slash.
  by destruct (decodeURIComponent _).
Qed.

(** For a file name that decodes to a name followed by [.mp3], the name
    having no per cent sign, the text is the name without the white space
    around it, its first code unit in upper case; that name neither begins
    nor ends with white space, and a name that has none around it is kept
    as it is. *)
Theorem parse_url_text url name :
  decodeURIComponent (pop_or_empty (split_slash url)) = inr (name ++ lit ".mp3") →
  0x25 ∉ name →
  parse url
  = inr {| id := url; text := capitalize toUpperCase (trim name);
           audioUrl := url; imageUrl := None; isLoading := false |} ∧
  trimmed (trim name) ∧
  (trimmed name → trim name = name).
Proof.
  intros Hdec Hn. unfold parse_url. rewrite Hdec.
  rewrite strip_mp3_suffix, replace_percent20_no_percent by done.
  split; [done|]. split; [apply trim_trimmed | apply trim_id].
Qed.

End FirstDeckFacts.

Lemma useEffect_mount_deck_witness :
  ∃ cards,
    obj_of_FlashcardItem <$> cards
    = obj_of_FlashcardItem <$>
        [ {| id := lit "audio/cat.mp3"; text := lit "Cat";
             audioUrl := lit "audio/cat.mp3"; imageUrl := None;
             isLoading := false |};
          {| id := lit "audio/big dog.mp3"; text := lit "Big dog";
             audioUrl := lit "audio/big dog.mp3"; imageUrl := None;
             isLoading := false |} ] ∧
    id <$> cards = [lit "audio/cat.mp3"; lit "audio/big dog.mp3"].
Proof.
  destruct (useEffect_mount_deck [lit "audio/cat.mp3"; lit "audio/big dog.mp3"]
              decode_plain asciiUpperCase empty_state) as [H _].
  destruct (H (state_of
                 [ {| id := lit "audio/cat.mp3"; text := lit "Cat";
                      audioUrl := lit "audio/cat.mp3"; imageUrl := None;
                      isLoading := false |};
                   {| id := lit "audio/big dog.mp3"; text := lit "Big dog";
                      audioUrl := lit "audio/big dog.mp3"; imageUrl := None;
                      isLoading := false |} ]))
    as (cards & Hcards & Hid & _); [vm_compute; reflexivity|].
  exists cards. split; [symmetry; exact Hcards | exact Hid].
Defined.

Lemma parse_url_last_segment_witness :
  pop_or_empty (split_slash (lit "https://example.org/audio/cat.mp3"))
  = lit "cat.mp3".
Proof.
  destruct (parse_url_last_segment decode_plain asciiUpperCase
              (lit "https://example.org/audio") (lit "cat.mp3")) as [H _].
  - apply (bool_decide_unpack _). vm_compute. exact I.
  - exact H.
Defined.

Lemma parse_url_text_witness :
  parse_url decode_plain asciiUpperCase (lit "audio/ big dog .mp3")
  = inr {| id := lit "audio/ big dog .mp3";
           text := capitalize asciiUpperCase (trim (lit " big dog "));
           audioUrl := lit "audio/ big dog .mp3";
           imageUrl := None; isLoading := false |}.
Proof.
  destruct (parse_url_text decode_plain asciiUpperCase
              (lit "audio/ big dog .mp3") (lit " big dog ")) as [H _].
  - vm_compute. reflexivity.
  - apply (bool_decide_unpack _). vm_compute. exact I.
  - exact H.
Defined.

(** * The event loop *)

Lemma launch_await_generate id prompt next loop :
  launch (Await_async (handleGenerateImage_async id prompt) next) loop
  = {| state := setError None (setFlashcards (mark_loading id) (state loop));
       awaiting := awaiting loop
                   ++ [λ o, Await_async (handleGenerateImage_resume id prompt o) next];
       calls := calls loop ++ [CallStarted (fullPrompt prompt)] |}.
Proof. reflexivity. Qed.

(** The call of a generation that bulk generation awaits settles: the loop
    goes on with the rest of the cards, from the state and the calls that
    [handleGenerateImage] gives for a service that settles the call the
    same way. *)
Lemma settle_await_generate id prompt next loop o :
  awaiting loop = [] →
  ∃ loop2,
    settle 0 o (launch (Await_async (handleGenerateImage_async id prompt) next) loop)
    = Some (launch next loop2) ∧
    awaiting loop2 = [] ∧
    calls loop2
    = calls loop ++ [CallStarted (fullPrompt prompt); CallSettled o] ∧
    ∀ w, handleGenerateImage (list outcome) scripted id prompt
           (system_at loop (o :: w))
         = system_at loop2 w.
Proof.
  intros Hidle. rewrite launch_await_generate, Hidle, app_nil_l.
  destruct loop as [st aw cs]. cbn [state awaiting calls] in *.
  unfold settle. cbn [awaiting state calls lookup list_lookup delete list_delete].
  rewrite <- app_assoc. cbn [app].
  destruct o as [url|e].
  - eexists {| state := _; awaiting := []; calls := _ |}.
    split; [reflexivity|]. split; [reflexivity|]. split; [reflexivity|].
    intros w. by rewrite handleGenerateImage_eq.
  - eexists {| state := _; awaiting := []; calls := _ |}.
    split; [reflexivity|]. split; [reflexivity|]. split; [reflexivity|].
    intros w. by rewrite handleGenerateImage_eq.
Qed.

Lemma in_turn_nil outcomes : [] = in_turn outcomes → outcomes = [].
Proof. by destruct outcomes. Qed.

Lemma started_prefix pre evs :
  pre `prefix_of` evs → started pre `prefix_of` started evs.
Proof. intros [k ->]. rewrite started_app. by eexists. Qed.

Lemma prompts_due_cons card rest :
  prompts_due (card :: rest)
  = if lacks_image_and_not_loading card
    then fullPrompt (card_text card) :: prompts_due rest
    else prompts_due rest.
Proof.
  unfold prompts_due. destruct (lacks_image_and_not_loading card) eqn:Hel.
  - by rewrite filter_cons_True, fmap_cons.
  - rewrite filter_cons_False; [done|]. by rewrite Hel.
Qed.

(** Bulk generation on the loop: the calls that are outstanding can only
    be settled one way, the first and only one each time; and settled
    that way to the end, the loop is left with the state and the calls
    that [handleGenerateAll] gives for a service that settles its calls
    the same way. *)
Lemma bulk_run cards : ∀ task loop schedule loop',
  handleGenerateAll_async_loop cards = Some task →
  awaiting loop = [] →
  settle_each schedule (launch task loop) = Some loop' →
  ∃ outcomes,
    schedule = in_turn outcomes ∧
    (length outcomes ≤ length (prompts_due cards))%nat ∧
    (awaiting loop' = [] ↔ length outcomes = length (prompts_due cards)) ∧
    calls loop `prefix_of` calls loop' ∧
    ∀ more,
      (length outcomes + length more)%nat = length (prompts_due cards) →
      ∃ loop'',
        settle_each (in_turn more) loop' = Some loop'' ∧
        awaiting loop'' = [] ∧
        calls loop' `prefix_of` calls loop'' ∧
        handleGenerateAll_loop (list outcome) scripted cards
          (system_at loop (outcomes ++ more))
        = Some (system_at loop'' []).
Proof.
  induction cards as [|card rest IH]; intros task loop schedule loop' Htask Hidle Hrun.
  - injection Htask as <-. change (launch Return loop) with loop in Hrun.
    destruct schedule as [|[i o] schedule].
    + injection Hrun as <-. exists []. split; [done|]. split; [done|].
      split; [done|]. split; [done|].
      intros [|o more] Hmore; [|done]. exists loop.
      split; [done|]. split; [done|]. split; [done|].
      destruct loop as [st aw cs]. simpl in Hidle. by subst aw.
    + cbn [settle_each] in Hrun. unfold settle in Hrun.
      by rewrite Hidle in Hrun.
  - cbn [handleGenerateAll_async_loop] in Htask.
    destruct (handleGenerateAll_async_loop rest) as [next|] eqn:Hnext; [|done].
    rewrite prompts_due_cons. cbn [handleGenerateAll_loop].
    fold (lacks_image_and_not_loading card) in Htask |- *.
    destruct (lacks_image_and_not_loading card) eqn:Hel.
    + destruct (get card (lit "id")) as [[| | |i| |]|] eqn:Hi; try done.
      destruct (get card (lit "text")) as [[| | |t| |]|] eqn:Ht; try done.
      cbn [string_argument] in Htask |- *. injection Htask as <-.
      assert (card_text card = t) as -> by (unfold card_text; by rewrite Ht).
      destruct schedule as [|[j o] schedule].
      * injection Hrun as <-. exists []. split; [done|].
        split; [cbn [length]; lia|].
        split.
        { rewrite launch_await_generate, Hidle. by split. }
        split; [rewrite launch_await_generate; by eexists|].
        intros [|o more] Hmore; [done|]. cbn [length] in Hmore.
        destruct (settle_await_generate i t next loop o Hidle)
          as (loop2 & Hsettle & Hidle2 & Hcalls2 & Hbig).
        destruct (IH next loop2 [] (launch next loop2) eq_refl Hidle2 eq_refl)
          as (outcomes0 & ->%in_turn_nil & _ & _ & Hpre0 & Hext).
        destruct (Hext more) as (loop'' & Hrun'' & Hidle'' & Hpre'' & Hend);
          [cbn [length]; lia|].
        exists loop''. cbn [in_turn fmap list_fmap settle_each].
        rewrite Hsettle. split; [done|]. split; [done|].
        split.
        { etrans; [|exact Hpre'']. etrans; [|exact Hpre0].
          rewrite launch_await_generate, Hcalls2. cbn [calls].
          exists [CallSettled o]. by rewrite <- app_assoc. }
        rewrite app_nil_l, Hbig. by rewrite app_nil_l in Hend.
      * cbn [settle_each] in Hrun.
        destruct (settle j o _) as [loop1|] eqn:Hj; [|done].
        assert (j = 0%nat) as ->.
        { rewrite launch_await_generate, Hidle in Hj. unfold settle in Hj.
          cbn [awaiting app] in Hj. destruct j; [done|]. by destruct j. }
        destruct (settle_await_generate i t next loop o Hidle)
          as (loop2 & Hsettle & Hidle2 & Hcalls2 & Hbig).
        rewrite Hsettle in Hj. injection Hj as <-.
        destruct (IH next loop2 schedule loop' eq_refl Hidle2 Hrun)
          as (outcomes & -> & Hle & Hiff & Hpre & Hext).
        exists (o :: outcomes). split; [done|].
        split; [cbn [length]; lia|].
        split; [rewrite Hiff; cbn [length]; lia|].
        split.
        { etrans; [|exact Hpre]. rewrite Hcalls2. by eexists. }
        intros more Hmore. cbn [length] in Hmore.
        destruct (Hext more) as (loop'' & Hrun'' & Hidle'' & Hpre'' & Hend);
          [lia|].
        exists loop''. split; [done|]. split; [done|]. split; [done|].
        rewrite <- app_comm_cons. by rewrite Hbig.
    + injection Htask as <-.
      destruct (IH next loop schedule loop' eq_refl Hidle Hrun)
        as (outcomes & -> & Hle & Hiff & Hpre & Hext).
      exists outcomes. done.
Qed.

Lemma handleGenerateAll_async_loop_Some cards :
  Forall has_string_id_and_text cards →
  ∃ task, handleGenerateAll_async_loop cards = Some task.
Proof.
  induction 1 as [|card rest (i & t & Hi & Ht) _ [next IH]]; [by eexists|].
  cbn [handleGenerateAll_async_loop]. rewrite IH, Hi, Ht.
  destruct (_ && _); by eexists.
Qed.

(** C8, as the program has it: for a collection whose cards hold strings in
    [id] and [text], bulk generation started on an idle loop runs as
    follows, however and whenever the image service settles its calls.  At every
    time at most one call is outstanding: a call starts only when the one
    before has settled.  The calls made so far are the first of the
    prompts of the cards that lacked an image and were not loading, in the
    order of the collection; the run has completed exactly when as many
    calls have settled as there are such cards, and then each of them has
    been called for once, no call is outstanding, and a card that is
    loading was loading at the start.  And the run does complete once
    that many calls have settled, whether they resolve or reject. *)
Theorem handleGenerateAll_sequential st :
  Forall has_string_id_and_text (flashcards st) →
  ∃ task,
    handleGenerateAll_async st = Some task ∧
    (∀ schedule loop,
       settle_each schedule (launch task (idle st)) = Some loop →
       (∀ pre, pre `prefix_of` calls loop →
               ∃ n, outstanding 0 pre = Some n ∧ (n ≤ 1)%nat) ∧
       started (calls loop) `prefix_of` prompts_due (flashcards st) ∧
       (length schedule ≤ length (prompts_due (flashcards st)))%nat ∧
       (awaiting loop = []
        ↔ length schedule = length (prompts_due (flashcards st))) ∧
       (awaiting loop = [] →
        started (calls loop) = prompts_due (flashcards st) ∧
        outstanding 0 (calls loop) = Some 0%nat ∧
        length (flashcards (state loop)) = length (flashcards st) ∧
        ∀ k card', flashcards (state loop) !! k = Some card' → loading card' →
          ∃ card, flashcards st !! k = Some card ∧ loading card)) ∧
    (∀ outcomes,
       length outcomes = length (prompts_due (flashcards st)) →
       ∃ loop,
         settle_each (in_turn outcomes) (launch task (idle st)) = Some loop ∧
         awaiting loop = []).
Proof.
  intros Htyped.
  destruct (handleGenerateAll_async_loop_Some _ Htyped) as [task Htask].
  exists task. split; [done|]. split.
  - intros schedule loop Hrun.
    destruct (bulk_run _ task (idle st) schedule loop Htask eq_refl Hrun)
      as (outcomes & -> & Hle & Hiff & _ & Hext).
    unfold in_turn. rewrite length_fmap.
    destruct (Hext (replicate (length (prompts_due (flashcards st))
                               - length outcomes) (Rejected OtherValue)))
      as (loop'' & Hrun'' & Hidle'' & Hpre'' & Hend);
      [rewrite length_replicate; lia|].
    destruct (handleGenerateAll_loop_spec (list outcome) scripted
                (flashcards st) (system_at (idle st) (outcomes ++ replicate
                   (length (prompts_due (flashcards st)) - length outcomes)
                   (Rejected OtherValue))) Htyped)
      as (sys' & evs & Hsys' & Htr & Hseq & Hst & Hlen & Hload).
    rewrite Hend in Hsys'. injection Hsys' as <-.
    cbn [trace app system_at idle calls state app] in Htr, Hlen, Hload.
    rewrite app_nil_l in Htr.
    destruct (sequential_outstanding evs Hseq) as [H0 Hprefix].
    split; [intros pre Hpre; apply Hprefix; rewrite <- Htr; by etrans|].
    split.
    { fold (prompts_due (flashcards st)) in Hst. rewrite <- Hst, <- Htr.
      by apply started_prefix. }
    split; [done|]. split; [done|].
    intros Hidle. apply Hiff in Hidle.
    rewrite Hidle, Nat.sub_diag in Hrun''. injection Hrun'' as <-.
    rewrite Htr. done.
  - intros outcomes Hlen.
    destruct (bulk_run _ task (idle st) [] _ Htask eq_refl eq_refl)
      as (outcomes0 & ->%in_turn_nil & _ & _ & _ & Hext).
    destruct (Hext outcomes Hlen) as (loop & Hrun & Hidle & _). eauto.
Qed.

(** Against C8 as stated: a card that is loading when bulk generation
    starts is skipped, and is still loading when the run has completed. *)
Lemma handleGenerateAll_leaves_loading :
  ∃ task loop,
    handleGenerateAll_async (state_of [card_cat_loading; card_dog]) = Some task ∧
    settle_each [(0%nat, Resolved (lit "data:image/png;base64,AAAA"))]
                (launch task (idle (state_of [card_cat_loading; card_dog])))
    = Some loop ∧
    awaiting loop = [] ∧
    ¬ Forall (λ card, ¬ loading card) (flashcards (state loop)).
Proof.
  eexists _, _. split; [reflexivity|]. split; [reflexivity|].
  split; [reflexivity|].
  intros H. apply Forall_cons in H as [H _]. apply H. reflexivity.
Qed.

Lemma handleGenerateAll_sequential_witness :
  ∃ task loop,
    handleGenerateAll_async (state_of [card_dog; card_cat_loading; card_sun])
    = Some task ∧
    settle_each (in_turn [Rejected (ErrorObject (lit "quota exceeded"));
                          Resolved (lit "data:image/png;base64,AAAA")])
                (launch task (idle (state_of [card_dog; card_cat_loading; card_sun])))
    = Some loop ∧
    started (calls loop) = [fullPrompt (lit "Dog"); fullPrompt (lit "Sun")] ∧
    outstanding 0 (calls loop) = Some 0%nat.
Proof.
  destruct (handleGenerateAll_sequential
              (state_of [card_dog; card_cat_loading; card_sun])
              (deck_has_string_id_and_text _))
    as (task & Htask & Hany & Hcomplete).
  destruct (Hcomplete [Rejected (ErrorObject (lit "quota exceeded"));
                       Resolved (lit "data:image/png;base64,AAAA")] eq_refl)
    as (loop & Hrun & Hidle).
  destruct (Hany _ _ Hrun) as (_ & _ & _ & _ & Hend).
  destruct (Hend Hidle) as (Hstarted & H0 & _).
  exists task, loop. split; [exact Htask|]. split; [exact Hrun|].
  split; [exact Hstarted | exact H0].
Defined.

(** Where calls are not awaited they do overlap: a click on the button of
    one card and then on that of another leaves two calls outstanding. *)
Example clicks_overlap :
  ∃ loop1 loop2,
    click_generate 0 (idle (state_of [card_dog; card_sun])) = Some loop1 ∧
    click_generate 1 loop1 = Some loop2 ∧
    calls loop2 = [CallStarted (fullPrompt (lit "Dog"));
                   CallStarted (fullPrompt (lit "Sun"))] ∧
    outstanding 0 (calls loop2) = Some 2%nat.
Proof. eexists _, _. repeat split. Qed.

(** * Bulk generation on the first deck *)

Section FirstDeckGeneration.

Variable AUDIO_URLS : list jsstring.
Variable decodeURIComponent : jsstring → thrown + jsstring.
Variable toUpperCase : jsstring → jsstring.

Local Abbreviation parse := (parse_url decodeURIComponent toUpperCase).
Local Abbreviation parse_all := (map_parse_url decodeURIComponent toUpperCase).
Local Abbreviation mount :=
  (useEffect_mount AUDIO_URLS decodeURIComponent toUpperCase).

Lemma map_parse_url_each urls : ∀ cards,
  parse_all urls = inr cards →
  Forall2 (λ url c, parse url = inr c) urls cards.
Proof.
  induction urls as [|url urls IH]; intros cards; cbn [map_parse_url].
  - intros [= <-]. constructor.
  - destruct (parse url) as [e|c] eqn:Hc; [done|].
    destruct (parse_all urls) as [e|rest]; [done|].
    intros [= <-]. constructor; [done | by apply IH].
Qed.

(** Every card of the first deck is one to generate for. *)
Lemma prompts_due_first_deck urls cards :
  parse_all urls = inr cards →
  Forall2 (λ url p, ∃ c, parse url = inr c ∧ p = fullPrompt (text c))
          urls (prompts_due (obj_of_FlashcardItem <$> cards)).
Proof.
  intros Hp. destruct (map_parse_url_spec _ _ _ _ Hp) as (_ & _ & Hfresh).
  apply map_parse_url_each in Hp.
  induction Hp as [|url c urls cards Hc Hrest IH]; [constructor|].
  apply Forall_cons in Hfresh as [[Himg Hload] Hfresh].
  rewrite fmap_cons, prompts_due_cons.
  replace (lacks_image_and_not_loading (obj_of_FlashcardItem c)) with true.
  - constructor; [|by apply IH]. exists c. split; [done|].
    by unfold card_text.
  - unfold lacks_image_and_not_loading, obj_of_FlashcardItem.
    rewrite Himg, Hload. reflexivity.
Qed.

(** On the deck the application starts with, bulk generation makes one
    call of the image service for each URL of [AUDIO_URLS], in their
    order, with the prompt of the text made from that URL: when as many
    calls have settled as there are URLs, one way or the other, the run
    has completed with these calls, and at no time were two of them
    outstanding. *)
Theorem first_deck_generateAll st st' :
  mount st = inr st' →
  ∃ task prompts,
    handleGenerateAll_async st' = Some task ∧
    Forall2 (λ url p, ∃ c, parse url = inr c ∧ p = fullPrompt (text c))
            AUDIO_URLS prompts ∧
    ∀ outcomes,
      length outcomes = length AUDIO_URLS →
      ∃ loop,
        settle_each (in_turn outcomes) (launch task (idle st')) = Some loop ∧
        awaiting loop = [] ∧
        started (calls loop) = prompts ∧
        ∀ pre, pre `prefix_of` calls loop →
               ∃ n, outstanding 0 pre = Some n ∧ (n ≤ 1)%nat.
Proof.
  unfold useEffect_mount.
  destruct (parse_all AUDIO_URLS) as [e|cards] eqn:Hp; [done|].
  intros [= <-].
  set (st' := setFlashcards (λ _, obj_of_FlashcardItem <$> cards) st).
  assert (Htyped : Forall has_string_id_and_text (flashcards st'))
    by apply deck_has_string_id_and_text.
  destruct (handleGenerateAll_async_loop_Some _ Htyped) as [task Htask].
  pose proof (prompts_due_first_deck _ _ Hp) as Hprompts.
  exists task, (prompts_due (flashcards st')).
  split; [done|]. split; [done|].
  intros outcomes Hlen. rewrite (Forall2_length _ _ _ Hprompts) in Hlen.
  destruct (bulk_run _ task (idle st') [] _ Htask eq_refl eq_refl)
    as (outcomes0 & ->%in_turn_nil & _ & _ & _ & Hext).
  destruct (Hext outcomes Hlen) as (loop & Hrun & Hidle & _ & Hend).
  destruct (handleGenerateAll_loop_spec (list outcome) scripted
              (flashcards st') (system_at (idle st') ([] ++ outcomes)) Htyped)
    as (sys' & evs & Hsys' & Htr & Hseq & Hst & _).
  rewrite Hend in Hsys'. injection Hsys' as <-.
  cbn [trace system_at idle calls] in Htr. rewrite app_nil_l in Htr.
  exists loop. split; [done|]. split; [done|].
  split; [by rewrite Htr|].
  rewrite Htr. by apply sequential_outstanding.
Qed.

End FirstDeckGeneration.

Lemma first_deck_generateAll_witness :
  ∃ task loop,
    handleGenerateAll_async
      (state_of [ {| id := lit "audio/cat.mp3"; text := lit "Cat";
                     audioUrl := lit "audio/cat.mp3"; imageUrl := None;
                     isLoading := false |};
                  {| id := lit "audio/big dog.mp3"; text := lit "Big dog";
                     audioUrl := lit "audio/big dog.mp3"; imageUrl := None;
                     isLoading := false |} ])
    = Some task ∧
    settle_each (in_turn [Rejected (ErrorObject (lit "quota exceeded"));
                          Resolved (lit "data:image/png;base64,AAAA")])
      (launch task
         (idle (state_of
                  [ {| id := lit "audio/cat.mp3"; text := lit "Cat";
                       audioUrl := lit "audio/cat.mp3"; imageUrl := None;
                       isLoading := false |};
                    {| id := lit "audio/big dog.mp3"; text := lit "Big dog";
                       audioUrl := lit "audio/big dog.mp3"; imageUrl := None;
                       isLoading := false |} ])))
    = Some loop ∧
    started (calls loop) = [fullPrompt (lit "Cat"); fullPrompt (lit "Big dog")].
Proof.
  destruct (first_deck_generateAll
              [lit "audio/cat.mp3"; lit "audio/big dog.mp3"]
              decode_plain asciiUpperCase empty_state
              (state_of
                 [ {| id := lit "audio/cat.mp3"; text := lit "Cat";
                      audioUrl := lit "audio/cat.mp3"; imageUrl := None;
                      isLoading := false |};
                   {| id := lit "audio/big dog.mp3"; text := lit "Big dog";
                      audioUrl := lit "audio/big dog.mp3"; imageUrl := None;
                      isLoading := false |} ]))
    as (task & prompts & Htask & Hprompts & Hruns);
    [vm_compute; reflexivity|].
  destruct (Hruns [Rejected (ErrorObject (lit "quota exceeded"));
                   Resolved (lit "data:image/png;base64,AAAA")] eq_refl)
    as (loop & Hrun & _ & Hstarted & _).
  exists task, loop. split; [exact Htask|]. split; [exact Hrun|].
  rewrite Hstarted.
  apply Forall2_cons_inv_l in Hprompts
    as (p1 & ps1 & (c1 & Hc1 & ->) & Hprompts & ->).
  apply Forall2_cons_inv_l in Hprompts
    as (p2 & ps2 & (c2 & Hc2 & ->) & Hprompts & ->).
  apply Forall2_nil_inv_l in Hprompts as ->.
  vm_compute in Hc1, Hc2.
  injection Hc1 as <-. injection Hc2 as <-. reflexivity.
Defined.

(** * Numbers in the place of an image *)

(** A number is falsy when its binary64 value is zero, which a literal too
    small to be represented is: a card imported with such a number for its
    image is one to generate for, and one with the least positive value is
    not. *)
Example falsy_numbers :
  falsy (Some (JNumber 0 3)) = true ∧
  falsy (Some (JNumber 1 (-400))) = true ∧
  falsy (Some (JNumber 2 (-324))) = true ∧
  falsy (Some (JNumber 5 (-324))) = false ∧
  falsy (Some (JNumber 1 400)) = false.
Proof. repeat split; vm_compute; reflexivity. Qed.

Example prompts_due_number_image :
  (λ v, prompts_due (objects_of (elements v)))
    <$> JSON_parse (json_text "[{'id':'a','text':'A','imageUrl':1e-400},{'id':'b','text':'B','imageUrl':5e-324}]")
  = Some [fullPrompt (lit "A")].
Proof. vm_compute. reflexivity. Qed.
